(** * Closed-claw assistant: the daemon's dispatch, state and lifecycle runtime

    A shallow embedding of four modules of [src/agent]:
    - [event_loop.py]: the priority queue ([asyncio.PriorityQueue], that is
      [heapq] over a Python list), the handler table, the retry path and the
      metrics counters;
    - [state_manager.py]: the IDLE/BUSY/SLEEPING machine, its callbacks and
      the scheduled sleep task;
    - [memory_manager.py]: lazily loaded components, the idle sweep and the
      memory monitor;
    - [daemon.py]: the daemon that owns the three, its start and stop, its
      state callbacks and its event handlers.

    Python objects that are mutated while shared (an [Event] referenced from
    the queue and from a worker, the task held in [_sleep_task]) live in an
    explicit store and are named by their index in it.  Calls into foreign
    code (handlers, callbacks, factories, unload callbacks) are functions
    returning an outcome, and every such call is recorded in a trace.

    Python integers are [Z].  A reading of the clock is an argument of the
    operation that reads it, in microseconds; the delays of the event loop's
    configuration are rationals.  Each operation of the state manager and of
    the component manager is one step: [transition_to] holds the lock for
    its whole body, and the other methods never await in the middle.  A
    handler of the daemon is two steps, one before and one after its
    [asyncio.sleep]; handlers of several workers may interleave there.

    An iteration of a worker of the event loop is one step in which every
    handler call runs to its end.  Iterations follow one another like this
    when one worker runs alone or when a single event is in flight; the
    calls of several workers at work on different events interleave
    wherever a handler or the back-off sleep awaits, and a call cut short
    by [stop] has no outcome.  The statements about [_worker_loop] are
    about runs of the first kind. *)

From Stdlib Require Import ZArith QArith Qminmax Qpower Lia.
From stdpp Require Import base list strings.

Set Default Proof Using "Type".

(** ** Python values and outcomes of foreign calls *)

(** A value of type [Any]: [None] or an object with an identity. *)
Inductive PyVal : Type :=
  | PyNone
  | PyObj (token : nat).

#[global] Instance PyVal_eq_dec : EqDecision PyVal.
Proof. solve_decision. Defined.

Definition is_not_None (v : PyVal) : bool :=
  match v with PyNone => false | PyObj _ => true end.

(** What a call into foreign code does: it returns, or it raises an
    exception derived from [Exception] whose [str()] is [msg]. *)
Inductive Outcome (A : Type) : Type :=
  | Returns (v : A)
  | Raises (msg : string).
Arguments Returns {A} v.
Arguments Raises {A} msg.

(** A log record: level and message. *)
Inductive LogLevel : Type := DEBUG | INFO | WARNING | ERROR.
Definition LogRecord : Type := LogLevel * string.

(** ** heapq

    [asyncio.PriorityQueue] keeps its items in a list and uses
    [heapq.heappush] and [heapq.heappop]; the only comparison is [<]. *)
Module Heapq.
Section Heapq.
Context {A : Type} (lt : A -> A -> bool).

(** The [while pos > startpos] loop of [_siftdown]; [pos] strictly
    decreases, so [pos] iterations always suffice. *)
Fixpoint _siftdown_loop (fuel : nat) (heap : list A) (startpos pos : nat)
    (newitem : A) : list A * nat :=
  match fuel with
  | O => (heap, pos)
  | S fuel' =>
      if Nat.ltb startpos pos then
        let parentpos := Nat.shiftr (pos - 1) 1 in
        match heap !! parentpos with
        | Some parent =>
            if lt newitem parent
            then _siftdown_loop fuel' (<[pos := parent]> heap) startpos parentpos newitem
            else (heap, pos)
        | None => (heap, pos)
        end
      else (heap, pos)
  end.

Definition _siftdown (heap : list A) (startpos pos : nat) : list A :=
  match heap !! pos with
  | Some newitem =>
      let '(heap', pos') := _siftdown_loop pos heap startpos pos newitem in
      <[pos' := newitem]> heap'
  | None => heap
  end.

(** The [while childpos < endpos] loop of [_siftup]: the smaller child is
    bubbled up until a leaf is reached. *)
Fixpoint _siftup_loop (fuel : nat) (heap : list A) (endpos pos : nat)
    : list A * nat :=
  match fuel with
  | O => (heap, pos)
  | S fuel' =>
      let childpos := 2 * pos + 1 in
      if Nat.ltb childpos endpos then
        let rightpos := childpos + 1 in
        let childpos' :=
          match heap !! childpos, heap !! rightpos with
          | Some c, Some r =>
              if Nat.ltb rightpos endpos && negb (lt c r) then rightpos else childpos
          | _, _ => childpos
          end in
        match heap !! childpos' with
        | Some c => _siftup_loop fuel' (<[pos := c]> heap) endpos childpos'
        | None => (heap, pos)
        end
      else (heap, pos)
  end.

Definition _siftup (heap : list A) (pos : nat) : list A :=
  let endpos := length heap in
  let startpos := pos in
  match heap !! pos with
  | Some newitem =>
      let '(heap', pos') := _siftup_loop endpos heap endpos pos in
      _siftdown (<[pos' := newitem]> heap') startpos pos'
  | None => heap
  end.

Definition heappush (heap : list A) (item : A) : list A :=
  _siftdown (heap ++ [item]) 0 (length heap).

(** [None] stands for the [IndexError] of popping an empty list. *)
Definition heappop (heap : list A) : option (A * list A) :=
  match last heap with
  | None => None
  | Some lastelt =>
      match removelast heap with
      | [] => Some (lastelt, [])
      | returnitem :: rest =>
          Some (returnitem, _siftup (<[0 := lastelt]> (returnitem :: rest)) 0)
      end
  end.
End Heapq.

(** *** Order

    What it means for the list to be a heap, told with a rank that [<]
    follows, and the states the two sift loops go through. *)
Section Order.
Context {A : Type} (lt : A -> A -> bool) (rank : A -> Z).

Definition parent (pos : nat) : nat := Nat.shiftr (pos - 1) 1.

(** No entry is below its parent. *)
Definition heap_ordered (heap : list A) : Prop :=
  forall i c p, 0 < i -> heap !! i = Some c -> heap !! parent i = Some p ->
    (rank p <= rank c)%Z.

(** On the entries of the list, [<] compares ranks. *)
Definition ranked (heap : list A) : Prop :=
  forall a b, a ∈ heap -> b ∈ heap -> lt a b = (rank a <? rank b)%Z.

(** The state of the loop of [_siftdown]: with [x] put in the hole at
    [pos], every entry but the hole's is above its parent, and the hole's
    children are above the hole's parent. *)
Definition hole_up (heap : list A) (pos : nat) (x : A) : Prop :=
  pos < length heap /\
  (forall i c p, 0 < i -> i <> pos ->
     <[pos := x]> heap !! i = Some c -> <[pos := x]> heap !! parent i = Some p ->
     (rank p <= rank c)%Z) /\
  (forall i c g, 0 < pos -> 0 < i -> parent i = pos ->
     <[pos := x]> heap !! i = Some c -> <[pos := x]> heap !! parent pos = Some g ->
     (rank g <= rank c)%Z).

(** The state of the first loop of [_siftup]: apart from the hole at
    [pos], every entry is above its parent, and the hole's children are
    above the hole's parent. *)
Definition hole_down (heap : list A) (pos : nat) : Prop :=
  pos < length heap /\
  (forall i c p, 0 < i -> i <> pos -> parent i <> pos ->
     heap !! i = Some c -> heap !! parent i = Some p -> (rank p <= rank c)%Z) /\
  (forall i c g, 0 < pos -> 0 < i -> parent i = pos ->
     heap !! i = Some c -> heap !! parent pos = Some g -> (rank g <= rank c)%Z).
End Order.

Ltac lookups H :=
  repeat first
    [ rewrite list_lookup_insert_ne in H by lia
    | rewrite list_lookup_insert_eq in H by (rewrite ?length_insert; lia) ].
Ltac lookups_goal :=
  repeat first
    [ rewrite list_lookup_insert_ne by lia
    | rewrite list_lookup_insert_eq by (rewrite ?length_insert; lia) ].

End Heapq.

(** ** event_loop.py *)
Module EventLoop.

Inductive EventPriority : Type := CRITICAL | HIGH | NORMAL | LOW | BACKGROUND.

Definition priority_value (p : EventPriority) : Z :=
  match p with
  | CRITICAL => 0 | HIGH => 1 | NORMAL => 2 | LOW => 3 | BACKGROUND => 4
  end%Z.

Inductive EventType : Type := CALL | WHATSAPP | TELEGRAM | MEMORY | SYSTEM | USER.

#[global] Instance EventType_eq_dec : EqDecision EventType.
Proof. solve_decision. Defined.

Definition EventType_name (t : EventType) : string :=
  match t with
  | CALL => "CALL" | WHATSAPP => "WHATSAPP" | TELEGRAM => "TELEGRAM"
  | MEMORY => "MEMORY" | SYSTEM => "SYSTEM" | USER => "USER"
  end.

Record Event : Type := mkEvent {
  event_type : EventType;
  data : PyVal;
  priority : EventPriority;
  timestamp : Z;
  retry_count : Z;
  max_retries : Z;
  event_id : string
}.

(** [Event.__lt__]. *)
Definition Event_lt (self other : Event) : bool :=
  (priority_value (priority self) <? priority_value (priority other))%Z.

Record EventLoopConfig : Type := mkConfig {
  max_queue_size : Z;
  worker_count : nat;
  default_timeout_seconds : Q;
  retry_delay_seconds : Q;
  max_retry_delay_seconds : Q
}.

Definition default_config : EventLoopConfig :=
  {| max_queue_size := 1000;
     worker_count := 4;
     default_timeout_seconds := 30;
     retry_delay_seconds := 1;
     max_retry_delay_seconds := 60 |}.

(** How one handler invocation ends, as [_process_event] tells them apart:
    normal completion, [asyncio.TimeoutError], or another [Exception]. *)
Inductive HandlerOutcome : Type :=
  | Completed
  | TimedOut
  | Failed (msg : string).

(** A handler.  [h_run k e] is the outcome of the invocation made when [k]
    invocations have already been made by the loop, on event [e] as it is at
    that moment. *)
Record Handler : Type := mkHandler {
  h_id : nat;
  h_is_coroutine : bool;
  h_run : nat -> Event -> HandlerOutcome
}.

Record Metrics : Type := mkMetrics {
  processed : Z;
  failed : Z;
  retried : Z;
  dropped : Z
}.

(** An entry of the invocation trace: which handler ran, on which event
    object, and the event as the handler saw it. *)
Record Invocation : Type := mkInvocation {
  inv_handler : nat;
  inv_ref : nat;
  inv_event : Event
}.

(** The state of an [EventLoop].  [objects] is the store of [Event] objects
    ever created; [_queue] is the heap list of the priority queue and holds
    references into [objects].  [invocations] and [sleeps] are traces (newest
    last) of handler calls and of back-off delays. *)
Record State : Type := mkState {
  config : EventLoopConfig;
  objects : list Event;
  _queue : list nat;
  _handlers : EventType -> list Handler;
  _workers : nat;
  _running : bool;
  _metrics : Metrics;
  invocations : list Invocation;
  sleeps : list Q
}.

Definition set_objects (s : State) (o : list Event) : State :=
  mkState (config s) o (_queue s) (_handlers s) (_workers s) (_running s)
          (_metrics s) (invocations s) (sleeps s).
Definition set_queue (s : State) (q : list nat) : State :=
  mkState (config s) (objects s) q (_handlers s) (_workers s) (_running s)
          (_metrics s) (invocations s) (sleeps s).
Definition set_handlers (s : State) (h : EventType -> list Handler) : State :=
  mkState (config s) (objects s) (_queue s) h (_workers s) (_running s)
          (_metrics s) (invocations s) (sleeps s).
Definition set_metrics (s : State) (m : Metrics) : State :=
  mkState (config s) (objects s) (_queue s) (_handlers s) (_workers s) (_running s)
          m (invocations s) (sleeps s).
Definition set_running (s : State) (r : bool) (w : nat) : State :=
  mkState (config s) (objects s) (_queue s) (_handlers s) w r
          (_metrics s) (invocations s) (sleeps s).
Definition add_invocation (s : State) (i : Invocation) : State :=
  mkState (config s) (objects s) (_queue s) (_handlers s) (_workers s) (_running s)
          (_metrics s) (invocations s ++ [i]) (sleeps s).
Definition add_sleep (s : State) (d : Q) : State :=
  mkState (config s) (objects s) (_queue s) (_handlers s) (_workers s) (_running s)
          (_metrics s) (invocations s) (sleeps s ++ [d]).

Definition incr_processed (m : Metrics) : Metrics :=
  mkMetrics (processed m + 1) (failed m) (retried m) (dropped m).
Definition incr_failed (m : Metrics) : Metrics :=
  mkMetrics (processed m) (failed m + 1) (retried m) (dropped m).
Definition incr_retried (m : Metrics) : Metrics :=
  mkMetrics (processed m) (failed m) (retried m + 1) (dropped m).
Definition incr_dropped (m : Metrics) : Metrics :=
  mkMetrics (processed m) (failed m) (retried m) (dropped m + 1).

(** [EventLoop.__init__]. *)
Definition init (cfg : EventLoopConfig) : State :=
  {| config := cfg;
     objects := [];
     _queue := [];
     _handlers := fun _ => [];
     _workers := 0;
     _running := false;
     _metrics := mkMetrics 0 0 0 0;
     invocations := [];
     sleeps := [] |}.

(** [register_handler]: append to the list kept for the event type. *)
Definition register_handler (event_type0 : EventType) (handler : Handler)
    (s : State) : State :=
  set_handlers s (fun t =>
    if decide (t = event_type0) then _handlers s t ++ [handler] else _handlers s t).

(** Comparison of two queue entries: [Event.__lt__] on the objects they
    refer to.  A dangling reference compares as not smaller. *)
Definition ref_lt (objs : list Event) (a b : nat) : bool :=
  match objs !! a, objs !! b with
  | Some ea, Some eb => Event_lt ea eb
  | _, _ => false
  end.

(** [asyncio.Queue.full]: a queue with [maxsize <= 0] is never full. *)
Definition full (s : State) : bool :=
  if (max_queue_size (config s) <=? 0)%Z then false
  else (max_queue_size (config s) <=? Z.of_nat (length (_queue s)))%Z.

(** [asyncio.Queue.put_nowait]: [None] stands for [QueueFull]. *)
Definition put_nowait (r : nat) (s : State) : option State :=
  if full s then None
  else Some (set_queue s (Heapq.heappush (ref_lt (objects s)) (_queue s) r)).

(** [asyncio.Queue.get_nowait]: [None] stands for [QueueEmpty]. *)
Definition get_nowait (s : State) : option (nat * State) :=
  match Heapq.heappop (ref_lt (objects s)) (_queue s) with
  | Some (r, q') => Some (r, set_queue s q')
  | None => None
  end.

(** [emit].  The creation time and the identifier of the new [Event] come
    from the environment.  The result is the reference of the event when it
    was queued and [None] when it was dropped. *)
Definition emit (event_type0 : EventType) (data0 : PyVal) (priority0 : EventPriority)
    (now : Z) (eid : string) (s : State) : option nat * State :=
  let event := mkEvent event_type0 data0 priority0 now 0 3 eid in
  let r := length (objects s) in
  let s1 := set_objects s (objects s ++ [event]) in
  match put_nowait r s1 with
  | Some s2 => (Some r, s2)
  | None => (None, set_metrics s1 (incr_dropped (_metrics s1)))
  end.

(** [start] and [stop] as far as the state above records them. *)
Definition start (s : State) : State :=
  if _running s then s
  else set_running s true (_workers s + worker_count (config s)).

Definition stop (s : State) : State :=
  if _running s then set_running s false 0 else s.

(** [2 ** (retry_count - 1)] as a rational. *)
Definition pow2 (z : Z) : Q := Qpower 2 z.

(** [event.retry_count += 1]. *)
Definition bump (e : Event) : Event :=
  mkEvent (event_type e) (data e) (priority e) (timestamp e)
          (retry_count e + 1) (max_retries e) (event_id e).

(** The back-off delay, computed from the retry count already raised.
    The source computes it in floating point, and exactly so as long as
    the product is finite: the power of two is an integer, converted to a
    float for the product.  From a retry count of 1025 on that conversion
    raises [OverflowError] and no delay exists; [backoff] is the delay for
    the retry counts up to 1024, and the statements about retries stay
    within them, as every event built by [emit] does with its three
    retries. *)
Definition backoff (cfg : EventLoopConfig) (e : Event) : Q :=
  Qmin (retry_delay_seconds cfg * pow2 (retry_count e - 1))
       (max_retry_delay_seconds cfg).

(** [_handle_failure] on the event object [r]. *)
Definition _handle_failure (r : nat) (error : string) (s : State) : State :=
  let s1 := set_metrics s (incr_failed (_metrics s)) in
  match objects s1 !! r with
  | None => s1
  | Some event =>
      if (retry_count event <? max_retries event)%Z then
        let event' := bump event in
        let s2 := set_objects s1 (<[r := event']> (objects s1)) in
        let s3 := set_metrics s2 (incr_retried (_metrics s2)) in
        let delay := backoff (config s3) event' in
        let s4 := add_sleep s3 delay in
        match put_nowait r s4 with
        | Some s5 => s5
        | None => set_metrics s4 (incr_dropped (_metrics s4))
        end
      else s1
  end.

(** One iteration of the [for handler in handlers] loop of
    [_process_event].  A coroutine function is awaited under the time-out
    and any other callable is called directly; both happen inside the same
    [try], so the three outcomes are told apart in the same way. *)
Definition run_handler (r : nat) (handler : Handler) (s : State) : State :=
  match objects s !! r with
  | None => s
  | Some event =>
      let k := length (invocations s) in
      let s1 := add_invocation s (mkInvocation (h_id handler) r event) in
      match h_run handler k event with
      | Completed => set_metrics s1 (incr_processed (_metrics s1))
      | TimedOut => _handle_failure r "timeout" s1
      | Failed msg => _handle_failure r msg s1
      end
  end.

(** [_process_event].  The handler list is read once, before the loop. *)
Definition _process_event (r : nat) (s : State) : State :=
  match objects s !! r with
  | None => s
  | Some event =>
      let handlers := _handlers s (event_type event) in
      foldl (fun acc handler => run_handler r handler acc) s handlers
  end.

(** One iteration of [_worker_loop]: when the queue is empty the wait times
    out and the loop continues; otherwise the smallest entry is taken and
    processed.  The iteration is taken to its end: every call it makes
    returns, times out or raises.  A call that is still suspended, or that
    [stop] cancels, is not described. *)
Definition worker_step (s : State) : State :=
  if _running s then
    match get_nowait s with
    | Some (r, s1) => _process_event r s1
    | None => s
    end
  else s.

(** [_worker_loop]: [n] iterations of a worker, one after the other.  This
    is the run of a single worker; iterations of several workers follow one
    another like this only when nothing in them awaits. *)
Fixpoint _worker_loop (n : nat) (s : State) : State :=
  match n with
  | O => s
  | S n' => _worker_loop n' (worker_step s)
  end.

Definition get_metrics (s : State) : Metrics := _metrics s.
Definition get_queue_size (s : State) : nat := length (_queue s).

(** *** Vocabulary for the statements *)

Definition is_Completed (o : HandlerOutcome) : bool :=
  match o with Completed => true | _ => false end.

(** A handler that fails whenever and on whatever it is called. *)
Definition always_fails (h : Handler) : Prop :=
  forall k e, h_run h k e <> Completed.

(** The trace of calls, reduced to which handler ran on which event
    object. *)
Definition call_ids (calls : list Invocation) : list (nat * nat) :=
  map (fun i => (inv_handler i, inv_ref i)) calls.

(** The rank that [ref_lt] follows: the ordinal of the priority of the
    event referred to. *)
Definition rank_of (objs : list Event) (r : nat) : Z :=
  match objs !! r with
  | Some e => priority_value (priority e)
  | None => 0%Z
  end.

(** The queue is a heap of references to events of the store. *)
Definition queue_ok (s : State) : Prop :=
  Heapq.heap_ordered (rank_of (objects s)) (_queue s) /\
  forall r, r ∈ _queue s -> r < length (objects s).

(** What can happen to an event loop: a call of its interface, or one
    iteration of a worker. *)
Inductive Op : Type :=
  | OpRegisterHandler (ty : EventType) (h : Handler)
  | OpEmit (ty : EventType) (d : PyVal) (p : EventPriority) (now : Z) (eid : string)
  | OpStart
  | OpStop
  | OpWorkerStep.

Definition step (op : Op) (s : State) : State :=
  match op with
  | OpRegisterHandler ty h => register_handler ty h s
  | OpEmit ty d p now eid => snd (emit ty d p now eid s)
  | OpStart => start s
  | OpStop => stop s
  | OpWorkerStep => worker_step s
  end.

Definition run (ops : list Op) (s : State) : State :=
  foldl (fun acc op => step op acc) s ops.

(** *** Some loops *)

(** A queue with a single slot. *)
Definition one_slot : State := init (mkConfig 1 1 30 1 60).

(** The handler that fails on every call, a running loop that has it as the
    only handler for calls, and one call event submitted to it. *)
Definition broken_handler : Handler := mkHandler 7 true (fun _ _ => Failed "boom").

Definition failing_call : State :=
  snd (emit CALL PyNone NORMAL 0 "evt_1"
         (register_handler CALL broken_handler (start (init default_config)))).

(** The same with an event built with [max_retries=2]. *)
Definition failing_call_two : State :=
  set_objects failing_call [mkEvent CALL PyNone NORMAL 0 0 2 "evt_1"].

(** A running loop with one handler for calls and one for memory checks. *)
Definition two_handlers : State :=
  register_handler MEMORY (mkHandler 2 true (fun _ _ => Completed))
    (register_handler CALL (mkHandler 1 true (fun _ _ => Completed))
       (start (init default_config))).

(** The same loop with a single worker. *)
Definition one_worker : State :=
  register_handler MEMORY (mkHandler 2 true (fun _ _ => Completed))
    (register_handler CALL (mkHandler 1 true (fun _ _ => Completed))
       (start (init (mkConfig 1000 1 30 1 60)))).

(** A running loop with two handlers for calls, and a call event in its
    store. *)
Definition two_call_handlers : State :=
  snd (emit CALL PyNone HIGH 0 "evt_1"
         (register_handler CALL (mkHandler 2 false (fun _ _ => Completed))
            (register_handler CALL (mkHandler 1 true (fun _ _ => Completed))
               (start (init default_config))))).

(** *** Invariants of the loop *)

(** The counters agree with the traces: every handler call ended up in
    [processed] or in [failed], and every retry slept once. *)
Definition counters_ok (s : State) : Prop :=
  (processed (_metrics s) + failed (_metrics s) = Z.of_nat (length (invocations s)))%Z /\
  retried (_metrics s) = Z.of_nat (length (sleeps s)) /\
  (retried (_metrics s) <= failed (_metrics s))%Z /\
  (0 <= processed (_metrics s))%Z /\
  (0 <= dropped (_metrics s))%Z.

(** A bounded queue holds at most [max_queue_size] entries. *)
Definition within_capacity (s : State) : Prop :=
  (0 < max_queue_size (config s))%Z ->
  (Z.of_nat (length (_queue s)) <= max_queue_size (config s))%Z.

(** Every event of the store was built by [emit] and has been retried at
    most [max_retries] times. *)
Definition retries_ok (s : State) : Prop :=
  forall r e, objects s !! r = Some e ->
    max_retries e = 3%Z /\ (0 <= retry_count e <= max_retries e)%Z.

(** The worker tasks are those of the last [start], if any. *)
Definition workers_ok (s : State) : Prop :=
  _workers s = if _running s then worker_count (config s) else 0.

Definition loop_inv (s : State) : Prop :=
  counters_ok s /\ within_capacity s /\ retries_ok s /\ workers_ok s.

(** The delay before the [k]-th retry of an event. *)
Definition retry_delay (cfg : EventLoopConfig) (k : Z) : Q :=
  Qmin (retry_delay_seconds cfg * pow2 (k - 1)) (max_retry_delay_seconds cfg).

(** Every back-off sleep made so far was the one before a first, second or
    third retry. *)
Definition sleeps_ok (s : State) : Prop :=
  Forall (fun d => exists k, (1 <= k <= 3)%Z /\ d = retry_delay (config s) k) (sleeps s).

(** [e'] is [e] at a later time: nothing but the retry count has changed,
    and that has not gone down. *)
Definition later_event (e e' : Event) : Prop :=
  event_type e' = event_type e /\ data e' = data e /\ priority e' = priority e /\
  timestamp e' = timestamp e /\ max_retries e' = max_retries e /\
  event_id e' = event_id e /\ (retry_count e <= retry_count e')%Z.

(** [s'] still has every event object of [s]. *)
Definition keeps_events (s s' : State) : Prop :=
  forall r e, objects s !! r = Some e ->
    exists e', objects s' !! r = Some e' /\ later_event e e'.

(** *** Some histories *)

(** The loop is started, a handler for calls is registered and three events
    are submitted; a worker then runs once. *)
Definition busy_morning : list Op :=
  [OpStart;
   OpRegisterHandler CALL broken_handler;
   OpEmit MEMORY PyNone LOW 1 "evt_1";
   OpEmit CALL PyNone HIGH 2 "evt_2";
   OpEmit TELEGRAM PyNone NORMAL 3 "evt_3";
   OpWorkerStep].

(** Several events of one priority submitted one after the other; an event
    is given by its kind, its payload, its creation time and its
    identifier. *)
Definition emit_all (p : EventPriority) (xs : list (EventType * PyVal * Z * string))
    (s : State) : State :=
  foldl (fun acc x =>
           match x with
           | (ty, d, now, eid) => snd (emit ty d p now eid acc)
           end) s xs.

(** The loop is started and three events are submitted. *)
Definition three_waiting : list Op :=
  [OpStart;
   OpEmit MEMORY PyNone LOW 1 "evt_1";
   OpEmit CALL PyNone HIGH 2 "evt_2";
   OpEmit TELEGRAM PyNone NORMAL 3 "evt_3"].

(** Four messages of the same priority. *)
Definition four_messages : list (EventType * PyVal * Z * string) :=
  [(WHATSAPP, PyObj 1, 10%Z, "evt_a"); (TELEGRAM, PyObj 2, 11%Z, "evt_b");
   (WHATSAPP, PyObj 3, 12%Z, "evt_c"); (TELEGRAM, PyObj 4, 13%Z, "evt_d")].

(** The event [emit] builds. *)
Definition event_of (p : EventPriority) (x : EventType * PyVal * Z * string) : Event :=
  match x with
  | (ty, d, now, eid) => mkEvent ty d p now 0 3 eid
  end.

(** From reference [r0] on, the store holds events of priority [p], and the
    queue holds exactly these, in the order of their creation. *)
Definition tied (p : EventPriority) (r0 : nat) (s : State) : Prop :=
  r0 <= length (objects s) /\
  _queue s = seq r0 (length (objects s) - r0) /\
  forall r e, r0 <= r -> objects s !! r = Some e -> priority e = p.

Ltac unfold_setters :=
  unfold set_queue, add_sleep, set_metrics, set_objects, add_invocation,
    set_handlers, set_running; simpl.

End EventLoop.

(** ** state_manager.py *)
Module StateManager.

Inductive AgentState : Type := IDLE | BUSY | SLEEPING.

#[global] Instance AgentState_eq_dec : EqDecision AgentState.
Proof. solve_decision. Defined.

Definition AgentState_name (st : AgentState) : string :=
  match st with IDLE => "IDLE" | BUSY => "BUSY" | SLEEPING => "SLEEPING" end.

Record StateConfig : Type := mkStateConfig {
  sleep_after_idle_seconds : Q;
  wake_on_event : bool;
  battery_optimization : bool
}.

Definition default_config : StateConfig :=
  {| sleep_after_idle_seconds := 300;
     wake_on_event := true;
     battery_optimization := true |}.

(** A registered callback.  [cb_run arg seen] is what the call
    [callback(arg)] does when the manager's [current_state] reads [seen]
    during the call. *)
Record Callback : Type := mkCallback {
  cb_id : nat;
  cb_is_coroutine : bool;
  cb_run : AgentState -> AgentState -> Outcome unit
}.

(** An entry of the callback trace: which callback was called, with which
    argument, and the [current_state] it could observe. *)
Record CallbackCall : Type := mkCall {
  cc_id : nat;
  cc_arg : AgentState;
  cc_seen : AgentState
}.

(** The life of the [asyncio.Task] running [sleep_after_timeout]: still in
    its [asyncio.sleep], cancelled, or run to completion. *)
Inductive TaskStatus : Type := Pending | Cancelled | Done.

#[global] Instance TaskStatus_eq_dec : EqDecision TaskStatus.
Proof. solve_decision. Defined.

(** The state of a [StateManager].  [tasks] is the store of all sleep tasks
    ever created; [_sleep_task] refers into it.  Times are microseconds. *)
Record State : Type := mkState {
  config : StateConfig;
  _state : AgentState;
  _state_changed_at : Z;
  _last_activity_at : Z;
  _callbacks : AgentState -> list Callback;
  _sleep_task : option nat;
  tasks : list TaskStatus;
  cb_trace : list CallbackCall;
  log : list LogRecord
}.

(** [StateManager.__init__]. *)
Definition init (cfg : StateConfig) (now : Z) : State :=
  {| config := cfg;
     _state := IDLE;
     _state_changed_at := now;
     _last_activity_at := now;
     _callbacks := fun _ => [];
     _sleep_task := None;
     tasks := [];
     cb_trace := [];
     log := [(INFO, "StateManager initialized")] |}.

Definition current_state (s : State) : AgentState := _state s.
Definition is_idle (s : State) : bool := bool_decide (_state s = IDLE).
Definition is_busy (s : State) : bool := bool_decide (_state s = BUSY).
Definition is_sleeping (s : State) : bool := bool_decide (_state s = SLEEPING).
Definition idle_duration (now : Z) (s : State) : Z := (now - _last_activity_at s)%Z.

Definition register_callback (st : AgentState) (callback : Callback) (s : State) : State :=
  mkState (config s) (_state s) (_state_changed_at s) (_last_activity_at s)
    (fun st' => if decide (st' = st) then _callbacks s st' ++ [callback] else _callbacks s st')
    (_sleep_task s) (tasks s) (cb_trace s)
    (log s ++ [(DEBUG, "Registered callback for state " +:+ AgentState_name st)]).

(** One iteration of the loop of [_notify_callbacks]: the callback is
    called (awaited when it is a coroutine function); an exception is
    logged and swallowed. *)
Definition notify_one (st : AgentState) (callback : Callback) (s : State) : State :=
  let call := mkCall (cb_id callback) st (_state s) in
  let log' :=
    match cb_run callback st (_state s) with
    | Returns _ => log s
    | Raises msg => log s ++ [(ERROR, "State callback error: " +:+ msg)]
    end in
  mkState (config s) (_state s) (_state_changed_at s) (_last_activity_at s)
    (_callbacks s) (_sleep_task s) (tasks s) (cb_trace s ++ [call]) log'.

Definition _notify_callbacks (st : AgentState) (s : State) : State :=
  foldl (fun acc callback => notify_one st callback acc) s (_callbacks s st).

(** [Task.cancel]: only a task that has not finished is affected. *)
Definition cancel (t : nat) (ts : list TaskStatus) : list TaskStatus :=
  match ts !! t with
  | Some Pending => <[t := Cancelled]> ts
  | _ => ts
  end.

(** [if self._sleep_task: self._sleep_task.cancel()]: the store of tasks
    afterwards. *)
Definition cancel_sleep_task (s : State) : list TaskStatus :=
  match _sleep_task s with
  | Some t => cancel t (tasks s)
  | None => tasks s
  end.

(** [transition_to]; the whole body runs under [self._lock]. *)
Definition transition_to (new_state : AgentState) (now : Z) (s : State) : State :=
  if decide (_state s = new_state) then s
  else
    let old_state := _state s in
    let last_activity := if decide (new_state = BUSY) then now else _last_activity_at s in
    let tasks' := if decide (new_state = BUSY) then cancel_sleep_task s else tasks s in
    let sleep_task' := if decide (new_state = BUSY) then None else _sleep_task s in
    let s1 :=
      mkState (config s) new_state now last_activity (_callbacks s) sleep_task' tasks'
        (cb_trace s)
        (log s ++ [(INFO, "State transition: " +:+ AgentState_name old_state +:+ " -> "
                            +:+ AgentState_name new_state)]) in
    _notify_callbacks new_state s1.

(** [_schedule_sleep]: the previous task, if any, is cancelled and a new
    one is created; its index in the store is the length of the store. *)
Definition _schedule_sleep (s : State) : State :=
  let tasks1 := cancel_sleep_task s in
  mkState (config s) (_state s) (_state_changed_at s) (_last_activity_at s)
    (_callbacks s) (Some (length tasks1)) (tasks1 ++ [Pending]) (cb_trace s)
    (log s ++ [(DEBUG, "Scheduled sleep")]).

Definition set_busy (now : Z) (s : State) : State := transition_to BUSY now s.

Definition set_idle (now : Z) (s : State) : State :=
  let s1 := transition_to IDLE now s in
  if battery_optimization (config s1) then _schedule_sleep s1 else s1.

Definition set_sleeping (now : Z) (s : State) : State := transition_to SLEEPING now s.

Definition wake_if_sleeping (now : Z) (s : State) : bool * State :=
  if is_sleeping s then (true, set_idle now s) else (false, s).

Definition activity (now : Z) (s : State) : State :=
  let s1 :=
    mkState (config s) (_state s) (_state_changed_at s) now (_callbacks s)
      (_sleep_task s) (tasks s) (cb_trace s) (log s) in
  snd (wake_if_sleeping now s1).

(** The sleep of task [t] elapses: [sleep_after_timeout] goes on to
    [set_sleeping] and the task finishes.  A task that was cancelled, or
    that has already finished, does nothing. *)
Definition timer_fires (t : nat) (now : Z) (s : State) : State :=
  match tasks s !! t with
  | Some Pending =>
      let s1 := set_sleeping now s in
      mkState (config s1) (_state s1) (_state_changed_at s1) (_last_activity_at s1)
        (_callbacks s1) (_sleep_task s1) (<[t := Done]> (tasks s1)) (cb_trace s1) (log s1)
  | _ => s
  end.

(** What can happen to a state manager, one call or one timer at a time. *)
Inductive Op : Type :=
  | OpRegisterCallback (st : AgentState) (callback : Callback)
  | OpTransitionTo (st : AgentState)
  | OpSetBusy
  | OpSetIdle
  | OpSetSleeping
  | OpWakeIfSleeping
  | OpActivity
  | OpTimerFires (t : nat).

Definition step (op : Op) (now : Z) (s : State) : State :=
  match op with
  | OpRegisterCallback st callback => register_callback st callback s
  | OpTransitionTo st => transition_to st now s
  | OpSetBusy => set_busy now s
  | OpSetIdle => set_idle now s
  | OpSetSleeping => set_sleeping now s
  | OpWakeIfSleeping => snd (wake_if_sleeping now s)
  | OpActivity => activity now s
  | OpTimerFires t => timer_fires t now s
  end.

(** A history: operations with the time at which each one happens. *)
Fixpoint run (ops : list (Op * Z)) (s : State) : State :=
  match ops with
  | [] => s
  | (op, now) :: ops' => run ops' (step op now s)
  end.

Definition is_timer_of (t : nat) (op : Op * Z) : bool :=
  match fst op with
  | OpTimerFires t' => Nat.eqb t t'
  | _ => false
  end.

(** *** Vocabulary for the statements *)

(** No sleep task is still waiting for its timer. *)
Definition no_pending (s : State) : Prop :=
  forall t, tasks s !! t <> Some Pending.

(** The invariant: the only task that can still be sleeping is the one
    [_sleep_task] refers to, and there is none while the state is BUSY. *)
Definition sleep_task_inv (s : State) : Prop :=
  (forall t, tasks s !! t = Some Pending -> _sleep_task s = Some t) /\
  (_state s = BUSY -> _sleep_task s = None).

(** A task that has not run to completion: still sleeping, or cancelled. *)
Definition unfired (t : nat) (ts : list TaskStatus) : Prop :=
  ts !! t = Some Pending \/ ts !! t = Some Cancelled.

(** *** Some managers and histories *)

(** Callbacks for each state; the first one for BUSY raises. *)
Definition watched : State :=
  register_callback BUSY (mkCallback 3 false (fun _ _ => Returns tt))
    (register_callback BUSY (mkCallback 2 true (fun _ _ => Raises "boom"))
       (register_callback SLEEPING (mkCallback 1 true (fun _ _ => Returns tt))
          (register_callback IDLE (mkCallback 0 true (fun _ _ => Returns tt))
             (init default_config 0)))).

(** A manager that was busy once; while it is idle it is set idle again
    and sees some activity. *)
Definition earlier : list (Op * Z) := [(OpSetBusy, 5%Z)].
Definition meanwhile : list (Op * Z) := [(OpSetIdle, 20%Z); (OpActivity, 30%Z)].

(** A manager configured without battery optimisation. *)
Definition always_on : StateConfig :=
  {| sleep_after_idle_seconds := 300;
     wake_on_event := true;
     battery_optimization := false |}.

(** A day in which the manager is set idle twice; the timer of the first idle
    period elapses after it was replaced. *)
Definition restless : list (Op * Z) :=
  [(OpSetIdle, 10%Z); (OpActivity, 20%Z); (OpSetIdle, 30%Z); (OpTimerFires 0, 310%Z)].

(** The same day, until the timer of the second idle period elapses. *)
Definition asleep : list (Op * Z) := restless ++ [(OpTimerFires 1, 330%Z)].

(** The calls [activity()] at the given times, one after the other. *)
Definition activities (nows : list Z) (s : State) : State :=
  foldl (fun acc now => activity now acc) s nows.

End StateManager.

(** ** memory_manager.py *)
Module MemoryManager.

(** Times and durations are microseconds, the resolution of [datetime]. *)
Record MemoryConfig : Type := mkMemoryConfig {
  unload_after_idle_seconds : Z;
  memory_check_interval_seconds : Z;
  memory_threshold_percent : Z;
  gc_threshold_mb : Z
}.

Definition default_config : MemoryConfig :=
  {| unload_after_idle_seconds := 300 * 1000000;
     memory_check_interval_seconds := 60 * 1000000;
     memory_threshold_percent := 85;
     gc_threshold_mb := 100 |}.

(** Calls that leave the module, in the order they are made. *)
Inductive Effect : Type :=
  | FactoryCall (name : string)
  | UnloadCall (name : string) (instance : PyVal)
  | GcCollect.

#[global] Instance Effect_eq_dec : EqDecision Effect.
Proof. solve_decision. Defined.

(** What the module does to the outside: the calls it makes and the
    records it logs. *)
Record World : Type := mkWorld {
  effects : list Effect;
  log : list LogRecord
}.

Definition add_effect (e : Effect) (w : World) : World :=
  mkWorld (effects w ++ [e]) (log w).
Definition add_log (lvl : LogLevel) (msg : string) (w : World) : World :=
  mkWorld (effects w) (log w ++ [(lvl, msg)]).

(** A factory and an unload callback; the first argument is the number of
    calls the module has made before this one, so that a factory may return
    a new object each time or fail once and succeed later. *)
Definition Factory : Type := nat -> Outcome PyVal.
Definition UnloadCallback : Type := nat -> PyVal -> Outcome unit.

Record ComponentRef : Type := mkComponentRef {
  name : string;
  _factory : Factory;
  _unload_callback : option UnloadCallback;
  _instance : PyVal;
  _last_accessed : option Z;
  _access_count : Z;
  _loaded_at : option Z
}.

(** [ComponentRef.__init__]. *)
Definition new_component (name0 : string) (factory : Factory)
    (unload_callback : option UnloadCallback) : ComponentRef :=
  mkComponentRef name0 factory unload_callback PyNone None 0 None.

Definition is_loaded (c : ComponentRef) : bool := is_not_None (_instance c).

(** The value of [idle_duration]: a number of microseconds or
    [float('inf')]. *)
Inductive Duration : Type :=
  | Finite (us : Z)
  | Inf.

Definition idle_duration (now : Z) (c : ComponentRef) : Duration :=
  match _last_accessed c with
  | None => Inf
  | Some t => Finite (now - t)
  end.

(** [d > threshold]. *)
Definition Duration_gt (d : Duration) (threshold : Z) : bool :=
  match d with
  | Finite us => (threshold <? us)%Z
  | Inf => true
  end.

(** The last two assignments of [load]:
    [_last_accessed = now; _access_count += 1]. *)
Definition touched (now : Z) (c : ComponentRef) : ComponentRef :=
  mkComponentRef (name c) (_factory c) (_unload_callback c) (_instance c)
    (Some now) (_access_count c + 1) (_loaded_at c).

(** [self._instance = None]. *)
Definition cleared (c : ComponentRef) : ComponentRef :=
  mkComponentRef (name c) (_factory c) (_unload_callback c) PyNone
    (_last_accessed c) (_access_count c) (_loaded_at c).

(** [ComponentRef.load].  When the factory raises, the exception leaves
    [load] before any field is written. *)
Definition load (now : Z) (c : ComponentRef) (w : World)
    : Outcome PyVal * ComponentRef * World :=
  match _instance c with
  | PyNone =>
      let w1 := add_log INFO ("Loading component: " +:+ name c) w in
      let k := length (effects w1) in
      let w2 := add_effect (FactoryCall (name c)) w1 in
      match _factory c k with
      | Raises msg => (Raises msg, c, w2)
      | Returns v =>
          let c1 :=
            mkComponentRef (name c) (_factory c) (_unload_callback c) v
              (_last_accessed c) (_access_count c) (Some now) in
          let w3 := add_log INFO ("Component " +:+ name c +:+ " loaded") w2 in
          let c2 := touched now c1 in
          (Returns (_instance c2), c2, w3)
      end
  | PyObj _ =>
      let c2 := touched now c in
      (Returns (_instance c2), c2, w)
  end.

(** [ComponentRef.unload]. *)
Definition unload (c : ComponentRef) (w : World) : ComponentRef * World :=
  match _instance c with
  | PyNone => (c, w)
  | PyObj _ =>
      let w1 := add_log INFO ("Unloading component: " +:+ name c) w in
      let w2 :=
        match _unload_callback c with
        | Some callback =>
            let k := length (effects w1) in
            let w1' := add_effect (UnloadCall (name c) (_instance c)) w1 in
            match callback k (_instance c) with
            | Returns _ => w1'
            | Raises msg =>
                add_log ERROR ("Error unloading " +:+ name c +:+ ": " +:+ msg) w1'
            end
        | None => w1
        end in
      let c1 := cleared c in
      let w3 := add_effect GcCollect w2 in
      (c1, add_log INFO ("Component " +:+ name c +:+ " unloaded") w3)
  end.

(** What the call of an unload callback can do: end as an [Outcome] says,
    or raise an exception that is not derived from [Exception], such as
    [asyncio.CancelledError], [KeyboardInterrupt] or [SystemExit]. *)
Inductive Disposal : Type :=
  | Ends (o : Outcome unit)
  | Escapes (msg : string).

(** [ComponentRef.unload] once more, for a callback that may also raise
    past the [except Exception]: [dispose k instance] is what the call
    [self._unload_callback(self._instance)] does.  The first component of
    the result says how [unload] itself ends; with a callback that ends,
    this is [unload]. *)
Definition unload_disposing (dispose : nat -> PyVal -> Disposal)
    (c : ComponentRef) (w : World) : Outcome unit * ComponentRef * World :=
  match _instance c with
  | PyNone => (Returns tt, c, w)
  | PyObj _ =>
      let w1 := add_log INFO ("Unloading component: " +:+ name c) w in
      let finish (w2 : World) :=
        (Returns tt, cleared c,
         add_log INFO ("Component " +:+ name c +:+ " unloaded") (add_effect GcCollect w2)) in
      match _unload_callback c with
      | Some _ =>
          let k := length (effects w1) in
          let w1' := add_effect (UnloadCall (name c) (_instance c)) w1 in
          match dispose k (_instance c) with
          | Ends (Returns _) => finish w1'
          | Ends (Raises msg) =>
              finish (add_log ERROR ("Error unloading " +:+ name c +:+ ": " +:+ msg) w1')
          | Escapes msg => (Raises msg, c, w1')
          end
      | None => finish w1
      end
  end.

(** The [dict] of components, in insertion order. *)
Abbreviation Components := (list (string * ComponentRef)).

Fixpoint dict_get (d : Components) (key : string) : option ComponentRef :=
  match d with
  | [] => None
  | (k, c) :: d' => if decide (k = key) then Some c else dict_get d' key
  end.

(** [d[key] = c]: an existing key keeps its place, a new one goes last. *)
Fixpoint dict_set (d : Components) (key : string) (c : ComponentRef) : Components :=
  match d with
  | [] => [(key, c)]
  | (k, c0) :: d' =>
      if decide (k = key) then (k, c) :: d' else (k, c0) :: dict_set d' key c
  end.

Definition keys (d : Components) : list string := map fst d.

Record State : Type := mkState {
  config : MemoryConfig;
  _components : Components;
  _last_gc_at : option Z;
  world : World
}.

(** [MemoryManager.__init__]. *)
Definition init (cfg : MemoryConfig) : State :=
  {| config := cfg;
     _components := [];
     _last_gc_at := None;
     world := mkWorld [] [(INFO, "MemoryManager initialized")] |}.

Definition register_component (name0 : string) (factory : Factory)
    (unload_callback : option UnloadCallback) (s : State) : ComponentRef * State :=
  let w1 :=
    match dict_get (_components s) name0 with
    | Some _ =>
        add_log WARNING ("Component " +:+ name0 +:+ " already registered, overwriting")
          (world s)
    | None => world s
    end in
  let component := new_component name0 factory unload_callback in
  (component,
   mkState (config s) (dict_set (_components s) name0 component) (_last_gc_at s)
     (add_log INFO ("Registered component: " +:+ name0) w1)).

(** [get_component].  The result is what the caller receives: a returned
    value (possibly [None]) or an exception. *)
Definition get_component (name0 : string) (now : Z) (s : State)
    : Outcome PyVal * State :=
  match dict_get (_components s) name0 with
  | None =>
      (Returns PyNone,
       mkState (config s) (_components s) (_last_gc_at s)
         (add_log ERROR ("Component " +:+ name0 +:+ " not registered") (world s)))
  | Some component =>
      let '(res, component', w') := load now component (world s) in
      (res, mkState (config s) (dict_set (_components s) name0 component')
              (_last_gc_at s) w')
  end.

Definition unload_component (name0 : string) (s : State) : bool * State :=
  match dict_get (_components s) name0 with
  | None => (false, s)
  | Some component =>
      let '(component', w') := unload component (world s) in
      (true, mkState (config s) (dict_set (_components s) name0 component')
               (_last_gc_at s) w')
  end.

(** The test of the sweep:
    [component.is_loaded and component.idle_duration > threshold]. *)
Definition is_idle (now threshold : Z) (c : ComponentRef) : bool :=
  is_loaded c && Duration_gt (idle_duration now c) threshold.

(** The loop of [unload_idle_components] over [self._components.items()].
    The sweep is synchronous; the clock reads [now] throughout. *)
Fixpoint sweep (now threshold : Z) (items : Components) (w : World)
    : list string * Components * World :=
  match items with
  | [] => ([], [], w)
  | (name0, component) :: rest =>
      if is_idle now threshold component then
        let '(component', w1) := unload component w in
        let '(unloaded, rest', w2) := sweep now threshold rest w1 in
        (name0 :: unloaded, (name0, component') :: rest', w2)
      else
        let '(unloaded, rest', w2) := sweep now threshold rest w in
        (unloaded, (name0, component) :: rest', w2)
  end.

Definition unload_idle_components (now : Z) (s : State) : list string * State :=
  let threshold := unload_after_idle_seconds (config s) in
  let '(unloaded, components', w1) := sweep now threshold (_components s) (world s) in
  let w2 :=
    match unloaded with
    | [] => w1
    | _ => add_log INFO "Unloaded idle components" w1
    end in
  (unloaded, mkState (config s) components' (_last_gc_at s) w2).

(** The loop of [unload_all] over [self._components.values()]. *)
Fixpoint unload_each (items : Components) (w : World) : Components * World :=
  match items with
  | [] => ([], w)
  | (name0, component) :: rest =>
      let '(component', w1) := unload component w in
      let '(rest', w2) := unload_each rest w1 in
      ((name0, component') :: rest', w2)
  end.

Definition unload_all (s : State) : State :=
  let '(components', w1) := unload_each (_components s) (world s) in
  mkState (config s) components' (_last_gc_at s) (add_log INFO "All components unloaded" w1).

(** [n] is the number of entries of [times]: one [get_component] per entry,
    with nothing else in between.  The results are listed in call order. *)
Fixpoint get_many (name0 : string) (times : list Z) (s : State)
    : list (Outcome PyVal) * State :=
  match times with
  | [] => ([], s)
  | now :: times' =>
      let '(res, s1) := get_component name0 now s in
      let '(ress, s2) := get_many name0 times' s1 in
      (res :: ress, s2)
  end.

(** How many times the factory of component [name0] was called. *)
Definition factory_calls (name0 : string) (w : World) : nat :=
  length (filter (fun e => e = FactoryCall name0) (effects w)).

(** *** Some components and managers *)

(** A loaded component whose unload callback raises. *)
Definition stubborn : ComponentRef :=
  mkComponentRef "voice" (fun k => Returns (PyObj k))
    (Some (fun _ _ => Raises "device busy")) (PyObj 4) (Some 10%Z) 1 (Some 10%Z).

(** A fresh manager with a component whose factory returns a new object
    on every call. *)
Definition with_brain : State :=
  snd (register_component "brain" (fun k => Returns (PyObj k)) None (init default_config)).

(** A manager with two components; "brain" is used at time 0 and "voice"
    at 200 s. *)
Definition brain_and_voice : State :=
  snd (get_component "voice" 200000000
         (snd (get_component "brain" 0
                 (snd (register_component "voice" (fun k => Returns (PyObj k)) None
                         with_brain))))).

(** *** Monitoring *)

(** What [psutil] reports when [get_memory_usage] asks. *)
Record Reading : Type := mkReading {
  rss_mb : Q;
  vms_mb : Q;
  percent : Q;
  system_percent : Q;
  available_mb : Q
}.

(** A [MemoryManager] with the peak it has recorded. *)
Record Monitored : Type := mkMonitored {
  manager : State;
  _peak_memory_mb : Q
}.

Definition init_monitored (cfg : MemoryConfig) : Monitored :=
  mkMonitored (init cfg) 0.

(** The dictionary [get_memory_usage] returns: the reading and the peak. *)
Definition get_memory_usage (r : Reading) (m : Monitored) : Reading * Q :=
  (r, _peak_memory_mb m).

Definition add_world_log (lvl : LogLevel) (msg : string) (s : State) : State :=
  mkState (config s) (_components s) (_last_gc_at s) (add_log lvl msg (world s)).

(** [time_since_gc < 30], in microseconds. *)
Definition too_soon (now : Z) (s : State) : bool :=
  match _last_gc_at s with
  | Some t => (now - t <? 30 * 1000000)%Z
  | None => false
  end.

(** [_trigger_gc].  The clock is read at [now] for the test and, after the
    collection, at [done] for the record. *)
Definition _trigger_gc (now done : Z) (s : State) : State :=
  if too_soon now s then s
  else
    let w1 := add_log INFO "Triggering garbage collection" (world s) in
    let w2 := add_effect GcCollect w1 in
    mkState (config s) (_components s) (Some done) (add_log INFO "GC complete" w2).

(** [_check_memory]: [r] is the reading taken first, [now] the time of the
    sweep. *)
Definition _check_memory (r : Reading) (now now_gc done : Z) (m : Monitored) : Monitored :=
  let memory := fst (get_memory_usage r m) in
  let peak :=
    if Qlt_le_dec (_peak_memory_mb m) (rss_mb memory) then rss_mb memory
    else _peak_memory_mb m in
  let s1 := add_world_log DEBUG "Memory" (manager m) in
  let s2 := snd (unload_idle_components now s1) in
  let s3 :=
    if Qlt_le_dec (inject_Z (memory_threshold_percent (config s2))) (system_percent memory)
    then _trigger_gc now_gc done (add_world_log WARNING "High memory usage detected" s2)
    else s2 in
  mkMonitored s3 peak.

(** *** Histories *)

(** What can happen to a memory manager, one call at a time. *)
Inductive Op : Type :=
  | OpRegisterComponent (name0 : string) (factory : Factory)
      (unload_callback : option UnloadCallback)
  | OpGetComponent (name0 : string)
  | OpUnloadComponent (name0 : string)
  | OpUnloadIdleComponents
  | OpUnloadAll
  | OpCheckMemory (r : Reading) (now_gc done : Z).

Definition on_manager (f : State -> State) (m : Monitored) : Monitored :=
  mkMonitored (f (manager m)) (_peak_memory_mb m).

Definition step (op : Op) (now : Z) (m : Monitored) : Monitored :=
  match op with
  | OpRegisterComponent name0 factory unload_callback =>
      on_manager (fun s => snd (register_component name0 factory unload_callback s)) m
  | OpGetComponent name0 => on_manager (fun s => snd (get_component name0 now s)) m
  | OpUnloadComponent name0 => on_manager (fun s => snd (unload_component name0 s)) m
  | OpUnloadIdleComponents => on_manager (fun s => snd (unload_idle_components now s)) m
  | OpUnloadAll => on_manager unload_all m
  | OpCheckMemory r now_gc done => _check_memory r now now_gc done m
  end.

(** A history: operations with the time at which each one happens. *)
Fixpoint run (ops : list (Op * Z)) (m : Monitored) : Monitored :=
  match ops with
  | [] => m
  | (op, now) :: ops' => run ops' (step op now m)
  end.

Definition is_check (op : Op * Z) : bool :=
  match fst op with
  | OpCheckMemory _ _ _ => true
  | _ => false
  end.

(** *** Vocabulary for the statements *)

(** What holds of every component of a manager however it was used. *)
Definition component_ok (key : string) (c : ComponentRef) : Prop :=
  name c = key /\
  (0 <= _access_count c)%Z /\
  (_last_accessed c = None <-> _access_count c = 0%Z) /\
  (_loaded_at c = None -> _last_accessed c = None) /\
  (is_loaded c = true -> exists t t', _last_accessed c = Some t /\ _loaded_at c = Some t').

Definition components_ok (d : Components) : Prop :=
  NoDup (keys d) /\ forall key c, (key, c) ∈ d -> component_ok key c.

(** The calls [unload] makes for a loaded component. *)
Definition unload_effects (c : ComponentRef) : list Effect :=
  match _unload_callback c with
  | Some _ => [UnloadCall (name c) (_instance c)]
  | None => []
  end ++ [GcCollect].

(** How often [gc.collect] was called. *)
Definition collections (w : World) : nat :=
  length (filter (fun e => e = GcCollect) (effects w)).

(** *** More managers *)

(** A factory that fails the first time it is called and returns a new
    object from then on. *)
Definition flaky : Factory :=
  fun k => match k with 0 => Raises "out of memory" | S _ => Returns (PyObj k) end.

Definition with_flaky : State :=
  snd (register_component "voice" flaky None (init default_config)).

(** A factory that returns [None]. *)
Definition with_nothing : State :=
  snd (register_component "brain" (fun _ => Returns PyNone) None (init default_config)).

(** A morning: two components are registered and used, one is registered
    again, the monitor checks twice, one is used again. *)
Definition quiet : Reading := mkReading 120 900 2 40 3000.
Definition tight : Reading := mkReading 180 900 3 91 300.

Definition morning : list (Op * Z) :=
  [(OpRegisterComponent "brain" (fun k => Returns (PyObj k)) None, 0%Z);
   (OpRegisterComponent "voice" (fun k => Returns (PyObj k))
      (Some (fun _ _ => Returns tt)), 1%Z);
   (OpGetComponent "brain", 2000000%Z);
   (OpGetComponent "voice", 3000000%Z);
   (OpCheckMemory tight 60000000 60000001, 60000000%Z);
   (OpGetComponent "ears", 61000000%Z);
   (OpRegisterComponent "brain" (fun k => Returns (PyObj k)) None, 62000000%Z);
   (OpCheckMemory quiet 400000000 400000001, 400000000%Z);
   (OpGetComponent "voice", 401000000%Z)].

End MemoryManager.

(** * daemon.py *)
Module Daemon.

Record DaemonConfig : Type := mkDaemonConfig {
  call_poll_interval_ms : Q;
  whatsapp_poll_interval_ms : Q;
  telegram_poll_interval_ms : Q;
  memory_check_interval_ms : Q;
  shutdown_timeout_seconds : Q
}.

Definition default_config : DaemonConfig :=
  {| call_poll_interval_ms := 500;
     whatsapp_poll_interval_ms := 5000;
     telegram_poll_interval_ms := 500;
     memory_check_interval_ms := 60000;
     shutdown_timeout_seconds := 30 |}.

(** The daemon with its three subsystems.  [_monitoring_task] says whether
    the memory manager holds a monitoring task, and [handling] how many
    handlers are suspended in their [asyncio.sleep(0.1)]. *)
Record State : Type := mkState {
  config : DaemonConfig;
  state_manager : StateManager.State;
  memory_manager : MemoryManager.Monitored;
  _monitoring_task : bool;
  event_loop : EventLoop.State;
  _running : bool;
  _shutdown_requested : bool;
  _startup_time : option Z;
  handling : nat;
  log : list LogRecord
}.

(** [AgentDaemon.__init__]. *)
Definition init (cfg : DaemonConfig) (state_config : StateManager.StateConfig)
    (memory_config : MemoryManager.MemoryConfig) (event_config : EventLoop.EventLoopConfig)
    (now : Z) : State :=
  {| config := cfg;
     state_manager := StateManager.init state_config now;
     memory_manager := MemoryManager.init_monitored memory_config;
     _monitoring_task := false;
     event_loop := EventLoop.init event_config;
     _running := false;
     _shutdown_requested := false;
     _startup_time := None;
     handling := 0;
     log := [(INFO, "AgentDaemon initialized")] |}.

Definition set_state_manager (d : State) (sm : StateManager.State) : State :=
  mkState (config d) sm (memory_manager d) (_monitoring_task d) (event_loop d)
    (_running d) (_shutdown_requested d) (_startup_time d) (handling d) (log d).
Definition set_memory_manager (d : State) (mm : MemoryManager.Monitored) : State :=
  mkState (config d) (state_manager d) mm (_monitoring_task d) (event_loop d)
    (_running d) (_shutdown_requested d) (_startup_time d) (handling d) (log d).
Definition set_handling (d : State) (n : nat) : State :=
  mkState (config d) (state_manager d) (memory_manager d) (_monitoring_task d) (event_loop d)
    (_running d) (_shutdown_requested d) (_startup_time d) n (log d).
Definition add_log (lvl : LogLevel) (msg : string) (d : State) : State :=
  mkState (config d) (state_manager d) (memory_manager d) (_monitoring_task d) (event_loop d)
    (_running d) (_shutdown_requested d) (_startup_time d) (handling d)
    (log d ++ [(lvl, msg)]).

(** *** The bound methods the daemon registers *)

(** [_on_sleep] and [_on_wake] as the state manager sees them: coroutine
    functions that return.  What [_on_sleep] does to the memory manager is
    [on_sleep] below. *)
Definition _on_sleep : StateManager.Callback :=
  StateManager.mkCallback 0 true (fun _ _ => Returns tt).
Definition _on_wake : StateManager.Callback :=
  StateManager.mkCallback 1 true (fun _ _ => Returns tt).

(** The body of [_on_sleep]: [self.memory_manager.unload_all()]. *)
Definition on_sleep (mm : MemoryManager.Monitored) : MemoryManager.Monitored :=
  MemoryManager.on_manager MemoryManager.unload_all mm.

(** The calls the state manager made are carried out on the memory
    manager, in the order they were made.  Nothing else touches the memory
    manager while the state manager is at work, so this is what the calls
    did when they were made. *)
Definition replay (calls : list StateManager.CallbackCall)
    (mm : MemoryManager.Monitored) : MemoryManager.Monitored :=
  foldl (fun acc call =>
           if Nat.eqb (StateManager.cc_id call) (StateManager.cb_id _on_sleep)
           then on_sleep acc else acc) mm calls.

(** An operation of the state manager, with the daemon's callbacks. *)
Definition with_callbacks (f : StateManager.State -> StateManager.State) (d : State) : State :=
  let sm' := f (state_manager d) in
  let calls :=
    drop (length (StateManager.cb_trace (state_manager d))) (StateManager.cb_trace sm') in
  set_memory_manager (set_state_manager d sm') (replay calls (memory_manager d)).

(** The handlers as the event loop sees them. *)
Definition handler_id (ty : EventLoop.EventType) : nat :=
  match ty with
  | EventLoop.CALL => 2
  | EventLoop.WHATSAPP => 3
  | EventLoop.TELEGRAM => 4
  | EventLoop.MEMORY => 5
  | EventLoop.SYSTEM => 6
  | EventLoop.USER => 7
  end.

Definition handler_of (ty : EventLoop.EventType) : EventLoop.Handler :=
  EventLoop.mkHandler (handler_id ty) true (fun _ _ => EventLoop.Completed).

(** [_register_event_handlers]. *)
Definition _register_event_handlers (el : EventLoop.State) : EventLoop.State :=
  EventLoop.register_handler EventLoop.SYSTEM (handler_of EventLoop.SYSTEM)
    (EventLoop.register_handler EventLoop.MEMORY (handler_of EventLoop.MEMORY)
       (EventLoop.register_handler EventLoop.TELEGRAM (handler_of EventLoop.TELEGRAM)
          (EventLoop.register_handler EventLoop.WHATSAPP (handler_of EventLoop.WHATSAPP)
             (EventLoop.register_handler EventLoop.CALL (handler_of EventLoop.CALL) el)))).

(** [_create_brain] and [_create_voice_engine] return a new dictionary at
    every call; [_unload_brain] and [_unload_voice_engine] return. *)
Definition _create : MemoryManager.Factory := fun k => Returns (PyObj k).
Definition _unload : MemoryManager.UnloadCallback := fun _ _ => Returns tt.

(** [_register_components]. *)
Definition _register_components (s : MemoryManager.State) : MemoryManager.State :=
  snd (MemoryManager.register_component "voice" _create (Some _unload)
         (snd (MemoryManager.register_component "brain" _create (Some _unload) s))).

(** *** Starting and stopping *)

Definition start (now : Z) (d : State) : State :=
  if _running d then add_log WARNING "Daemon already running" d
  else
    let sm :=
      StateManager.register_callback StateManager.IDLE _on_wake
        (StateManager.register_callback StateManager.SLEEPING _on_sleep (state_manager d)) in
    let el := EventLoop.start (_register_event_handlers (event_loop d)) in
    let mm := MemoryManager.on_manager _register_components (memory_manager d) in
    mkState (config d) sm mm true el true (_shutdown_requested d) (Some now) (handling d)
      (log d ++ [(INFO, "Starting AgentDaemon..."); (INFO, "AgentDaemon started successfully")]).

(** [stop].  Stopping the event loop cancels its workers and with them
    the handlers that are suspended. *)
Definition stop (d : State) : State :=
  if _running d then
    let el := EventLoop.stop (event_loop d) in
    let mm := MemoryManager.on_manager MemoryManager.unload_all (memory_manager d) in
    mkState (config d) (state_manager d) mm false el false (_shutdown_requested d)
      (_startup_time d) 0
      (log d ++ [(INFO, "Stopping AgentDaemon..."); (INFO, "AgentDaemon stopped")])
  else d.

Definition _signal_handler (d : State) : State :=
  mkState (config d) (state_manager d) (memory_manager d) (_monitoring_task d) (event_loop d)
    (_running d) true (_startup_time d) (handling d)
    (log d ++ [(INFO, "Shutdown signal received")]).

(** *** The handlers *)

(** The component a handler asks for. *)
Definition component_of (ty : EventLoop.EventType) : option string :=
  match ty with
  | EventLoop.CALL => Some "voice"
  | EventLoop.WHATSAPP | EventLoop.TELEGRAM => Some "brain"
  | _ => None
  end.

(** [_handle_call], [_handle_whatsapp] and [_handle_telegram] up to their
    [asyncio.sleep(0.1)]: [set_busy], then [get_component].  Nothing runs
    in between: the lock of the state manager is free whenever it is asked
    for, since [_on_sleep] and [_on_wake] never await while it is held.  A
    factory that raises ends the handler there. *)
Definition handle_begin (name0 : string) (now : Z) (d : State) : State :=
  let d1 := with_callbacks (StateManager.set_busy now) d in
  let '(res, s) :=
    MemoryManager.get_component name0 now (MemoryManager.manager (memory_manager d1)) in
  let d2 :=
    set_memory_manager d1
      (MemoryManager.mkMonitored s (MemoryManager._peak_memory_mb (memory_manager d1))) in
  match res with
  | Returns _ => set_handling d2 (S (handling d2))
  | Raises _ => d2
  end.

(** The rest of these handlers, after the sleep: [set_idle]. *)
Definition handle_end (now : Z) (d : State) : State :=
  match handling d with
  | 0 => d
  | S n => set_handling (with_callbacks (StateManager.set_idle now) d) n
  end.

(** A handler of the daemon at work on an event of kind [ty]:
    [_handle_memory] and [_handle_system] only read and log. *)
Definition handle (ty : EventLoop.EventType) (now : Z) (d : State) : State :=
  match component_of ty with
  | Some name0 => handle_begin name0 now d
  | None => d
  end.

(** *** Histories *)

(** What can happen to a daemon.  The workers of the event loop decide
    when a handler runs; here a handler may begin on an event of its kind at
    any time once it is registered, which covers every schedule of the
    workers. *)
Inductive Op : Type :=
  | OpStart
  | OpStop
  | OpSignal
  | OpHandle (ty : EventLoop.EventType)
  | OpHandleEnd
  | OpTimerFires (t : nat)
  | OpCheckMemory (r : MemoryManager.Reading) (now_gc done : Z).

Definition step (op : Op) (now : Z) (d : State) : State :=
  match op with
  | OpStart => start now d
  | OpStop => stop d
  | OpSignal => _signal_handler d
  | OpHandle ty =>
      match EventLoop._handlers (event_loop d) ty with
      | [] => d
      | _ :: _ => handle ty now d
      end
  | OpHandleEnd => handle_end now d
  | OpTimerFires t => with_callbacks (StateManager.timer_fires t now) d
  | OpCheckMemory r now_gc done =>
      if _monitoring_task d then
        set_memory_manager d
          (MemoryManager._check_memory r now now_gc done (memory_manager d))
      else d
  end.

Fixpoint run (ops : list (Op * Z)) (d : State) : State :=
  match ops with
  | [] => d
  | (op, now) :: ops' => run ops' (step op now d)
  end.

(** *** Vocabulary for the statements *)

(** No registered name stands for a loaded component. *)
Definition nothing_loaded (mm : MemoryManager.Monitored) : Prop :=
  forall key c,
    MemoryManager.dict_get (MemoryManager._components (MemoryManager.manager mm)) key = Some c ->
    MemoryManager.is_loaded c = false.

(** What holds of a daemon however it was used. *)
Definition daemon_inv (d : State) : Prop :=
  (_startup_time d = None ->
     MemoryManager._components (MemoryManager.manager (memory_manager d)) = [] /\
     (forall ty, EventLoop._handlers (event_loop d) ty = []) /\
     StateManager.tasks (state_manager d) = [] /\
     _monitoring_task d = false /\
     _running d = false /\
     handling d = 0) /\
  (_startup_time d <> None ->
     _on_sleep ∈ StateManager._callbacks (state_manager d) StateManager.SLEEPING) /\
  (StateManager._state (state_manager d) = StateManager.SLEEPING ->
     nothing_loaded (memory_manager d)).

(** Once the daemon was started, its handlers are registered and the
    components they ask for are registered with the daemon's factories. *)
Definition started_inv (d : State) : Prop :=
  _startup_time d <> None ->
  forall ty name0, component_of ty = Some name0 ->
    EventLoop._handlers (event_loop d) ty <> [] /\
    exists c,
      MemoryManager.dict_get (MemoryManager._components (MemoryManager.manager (memory_manager d)))
        name0 = Some c /\
      MemoryManager._factory c = _create.

(** Every component is still registered, with the factory it had. *)
Definition keeps_factories (s s' : MemoryManager.State) : Prop :=
  forall key c,
    MemoryManager.dict_get (MemoryManager._components s) key = Some c ->
    exists c',
      MemoryManager.dict_get (MemoryManager._components s') key = Some c' /\
      MemoryManager._factory c' = MemoryManager._factory c.

(** *** A daemon at work *)

Definition fresh : State :=
  init default_config StateManager.default_config MemoryManager.default_config
    EventLoop.default_config 0.

(** A call and a message are handled, then the agent falls asleep. *)
Definition evening : list (Op * Z) :=
  [(OpStart, 1%Z);
   (OpHandle EventLoop.CALL, 10%Z);
   (OpHandle EventLoop.WHATSAPP, 11%Z);
   (OpHandleEnd, 12%Z);
   (OpHandleEnd, 13%Z);
   (OpTimerFires 1, 300000013%Z)].

(** The daemon is started, stopped and started again. *)
Definition restarted : list (Op * Z) :=
  [(OpStart, 1%Z); (OpStop, 2%Z); (OpStart, 3%Z)].

End Daemon.

(** * Facts about the priority queue *)
Module HeapqFacts.
Import Heapq.
Section HeapqFacts.
Context {A : Type} (lt : A -> A -> bool).
Implicit Types (heap : list A) (x y : A) (pos : nat).

Lemma heappush_nil x : heappush lt [] x = [x].
Proof. reflexivity. Qed.

Lemma heappush_one x y :
  heappush lt [x] y = if lt y x then [y; x] else [x; y].
Proof. unfold heappush, _siftdown; simpl. destruct (lt y x); reflexivity. Qed.

Lemma heappop_nil : heappop lt [] = None.
Proof. reflexivity. Qed.

Lemma heappop_one x : heappop lt [x] = Some (x, []).
Proof. reflexivity. Qed.

Lemma heappop_two x y : heappop lt [x; y] = Some (x, [y]).
Proof. reflexivity. Qed.

(** Writing [x] over an entry [y] trades [y] for [x]. *)
Lemma insert_trade heap pos x y :
  heap !! pos = Some y -> y :: <[pos := x]> heap ≡ₚ x :: heap.
Proof.
  revert pos; induction heap as [|z heap IH]; intros [|pos] Hy; simplify_eq/=.
  - apply perm_swap.
  - rewrite perm_swap, (IH _ Hy). apply perm_swap.
Qed.

(** Exchanging two entries permutes the list. *)
Lemma exchange_perm heap i j x y :
  heap !! i = Some x -> heap !! j = Some y ->
  <[i := y]> (<[j := x]> heap) ≡ₚ heap.
Proof.
  revert i j; induction heap as [|z heap IH]; intros [|i] [|j] Hx Hy; simplify_eq/=.
  - reflexivity.
  - by apply insert_trade.
  - symmetry. rewrite <- (insert_trade heap i y x Hx). reflexivity.
  - f_equiv. by apply IH.
Qed.

Lemma parent_lt pos : 0 < pos -> Nat.shiftr (pos - 1) 1 < pos.
Proof.
  intros Hpos. change (Nat.shiftr (pos - 1) 1) with (Nat.div2 (pos - 1)).
  rewrite Nat.div2_div.
  pose proof (Nat.Div0.div_le_upper_bound (pos - 1) 2 (pos - 1)). lia.
Qed.

(** The loop of [_siftdown] carries a hole at [pos]; filling the hole
    with [newitem] always gives back a rearrangement of the heap. *)
Lemma _siftdown_loop_perm fuel heap startpos pos x heap' pos' :
  pos < length heap ->
  _siftdown_loop lt fuel heap startpos pos x = (heap', pos') ->
  <[pos' := x]> heap' ≡ₚ <[pos := x]> heap.
Proof.
  revert heap pos; induction fuel as [|fuel IH]; intros heap pos Hlen Hloop;
    cbn [_siftdown_loop] in Hloop.
  - by simplify_eq.
  - destruct (Nat.ltb_spec startpos pos) as [Hgt|]; [|by simplify_eq].
    assert (Hpar : Nat.shiftr (pos - 1) 1 < pos) by (apply parent_lt; lia).
    destruct (heap !! Nat.shiftr (pos - 1) 1) as [parent|] eqn:Hparent; [|by simplify_eq].
    destruct (lt x parent); [|by simplify_eq].
    apply IH in Hloop; [|rewrite length_insert; lia].
    rewrite Hloop.
    rewrite <- (list_insert_insert_eq heap pos parent x).
    apply exchange_perm.
    + rewrite list_lookup_insert_ne by lia. exact Hparent.
    + by apply list_lookup_insert_eq.
Qed.

Lemma _siftdown_perm heap startpos pos : _siftdown lt heap startpos pos ≡ₚ heap.
Proof.
  unfold _siftdown. destruct (heap !! pos) as [x|] eqn:Hx; [|reflexivity].
  destruct (_siftdown_loop lt pos heap startpos pos x) as [heap' pos'] eqn:Hloop.
  apply _siftdown_loop_perm in Hloop; [|by eapply lookup_lt_Some].
  rewrite Hloop. by rewrite list_insert_id.
Qed.

Lemma _siftup_loop_perm fuel heap endpos pos x heap' pos' :
  pos < length heap ->
  _siftup_loop lt fuel heap endpos pos = (heap', pos') ->
  pos' < length heap' /\ <[pos' := x]> heap' ≡ₚ <[pos := x]> heap.
Proof.
  revert heap pos; induction fuel as [|fuel IH]; intros heap pos Hlen Hloop;
    cbn [_siftup_loop] in Hloop.
  - by simplify_eq.
  - destruct (Nat.ltb_spec (2 * pos + 1) endpos) as [Hlt|]; [|by simplify_eq].
    set (child :=
      match heap !! (2 * pos + 1), heap !! (2 * pos + 1 + 1) with
      | Some c, Some r =>
          if Nat.ltb (2 * pos + 1 + 1) endpos && negb (lt c r)
          then 2 * pos + 1 + 1 else 2 * pos + 1
      | _, _ => 2 * pos + 1
      end) in *.
    assert (Hchild : pos < child).
    { subst child. repeat case_match; lia. }
    clearbody child.
    destruct (heap !! child) as [c|] eqn:Hc; [|by simplify_eq].
    assert (Hclen : child < length heap) by (by eapply lookup_lt_Some).
    apply IH in Hloop; [|rewrite length_insert; lia].
    destruct Hloop as [Hlen' Hloop]. split; [done|].
    rewrite Hloop.
    rewrite <- (list_insert_insert_eq heap pos c x).
    apply exchange_perm.
    + rewrite list_lookup_insert_ne by lia. exact Hc.
    + by apply list_lookup_insert_eq.
Qed.

Lemma _siftup_perm heap pos : _siftup lt heap pos ≡ₚ heap.
Proof.
  unfold _siftup. destruct (heap !! pos) as [x|] eqn:Hx; [|reflexivity].
  destruct (_siftup_loop lt (length heap) heap (length heap) pos) as [heap' pos'] eqn:Hloop.
  apply (_siftup_loop_perm _ _ _ _ x) in Hloop; [|by eapply lookup_lt_Some].
  rewrite _siftdown_perm. destruct Hloop as [_ ->]. by rewrite list_insert_id.
Qed.

(** [heappush] adds exactly the new item. *)
Lemma heappush_perm heap x : heappush lt heap x ≡ₚ x :: heap.
Proof.
  unfold heappush. rewrite _siftdown_perm. by rewrite Permutation_app_comm.
Qed.

Lemma heappop_None heap : heappop lt heap = None <-> heap = [].
Proof.
  unfold heappop. split; [|by intros ->].
  destruct (last heap) eqn:Hlast; [repeat case_match; done|].
  by apply last_None in Hlast.
Qed.

(** [heappop] removes exactly the item it returns. *)
Lemma heappop_perm heap x rest :
  heappop lt heap = Some (x, rest) -> heap ≡ₚ x :: rest.
Proof.
  unfold heappop. destruct (last heap) as [lastelt|] eqn:Hlast; [|done].
  apply last_Some in Hlast as [front ->]. rewrite removelast_last.
  destruct front as [|returnitem front]; intros ?; simplify_eq.
  - done.
  - rewrite _siftup_perm. simpl. f_equiv. apply Permutation_app_comm.
Qed.
End HeapqFacts.
End HeapqFacts.

(** * The heap stays ordered *)
Module HeapqOrder.
Import Heapq HeapqFacts.
Section HeapqOrder.
Context {A : Type} (lt : A -> A -> bool) (rank : A -> Z).
Implicit Types (heap : list A) (x y : A) (pos : nat).

Lemma parent_spec i : 0 < i -> i = 2 * parent i + 1 \/ i = 2 * parent i + 2.
Proof.
  intros Hi. unfold parent. change (Nat.shiftr (i - 1) 1) with (Nat.div2 (i - 1)).
  rewrite Nat.div2_div.
  pose proof (Nat.div_mod_eq (i - 1) 2) as Hdm.
  pose proof (Nat.mod_upper_bound (i - 1) 2). lia.
Qed.

Lemma parent_child_left p : parent (2 * p + 1) = p.
Proof.
  unfold parent. change (Nat.shiftr ?a 1) with (Nat.div2 a).
  replace (2 * p + 1 - 1) with (2 * p) by lia. apply Nat.div2_double.
Qed.

Lemma parent_child_right p : parent (2 * p + 1 + 1) = p.
Proof.
  unfold parent. change (Nat.shiftr ?a 1) with (Nat.div2 a).
  replace (2 * p + 1 + 1 - 1) with (S (2 * p)) by lia. apply Nat.div2_succ_double.
Qed.

(** Moving the hole: the list with [x] in the new hole is the list with
    [x] in the old hole, two entries exchanged. *)
Lemma exchange_perm_full heap i j x y :
  i < length heap -> i <> j -> heap !! j = Some y ->
  <[j := x]> (<[i := y]> heap) ≡ₚ <[i := x]> heap.
Proof.
  intros Hi Hij Hj.
  rewrite <- (list_insert_insert_eq heap i y x).
  apply exchange_perm.
  - by rewrite list_lookup_insert_ne.
  - by apply list_lookup_insert_eq.
Qed.

(** The root of an ordered heap is a smallest entry. *)
Lemma heap_ordered_root heap r :
  heap_ordered rank heap -> heap !! 0 = Some r ->
  forall i x, heap !! i = Some x -> (rank r <= rank x)%Z.
Proof.
  intros Hord Hr i. induction i as [i IH] using lt_wf_ind. intros x Hx.
  destruct (decide (i = 0)) as [->|Hne]; [by simplify_eq|].
  assert (Hpar : parent i < i) by (destruct (parent_spec i); lia).
  destruct (lookup_lt_is_Some_2 heap (parent i)) as [p Hp].
  { apply lookup_lt_Some in Hx. lia. }
  pose proof (IH _ Hpar p Hp). pose proof (Hord i x p ltac:(lia) Hx Hp). lia.
Qed.

(** When the loop of [_siftdown] stops, filling the hole with [x] gives an
    ordered heap. *)
Lemma _siftdown_loop_ordered fuel : forall heap pos x heap' pos',
  pos <= fuel ->
  hole_up rank heap pos x ->
  ranked lt rank (<[pos := x]> heap) ->
  _siftdown_loop lt fuel heap 0 pos x = (heap', pos') ->
  heap_ordered rank (<[pos' := x]> heap').
Proof.
  induction fuel as [|fuel IH]; intros heap pos x heap' pos' Hfuel (Hlen & Hup & Hgrand) Hrk Hloop;
    cbn [_siftdown_loop] in Hloop.
  - simplify_eq. assert (pos' = 0) as -> by lia.
    intros i c p Hi Hc Hp. by apply (Hup i c p); [lia..| |].
  - destruct (Nat.ltb_spec 0 pos) as [Hpos|Hpos].
    2:{ simplify_eq. assert (pos' = 0) as -> by lia.
        intros i c p Hi Hc Hp. by apply (Hup i c p); [lia..| |]. }
    fold (parent pos) in Hloop.
    assert (Hpar : parent pos < pos) by (destruct (parent_spec pos); lia).
    destruct (heap !! parent pos) as [par|] eqn:Hparent.
    2:{ apply lookup_ge_None in Hparent. lia. }
    assert (HLpar : <[pos := x]> heap !! parent pos = Some par).
    { rewrite list_lookup_insert_ne by lia. done. }
    assert (HLpos : <[pos := x]> heap !! pos = Some x) by by apply list_lookup_insert_eq.
    assert (Hlt : lt x par = (rank x <? rank par)%Z).
    { apply Hrk; eapply list_elem_of_lookup_2; eauto. }
    rewrite Hlt in Hloop.
    destruct (Z.ltb_spec (rank x) (rank par)) as [Hless|Hge].
    2:{ simplify_eq. intros i c p Hi Hc Hp.
        destruct (decide (i = pos')) as [->|Hne]; [by simplify_eq|].
        by apply (Hup i c p). }
    (* the parent moves down into the hole and the hole moves up *)
    assert (Hpp : 0 < parent pos -> parent (parent pos) < parent pos)
      by (intros ?; destruct (parent_spec (parent pos)); lia).
    apply IH in Hloop; [done | lia | | ].
    + split_and!.
      * rewrite length_insert. lia.
      * intros i c p Hi Hne Hc Hp.
        destruct (decide (i = pos)) as [->|Hipos].
        { lookups Hc. lookups Hp. simplify_eq. lia. }
        lookups Hc.
        assert (HLi : <[pos := x]> heap !! i = Some c) by by lookups_goal.
        destruct (decide (parent i = parent pos)) as [Heq|Hneq].
        { rewrite Heq in Hp. lookups Hp. simplify_eq.
          pose proof (Hup i c par Hi Hipos HLi ltac:(by rewrite Heq)). lia. }
        destruct (decide (parent i = pos)) as [Heq|Hneq'].
        { rewrite Heq in Hp. lookups Hp. simplify_eq. by apply (Hgrand i c p). }
        lookups Hp. apply (Hup i c p); [done | done | done |]. by lookups_goal.
      * intros i c g Hppos Hi Hpi Hc Hg. specialize (Hpp Hppos).
        lookups Hg.
        assert (HLg : <[pos := x]> heap !! parent (parent pos) = Some g) by by lookups_goal.
        pose proof (Hup (parent pos) par g Hppos ltac:(lia) HLpar HLg) as Hgp.
        assert (Hine : i <> parent pos) by (destruct (parent_spec i); lia).
        destruct (decide (i = pos)) as [->|Hipos].
        { lookups Hc. simplify_eq. lia. }
        lookups Hc.
        assert (HLi : <[pos := x]> heap !! i = Some c) by by lookups_goal.
        pose proof (Hup i c par Hi Hipos HLi ltac:(by rewrite Hpi)). lia.
    + pose proof (exchange_perm_full heap pos (parent pos) x par Hlen ltac:(lia) Hparent)
        as Hperm.
      intros a b Ha Hb. apply Hrk; by rewrite <- Hperm.
Qed.

Lemma ranked_subseteq heap1 heap2 :
  (forall a, a ∈ heap1 -> a ∈ heap2) -> ranked lt rank heap2 -> ranked lt rank heap1.
Proof. intros Hsub Hrk a b Ha Hb. apply Hrk; by apply Hsub. Qed.

Lemma elem_of_insert_inv heap i x a :
  a ∈ <[i := x]> heap -> a = x \/ a ∈ heap.
Proof.
  intros Ha. apply list_elem_of_lookup in Ha as [j Hj].
  destruct (decide (i = j)) as [->|Hne].
  - destruct (decide (j < length heap)).
    + rewrite list_lookup_insert_eq in Hj by done. left. congruence.
    + rewrite list_insert_ge in Hj by lia. right. by eapply list_elem_of_lookup_2.
  - rewrite list_lookup_insert_ne in Hj by done. right. by eapply list_elem_of_lookup_2.
Qed.

Lemma _siftdown_ordered heap pos x :
  heap !! pos = Some x ->
  hole_up rank heap pos x ->
  ranked lt rank heap ->
  heap_ordered rank (_siftdown lt heap 0 pos).
Proof.
  intros Hx Hup Hrk. unfold _siftdown. rewrite Hx.
  destruct (_siftdown_loop lt pos heap 0 pos x) as [heap' pos'] eqn:Hloop.
  apply (_siftdown_loop_ordered pos heap pos x); [lia | done | | done].
  by rewrite list_insert_id.
Qed.

(** [heappush] keeps the heap ordered. *)
Lemma heappush_ordered heap x :
  heap_ordered rank heap -> ranked lt rank (heap ++ [x]) -> heap_ordered rank (heappush lt heap x).
Proof.
  intros Hord Hrk. unfold heappush.
  assert (Hx : (heap ++ [x]) !! length heap = Some x).
  { by rewrite lookup_app_r, Nat.sub_diag. }
  apply (_siftdown_ordered _ _ x); [done | | done].
  unfold hole_up. rewrite list_insert_id by done. split_and!.
  - rewrite length_app. simpl. lia.
  - intros i c p Hi Hne Hc Hp.
    assert (Hlt : i < length heap).
    { apply lookup_lt_Some in Hc. rewrite length_app in Hc. simpl in Hc. lia. }
    assert (parent i < i) by (destruct (parent_spec i); lia).
    rewrite lookup_app_l in Hc by lia. rewrite lookup_app_l in Hp by lia.
    by apply (Hord i c p).
  - intros i c g Hpos Hi Hpi Hc _.
    apply lookup_lt_Some in Hc. rewrite length_app in Hc. simpl in Hc.
    destruct (parent_spec i); lia.
Qed.
(** The first loop of [_siftup] takes the hole down to a leaf, moving the
    smaller child up each time, and brings in no new entry. *)
Lemma _siftup_loop_ordered fuel : forall heap pos heap' pos',
  length heap - pos <= fuel ->
  hole_down rank heap pos ->
  ranked lt rank heap ->
  _siftup_loop lt fuel heap (length heap) pos = (heap', pos') ->
  hole_down rank heap' pos' /\ length heap' <= 2 * pos' + 1 /\
  (forall a, a ∈ heap' -> a ∈ heap).
Proof.
  induction fuel as [|fuel IH]; intros heap pos heap' pos' Hfuel (Hlen & Hdown & Hgrand) Hrk Hloop;
    cbn [_siftup_loop] in Hloop; [lia|].
  destruct (Nat.ltb_spec (2 * pos + 1) (length heap)) as [Hchild|Hleaf].
  2:{ simplify_eq. done. }
  set (m :=
    match heap !! (2 * pos + 1), heap !! (2 * pos + 1 + 1) with
    | Some c, Some r =>
        if Nat.ltb (2 * pos + 1 + 1) (length heap) && negb (lt c r)
        then 2 * pos + 1 + 1 else 2 * pos + 1
    | _, _ => 2 * pos + 1
    end) in *.
  destruct (lookup_lt_is_Some_2 heap (2 * pos + 1) Hchild) as [cl Hcl].
  (* the child that moves up is not above its sibling *)
  assert (Hm : (m = 2 * pos + 1 \/ m = 2 * pos + 1 + 1) /\ m < length heap /\
               forall cm, heap !! m = Some cm ->
               forall o co, 0 < o -> parent o = pos -> o <> m -> heap !! o = Some co ->
                 (rank cm <= rank co)%Z).
  { assert (Hsib : forall o, 0 < o -> parent o = pos -> o = 2 * pos + 1 \/ o = 2 * pos + 1 + 1)
      by (intros o Ho <-; destruct (parent_spec o); lia).
    subst m. rewrite Hcl.
    destruct (heap !! (2 * pos + 1 + 1)) as [cr|] eqn:Hcr.
    - apply lookup_lt_Some in Hcr as Hrlt.
      assert (Hlt : lt cl cr = (rank cl <? rank cr)%Z)
        by (apply Hrk; by eapply list_elem_of_lookup_2).
      destruct (Nat.ltb_spec (2 * pos + 1 + 1) (length heap)); [|lia]. cbn [andb].
      rewrite Hlt. destruct (Z.ltb_spec (rank cl) (rank cr)); cbn [negb].
      + split_and!; [lia | lia |]. intros cm Hcm o co Ho Hpo Hne Hco.
        destruct (Hsib o Ho Hpo) as [->| ->]; [done|]. simplify_eq. lia.
      + split_and!; [lia | lia |]. intros cm Hcm o co Ho Hpo Hne Hco.
        destruct (Hsib o Ho Hpo) as [->| ->]; [|done]. simplify_eq. lia.
    - split_and!; [lia | lia |]. intros cm Hcm o co Ho Hpo Hne Hco.
      destruct (Hsib o Ho Hpo) as [->| ->]; [done|]. congruence. }
  clearbody m. destruct Hm as (Hmpos & Hmlt & Hsmall).
  destruct (lookup_lt_is_Some_2 heap m Hmlt) as [cm Hcm]. rewrite Hcm in Hloop.
  assert (Hpm : parent m = pos).
  { destruct Hmpos as [->| ->]; [apply parent_child_left | apply parent_child_right]. }
  replace (length heap) with (length (<[pos := cm]> heap)) in Hloop by apply length_insert.
  apply IH in Hloop.
  - destruct Hloop as (Hdown' & Hleaf' & Hsub).
    split_and!; [done | done |].
    intros a Ha. apply Hsub in Ha. apply elem_of_insert_inv in Ha as [->|Ha]; [|done].
    by eapply list_elem_of_lookup_2.
  - rewrite length_insert. lia.
  - split_and!.
    + rewrite length_insert. lia.
    + intros i c p Hi Him Hpim Hc Hp.
      destruct (decide (i = pos)) as [Hipos|Hipos].
      { subst i. lookups Hc. assert (c = cm) as -> by congruence.
        assert (parent pos < pos) by (destruct (parent_spec pos); lia).
        lookups Hp. by apply (Hgrand m cm p); [lia | lia | | |]. }
      lookups Hc.
      destruct (decide (parent i = pos)) as [Heq|Hneq].
      { rewrite Heq in Hp. lookups Hp. assert (p = cm) as -> by congruence.
        by apply (Hsmall cm Hcm i c). }
      lookups Hp. by apply (Hdown i c p).
    + intros i c g Hm0 Hi Hpi Hc Hg.
      assert (i <> pos) by (destruct (parent_spec i); lia).
      lookups Hc. rewrite Hpm in Hg. lookups Hg. assert (g = cm) as -> by congruence.
      apply (Hdown i c cm); [done | done | lia | done |]. by rewrite Hpi.
  - apply (ranked_subseteq _ heap); [|done].
    intros a Ha. apply elem_of_insert_inv in Ha as [->|Ha]; [|done].
    by eapply list_elem_of_lookup_2.
Qed.

Lemma _siftup_ordered heap x :
  heap !! 0 = Some x ->
  hole_down rank heap 0 ->
  ranked lt rank heap ->
  heap_ordered rank (_siftup lt heap 0).
Proof.
  intros Hx Hdown Hrk. unfold _siftup. rewrite Hx.
  destruct (_siftup_loop lt (length heap) heap (length heap) 0) as [heap' pos'] eqn:Hloop.
  apply _siftup_loop_ordered in Hloop as ((Hlen & Hdown' & _) & Hleaf & Hsub);
    [| lia | done | done].
  assert (Hnochild : forall i, 0 < i -> parent i = pos' -> length heap' <= i)
    by (intros i Hi <-; destruct (parent_spec i); lia).
  apply (_siftdown_ordered _ _ x).
  - by apply list_lookup_insert_eq.
  - unfold hole_up. rewrite list_insert_insert_eq, length_insert. split_and!; [done| |].
    + intros i c p Hi Hne Hc Hp. lookups Hc.
      destruct (decide (parent i = pos')) as [Heq|Hneq].
      { apply lookup_lt_Some in Hc. specialize (Hnochild i Hi Heq). lia. }
      lookups Hp. by apply (Hdown' i c p).
    + intros i c g _ Hi Heq Hc _.
      apply lookup_lt_Some in Hc. rewrite length_insert in Hc.
      specialize (Hnochild i Hi Heq). lia.
  - apply (ranked_subseteq _ heap); [|done].
    intros a Ha. apply elem_of_insert_inv in Ha as [->|Ha]; [|by apply Hsub].
    by eapply list_elem_of_lookup_2.
Qed.

(** [heappop] returns the root and keeps the rest ordered. *)
Lemma heappop_ordered heap x rest :
  heap_ordered rank heap -> ranked lt rank heap ->
  heappop lt heap = Some (x, rest) ->
  heap !! 0 = Some x /\ heap_ordered rank rest.
Proof.
  intros Hord Hrk. unfold heappop.
  destruct (last heap) as [lastelt|] eqn:Hlast; [|done].
  apply last_Some in Hlast as [front ->]. rewrite removelast_last.
  destruct front as [|returnitem front]; intros ?; simplify_eq.
  { split; [done|]. intros i c p _ Hc. by destruct i. }
  split; [done|]. cbn [insert list_insert].
  apply (_siftup_ordered _ lastelt); [done | |].
  - split_and!; [simpl; lia | | intros; lia].
    intros i c p Hi _ Hpar Hc Hp.
    destruct i as [|i]; [lia|]. destruct (parent (S i)) as [|q] eqn:Hq; [done|].
    apply (Hord (S i) c p); [lia | |].
    + simpl in *. apply lookup_lt_Some in Hc as Hlt. by rewrite lookup_app_l.
    + rewrite Hq. simpl in *. apply lookup_lt_Some in Hp as Hlt. by rewrite lookup_app_l.
  - eapply ranked_subseteq; [|exact Hrk].
    intros a Ha. apply list_elem_of_In in Ha. apply list_elem_of_In.
    simpl in *. rewrite in_app_iff. simpl. tauto.
Qed.

(** What [heappop] returns is a smallest entry of an ordered heap. *)
Lemma heappop_smallest heap x rest :
  heap_ordered rank heap -> ranked lt rank heap ->
  heappop lt heap = Some (x, rest) ->
  forall y, y ∈ heap -> (rank x <= rank y)%Z.
Proof.
  intros Hord Hrk Hpop y Hy.
  destruct (heappop_ordered heap x rest Hord Hrk Hpop) as [Hroot _].
  apply list_elem_of_lookup in Hy as [i Hi].
  by apply (heap_ordered_root heap x Hord Hroot i y).
Qed.

End HeapqOrder.
End HeapqOrder.

(** * The dispatcher *)
Module EventLoopSpec.
Import EventLoop.

Implicit Types (s : State) (r : nat) (e : Event) (h : Handler).

(** *** Submitting *)

Lemma put_nowait_full s r : full s = true -> put_nowait r s = None.
Proof. unfold put_nowait. by intros ->. Qed.

Lemma put_nowait_room s r :
  full s = false ->
  put_nowait r s = Some (set_queue s (Heapq.heappush (ref_lt (objects s)) (_queue s) r)).
Proof. unfold put_nowait. by intros ->. Qed.

Lemma full_spec s :
  full s = true <->
  (0 < max_queue_size (config s) <= Z.of_nat (length (_queue s)))%Z.
Proof.
  unfold full. destruct (Z.leb_spec (max_queue_size (config s)) 0).
  - split; [done | lia].
  - rewrite Z.leb_le. lia.
Qed.

Lemma full_false s :
  (max_queue_size (config s) <= 0 \/
   Z.of_nat (length (_queue s)) < max_queue_size (config s))%Z ->
  full s = false.
Proof.
  intros Hroom. destruct (full s) eqn:Hfull; [|done]. apply full_spec in Hfull. lia.
Qed.

(** C7. [emit] never waits: it answers at once, for every state.  When the
    queue is at capacity the event is rejected, [dropped] grows by one and
    the queue is left as it was; when there is room the event is accepted,
    the queue holds what it held plus the new event, and [dropped] is
    unchanged.  The default capacity is 1000. *)
Theorem emit_never_blocks_and_counts_drops s ty d p now eid :
  max_queue_size default_config = 1000%Z /\
  ((0 < max_queue_size (config s) <= Z.of_nat (length (_queue s)))%Z ->
     fst (emit ty d p now eid s) = None /\
     _queue (snd (emit ty d p now eid s)) = _queue s /\
     dropped (_metrics (snd (emit ty d p now eid s))) = (dropped (_metrics s) + 1)%Z) /\
  ((max_queue_size (config s) <= 0 \/
    Z.of_nat (length (_queue s)) < max_queue_size (config s))%Z ->
     fst (emit ty d p now eid s) = Some (length (objects s)) /\
     objects (snd (emit ty d p now eid s)) !! length (objects s)
       = Some (mkEvent ty d p now 0 3 eid) /\
     _queue (snd (emit ty d p now eid s)) ≡ₚ length (objects s) :: _queue s /\
     dropped (_metrics (snd (emit ty d p now eid s))) = dropped (_metrics s)).
Proof.
  split; [reflexivity|]. split.
  - intros Hcap. unfold emit.
    rewrite put_nowait_full by (apply full_spec; exact Hcap). done.
  - intros Hroom. unfold emit.
    rewrite put_nowait_room.
    2:{ apply full_false. exact Hroom. }
    simpl. split_and!; try done.
    + by rewrite lookup_app_r, Nat.sub_diag.
    + apply HeapqFacts.heappush_perm.
Qed.

Lemma emit_never_blocks_and_counts_drops_witness :
  fst (emit CALL PyNone CRITICAL 0 "evt_1" one_slot) = Some 0 /\
  fst (emit CALL PyNone CRITICAL 5 "evt_2"
         (snd (emit CALL PyNone CRITICAL 0 "evt_1" one_slot))) = None.
Proof.
  split.
  - apply (emit_never_blocks_and_counts_drops one_slot CALL PyNone CRITICAL 0 "evt_1").
    simpl. lia.
  - apply (emit_never_blocks_and_counts_drops
             (snd (emit CALL PyNone CRITICAL 0 "evt_1" one_slot))
             CALL PyNone CRITICAL 5 "evt_2").
    simpl. lia.
Defined.

(** *** Processing *)

(** What [_handle_failure] leaves alone. *)
Lemma _handle_failure_frame r msg s :
  config (_handle_failure r msg s) = config s /\
  _handlers (_handle_failure r msg s) = _handlers s /\
  _running (_handle_failure r msg s) = _running s /\
  invocations (_handle_failure r msg s) = invocations s /\
  processed (_metrics (_handle_failure r msg s)) = processed (_metrics s) /\
  length (objects (_handle_failure r msg s)) = length (objects s).
Proof.
  unfold _handle_failure. simpl.
  destruct (objects s !! r) as [e|]; [|done].
  destruct (retry_count e <? max_retries e)%Z; [|done].
  unfold put_nowait. destruct (full _); simpl; by rewrite length_insert.
Qed.

Lemma _handle_failure_object r msg s e :
  objects s !! r = Some e ->
  exists e', objects (_handle_failure r msg s) !! r = Some e' /\
             event_type e' = event_type e /\ priority e' = priority e.
Proof.
  intros He. unfold _handle_failure. simpl. rewrite He.
  destruct (retry_count e <? max_retries e)%Z; [|by exists e].
  exists (bump e). unfold put_nowait. apply lookup_lt_Some in He as Hlt.
  destruct (full _); simpl; by rewrite list_lookup_insert_eq.
Qed.

(** One handler call: the trace grows by that call, and [processed] grows
    by one exactly when the call completes. *)
Lemma run_handler_spec r h s e :
  objects s !! r = Some e ->
  invocations (run_handler r h s) = invocations s ++ [mkInvocation (h_id h) r e] /\
  processed (_metrics (run_handler r h s)) =
    (processed (_metrics s) +
     (if is_Completed (h_run h (length (invocations s)) e) then 1 else 0))%Z /\
  _handlers (run_handler r h s) = _handlers s /\
  _running (run_handler r h s) = _running s /\
  exists e', objects (run_handler r h s) !! r = Some e' /\
             event_type e' = event_type e /\ priority e' = priority e.
Proof.
  intros He. unfold run_handler. rewrite He.
  destruct (h_run h (length (invocations s)) e) eqn:Hrun; simpl.
  - split_and!; try done. by exists e.
  - match goal with |- context [_handle_failure r ?m ?s1] =>
      destruct (_handle_failure_frame r m s1) as (_ & Hh & Hr & Hi & Hp & _);
      destruct (_handle_failure_object r m s1 e He) as (e' & ? & ? & ?) end.
    rewrite Hh, Hr, Hi, Hp. simpl. split_and!; try done; [lia | by exists e'].
  - match goal with |- context [_handle_failure r ?m ?s1] =>
      destruct (_handle_failure_frame r m s1) as (_ & Hh & Hr & Hi & Hp & _);
      destruct (_handle_failure_object r m s1 e He) as (e' & ? & ? & ?) end.
    rewrite Hh, Hr, Hi, Hp. simpl. split_and!; try done; [lia | by exists e'].
Qed.

(** The loop over the handlers: every handler is called once, in list
    order, on the same event object. *)
Lemma run_handlers_trace r hs s e :
  objects s !! r = Some e ->
  map (fun i => (inv_handler i, inv_ref i))
      (invocations (foldl (fun acc h => run_handler r h acc) s hs)) =
  map (fun i => (inv_handler i, inv_ref i)) (invocations s)
    ++ map (fun h => (h_id h, r)) hs.
Proof.
  revert s e; induction hs as [|h hs IH]; intros s e He; simpl.
  - by rewrite app_nil_r.
  - destruct (run_handler_spec r h s e He) as (Hi & _ & _ & _ & e' & He' & _).
    rewrite (IH _ e' He'), Hi, map_app. simpl. by rewrite <- app_assoc.
Qed.

Lemma run_handlers_all_complete r hs s e :
  objects s !! r = Some e ->
  (forall h, h ∈ hs -> forall k e0, h_run h k e0 = Completed) ->
  processed (_metrics (foldl (fun acc h => run_handler r h acc) s hs)) =
    (processed (_metrics s) + Z.of_nat (length hs))%Z /\
  objects (foldl (fun acc h => run_handler r h acc) s hs) = objects s /\
  _queue (foldl (fun acc h => run_handler r h acc) s hs) = _queue s /\
  failed (_metrics (foldl (fun acc h => run_handler r h acc) s hs)) = failed (_metrics s).
Proof.
  revert s; induction hs as [|h hs IH]; intros s He Hall; simpl.
  - split_and!; try done. lia.
  - assert (Hh : run_handler r h s =
              set_metrics (add_invocation s (mkInvocation (h_id h) r e))
                (incr_processed (_metrics s))).
    { unfold run_handler. rewrite He, Hall by apply list_elem_of_here. done. }
    rewrite Hh. destruct (IH (set_metrics (add_invocation s (mkInvocation (h_id h) r e))
                               (incr_processed (_metrics s)))) as (Hp & Ho & Hq & Hf).
    + done.
    + intros h' Hin. apply Hall. by apply list_elem_of_further.
    + rewrite Hp, Ho, Hq, Hf. simpl. split_and!; try done. lia.
Qed.

(** C10. [processed] counts handler calls that complete, not events: one
    event whose kind has N handlers that all complete adds N to it, and a
    call that times out or raises adds nothing for that call. *)
Theorem processed_counts_completed_calls s r e :
  objects s !! r = Some e ->
  ((forall h, h ∈ _handlers s (event_type e) -> forall k e0, h_run h k e0 = Completed) ->
     processed (_metrics (_process_event r s)) =
       (processed (_metrics s) + Z.of_nat (length (_handlers s (event_type e))))%Z) /\
  (forall h,
     processed (_metrics (run_handler r h s)) =
       match h_run h (length (invocations s)) e with
       | Completed => (processed (_metrics s) + 1)%Z
       | TimedOut | Failed _ => processed (_metrics s)
       end).
Proof.
  intros He. split.
  - intros Hall. unfold _process_event. rewrite He.
    by apply (run_handlers_all_complete r _ s e).
  - intros h. destruct (run_handler_spec r h s e He) as (_ & Hp & _).
    rewrite Hp. destruct (h_run h _ e); simpl; lia.
Qed.

Lemma processed_counts_completed_calls_witness :
  processed (_metrics (_process_event 0 two_call_handlers)) = 2%Z.
Proof.
  destruct (processed_counts_completed_calls two_call_handlers 0
              (mkEvent CALL PyNone HIGH 0 0 3 "evt_1") eq_refl) as [Hall _].
  apply Hall. intros h Hh k e0.
  apply list_elem_of_In in Hh. simpl in Hh.
  destruct Hh as [<-|[<-|[]]]; reflexivity.
Defined.

(** *** Retrying *)

Lemma worker_step_idle s : _queue s = [] -> worker_step s = s.
Proof.
  intros Hq. unfold worker_step, get_nowait. rewrite Hq. simpl.
  by destruct (_running s).
Qed.

Lemma worker_loop_idle n s : _queue s = [] -> _worker_loop n s = s.
Proof.
  intros Hq. induction n as [|n IH]; simpl; [done|]. by rewrite worker_step_idle.
Qed.

Lemma worker_loop_add n m s :
  _worker_loop (n + m) s = _worker_loop m (_worker_loop n s).
Proof. revert s; induction n as [|n IH]; intros s; simpl; [done|]. apply IH. Qed.

(** One worker iteration on a queue holding a single event whose only
    handler fails: either the event goes back into the queue with its retry
    count raised, or, when the count has reached [max_retries], it is gone. *)
Lemma worker_step_failing s r e h :
  _running s = true ->
  _queue s = [r] ->
  objects s !! r = Some e ->
  _handlers s (event_type e) = [h] ->
  h_run h (length (invocations s)) e <> Completed ->
  worker_step s =
    if (retry_count e <? max_retries e)%Z then
      mkState (config s) (<[r := bump e]> (objects s)) [r] (_handlers s) (_workers s) true
        (incr_retried (incr_failed (_metrics s)))
        (invocations s ++ [mkInvocation (h_id h) r e])
        (sleeps s ++ [backoff (config s) (bump e)])
    else
      mkState (config s) (objects s) [] (_handlers s) (_workers s) true
        (incr_failed (_metrics s))
        (invocations s ++ [mkInvocation (h_id h) r e])
        (sleeps s).
Proof.
  intros Hrun Hq He Hh Hfail.
  assert (Hstep : forall msg,
    _handle_failure r msg
      (add_invocation (set_queue s []) (mkInvocation (h_id h) r e)) =
    if (retry_count e <? max_retries e)%Z then
      mkState (config s) (<[r := bump e]> (objects s)) [r] (_handlers s) (_workers s) true
        (incr_retried (incr_failed (_metrics s)))
        (invocations s ++ [mkInvocation (h_id h) r e])
        (sleeps s ++ [backoff (config s) (bump e)])
    else
      mkState (config s) (objects s) [] (_handlers s) (_workers s) true
        (incr_failed (_metrics s))
        (invocations s ++ [mkInvocation (h_id h) r e])
        (sleeps s)).
  { intros msg. unfold _handle_failure. simpl. rewrite He.
    destruct (retry_count e <? max_retries e)%Z; simpl.
    - unfold put_nowait, full; simpl.
      destruct (Z.leb_spec (max_queue_size (config s)) 0) as [|Hpos].
      + unfold_setters. by rewrite Hrun.
      + destruct (Z.leb_spec (max_queue_size (config s)) (Z.of_nat 0)); [simpl in *; lia|].
        unfold_setters. by rewrite Hrun.
    - unfold_setters. by rewrite Hrun. }
  unfold worker_step, get_nowait. rewrite Hrun, Hq. simpl.
  unfold _process_event. simpl. rewrite He, Hh. simpl.
  unfold run_handler. simpl. rewrite He.
  destruct (h_run h (length (invocations s)) e) eqn:Hout; [done| |]; apply Hstep.
Qed.

(** The whole life of an event whose only handler always fails, told by
    the number [k] of retries it still has. *)
Lemma retry_until_exhausted (k : nat) : forall s r e h,
  _running s = true ->
  _queue s = [r] ->
  objects s !! r = Some e ->
  _handlers s (event_type e) = [h] ->
  always_fails h ->
  (max_retries e - retry_count e)%Z = Z.of_nat k ->
  let s' := _worker_loop (S k) s in
  _queue s' = [] /\
  (exists calls,
     invocations s' = invocations s ++ calls /\
     map inv_handler calls = replicate (S k) (h_id h) /\
     map inv_ref calls = replicate (S k) r /\
     map (fun i => retry_count (inv_event i)) calls
       = seqZ (retry_count e) (Z.of_nat (S k))) /\
  _metrics s' =
    mkMetrics (processed (_metrics s))
              (failed (_metrics s) + Z.of_nat (S k))
              (retried (_metrics s) + Z.of_nat k)
              (dropped (_metrics s)).
Proof.
  induction k as [|k IH]; intros s r e h Hrun Hq He Hh Hfail Hleft s'; subst s'.
  - simpl. rewrite (worker_step_failing s r e h) by auto.
    destruct (Z.ltb_spec (retry_count e) (max_retries e)); [lia|]. simpl.
    split_and!; [done| |].
    + exists [mkInvocation (h_id h) r e]. by rewrite seqZ_cons.
    + unfold incr_failed. f_equal; lia.
  - change (_worker_loop (S (S k)) s) with (_worker_loop (S k) (worker_step s)).
    rewrite (worker_step_failing s r e h) by auto.
    destruct (Z.ltb_spec (retry_count e) (max_retries e)); [|lia].
    apply lookup_lt_Some in He as Hlt.
    match goal with |- context [_worker_loop (S k) ?s1] =>
      destruct (IH s1 r (bump e) h) as (Hq' & (calls & Hcalls & Hids & Hrefs & Hcounts) & Hm');
      [done | done | by apply list_lookup_insert_eq | done | done | simpl; lia | ] end.
    cbn [invocations _metrics processed failed retried dropped incr_retried incr_failed
         bump retry_count] in Hcalls, Hm', Hcounts.
    split_and!; [done| |].
    + exists (mkInvocation (h_id h) r e :: calls). split_and!.
      * rewrite Hcalls. by rewrite <- app_assoc.
      * simpl. by rewrite Hids.
      * simpl. by rewrite Hrefs.
      * simpl. rewrite Hcounts.
        rewrite (seqZ_cons (retry_count e)) by lia. do 2 f_equal; lia.
    + rewrite Hm'. f_equal; lia.
Qed.

(** C1 (as the code has it). An event with [max_retries = m], where
    [0 <= m <= 1024], that has not been retried yet and whose only handler
    always fails is handled exactly [m + 1] times: once, and then once per
    retry.  After that the queue no longer holds it, and however long the
    workers go on nothing more happens.  [failed] has grown by one per
    failed call ([m + 1] in all), [retried] by [m], and [processed] and
    [dropped] have not moved.  (Beyond 1024 retries the back-off delay can
    no longer be computed: see [backoff].) *)
Theorem always_failing_event_is_retried_max_retries_times s r e h (n : nat) :
  _running s = true ->
  _queue s = [r] ->
  objects s !! r = Some e ->
  _handlers s (event_type e) = [h] ->
  always_fails h ->
  retry_count e = 0%Z ->
  (0 <= max_retries e <= 1024)%Z ->
  Z.to_nat (max_retries e) + 1 <= n ->
  _queue (_worker_loop n s) = [] /\
  (exists calls,
     invocations (_worker_loop n s) = invocations s ++ calls /\
     Z.of_nat (length calls) = (max_retries e + 1)%Z /\
     Forall (fun i => inv_handler i = h_id h /\ inv_ref i = r) calls /\
     map (fun i => retry_count (inv_event i)) calls = seqZ 0 (max_retries e + 1)) /\
  failed (_metrics (_worker_loop n s)) = (failed (_metrics s) + (max_retries e + 1))%Z /\
  retried (_metrics (_worker_loop n s)) = (retried (_metrics s) + max_retries e)%Z /\
  processed (_metrics (_worker_loop n s)) = processed (_metrics s) /\
  dropped (_metrics (_worker_loop n s)) = dropped (_metrics s).
Proof.
  intros Hrun Hq He Hh Hfail Hzero [Hmax Hfloat] Hn.
  destruct (retry_until_exhausted (Z.to_nat (max_retries e)) s r e h)
    as (Hq' & (calls & Hcalls & Hids & Hrefs & Hcounts) & Hm); try done; [lia|].
  replace n with (S (Z.to_nat (max_retries e)) + (n - S (Z.to_nat (max_retries e)))) by lia.
  rewrite worker_loop_add, worker_loop_idle by done.
  rewrite Hm. simpl. split_and!; try done; try lia.
  exists calls. split_and!.
  - done.
  - rewrite <- (length_map inv_handler), Hids, length_replicate. lia.
  - apply Forall_forall. intros i Hi. split.
    + assert (Hin : inv_handler i ∈ map inv_handler calls) by (by apply list_elem_of_fmap_2).
      rewrite Hids in Hin. by apply elem_of_replicate in Hin as [? _].
    + assert (Hin : inv_ref i ∈ map inv_ref calls) by (by apply list_elem_of_fmap_2).
      rewrite Hrefs in Hin. by apply elem_of_replicate in Hin as [? _].
  - rewrite Hcounts, Hzero. f_equal. lia.
Qed.

Lemma always_failing_event_is_retried_max_retries_times_witness :
  _queue (_worker_loop 10 failing_call) = [] /\
  failed (_metrics (_worker_loop 10 failing_call)) = 4%Z /\
  retried (_metrics (_worker_loop 10 failing_call)) = 3%Z.
Proof.
  destruct (always_failing_event_is_retried_max_retries_times
              failing_call 0 (mkEvent CALL PyNone NORMAL 0 0 3 "evt_1") broken_handler 10)
    as (Hq & _ & Hf & Hr & _).
  - reflexivity.
  - reflexivity.
  - reflexivity.
  - reflexivity.
  - intros k e. discriminate.
  - reflexivity.
  - simpl. lia.
  - simpl. lia.
  - split_and!; [exact Hq | exact Hf | exact Hr].
Defined.

(** C1 (as the claim has it) fails: with [max_retries = 3] the claim
    promises 3 handler calls, [failed = 1] and [retried = 2]; the code makes
    4 calls and counts [failed = 4], [retried = 3]. *)
Lemma retry_bound_as_claimed_fails :
  length (invocations (_worker_loop 10 failing_call)) = 4 /\
  failed (_metrics (_worker_loop 10 failing_call)) = 4%Z /\
  retried (_metrics (_worker_loop 10 failing_call)) = 3%Z /\
  ~ (Z.of_nat (length (invocations (_worker_loop 10 failing_call))) = 3%Z /\
     failed (_metrics (_worker_loop 10 failing_call)) = 1%Z /\
     retried (_metrics (_worker_loop 10 failing_call)) = (3 - 1)%Z).
Proof.
  assert (Hlen : length (invocations (_worker_loop 10 failing_call)) = 4)
    by (vm_compute; reflexivity).
  split_and!; [exact Hlen | vm_compute; reflexivity | vm_compute; reflexivity |].
  intros (Hbad & _). rewrite Hlen in Hbad. discriminate.
Qed.

(** The scenario with [max_retries = 2]: three calls, [failed = 3],
    [retried = 2]. *)
Example retry_twice :
  length (invocations (_worker_loop 10 failing_call_two)) = 3 /\
  failed (_metrics (_worker_loop 10 failing_call_two)) = 3%Z /\
  retried (_metrics (_worker_loop 10 failing_call_two)) = 2%Z.
Proof. vm_compute. done. Qed.

(** *** Priorities *)

Lemma run_handler_extends r h s :
  exists calls, invocations (run_handler r h s) = invocations s ++ calls.
Proof.
  destruct (objects s !! r) as [e|] eqn:He.
  - destruct (run_handler_spec r h s e He) as (Hi & _). eauto.
  - unfold run_handler. rewrite He. exists []. by rewrite app_nil_r.
Qed.

Lemma _process_event_extends r s :
  exists calls, invocations (_process_event r s) = invocations s ++ calls.
Proof.
  unfold _process_event. destruct (objects s !! r) as [e|]; [|exists []; by rewrite app_nil_r].
  generalize (_handlers s (event_type e)). intros hs. revert s.
  induction hs as [|h hs IH]; intros s; simpl.
  - exists []. by rewrite app_nil_r.
  - destruct (IH (run_handler r h s)) as [calls2 ->].
    destruct (run_handler_extends r h s) as [calls1 ->].
    exists (calls1 ++ calls2). by rewrite app_assoc.
Qed.

Lemma worker_step_extends s :
  exists calls, invocations (worker_step s) = invocations s ++ calls.
Proof.
  unfold worker_step. destruct (_running s); [|exists []; by rewrite app_nil_r].
  unfold get_nowait. destruct (Heapq.heappop _ _) as [[r q]|]; [|exists []; by rewrite app_nil_r].
  apply (_process_event_extends r (set_queue s q)).
Qed.

(** The trace of handler calls only ever grows at its end. *)
Lemma worker_loop_extends n s :
  exists calls, invocations (_worker_loop n s) = invocations s ++ calls.
Proof.
  revert s; induction n as [|n IH]; intros s; simpl.
  - exists []. by rewrite app_nil_r.
  - destruct (IH (worker_step s)) as [calls2 ->].
    destruct (worker_step_extends s) as [calls1 ->].
    exists (calls1 ++ calls2). by rewrite app_assoc.
Qed.

(** Two events put into an empty queue, the more urgent one first or
    second: what the queue then looks like. *)
Lemma emit_two s ty1 d1 p1 now1 id1 ty2 d2 p2 now2 id2 :
  _queue s = [] ->
  (max_queue_size (config s) <= 0 \/ 2 <= max_queue_size (config s))%Z ->
  let r1 := length (objects s) in
  let r2 := S (length (objects s)) in
  let e1 := mkEvent ty1 d1 p1 now1 0 3 id1 in
  let e2 := mkEvent ty2 d2 p2 now2 0 3 id2 in
  fst (emit ty1 d1 p1 now1 id1 s) = Some r1 /\
  emit ty2 d2 p2 now2 id2 (snd (emit ty1 d1 p1 now1 id1 s)) =
    (Some r2,
     mkState (config s) (objects s ++ [e1; e2])
       (if Event_lt e2 e1 then [r2; r1] else [r1; r2])
       (_handlers s) (_workers s) (_running s) (_metrics s) (invocations s) (sleeps s)).
Proof.
  intros Hq Hcap r1 r2 e1 e2.
  assert (Hfirst : emit ty1 d1 p1 now1 id1 s =
            (Some r1, mkState (config s) (objects s ++ [e1]) [r1] (_handlers s)
                        (_workers s) (_running s) (_metrics s) (invocations s) (sleeps s))).
  { unfold emit. rewrite put_nowait_room.
    - unfold_setters. by rewrite Hq.
    - apply full_false. simpl. rewrite Hq. simpl. lia. }
  rewrite Hfirst. simpl. split; [done|].
  unfold emit. rewrite put_nowait_room by (apply full_false; simpl; lia).
  unfold_setters. rewrite length_app. simpl. rewrite Nat.add_1_r. fold r1 r2 e2.
  rewrite HeapqFacts.heappush_one.
  assert (Hlt : ref_lt ((objects s ++ [e1]) ++ [e2]) r2 r1 = Event_lt e2 e1).
  { unfold ref_lt.
    rewrite (lookup_app_r _ [e2] r2) by (rewrite length_app; simpl; lia).
    rewrite length_app. simpl. replace (r2 - (length (objects s) + 1)) with 0 by lia.
    rewrite (lookup_app_l _ [e2] r1) by (rewrite length_app; simpl; lia).
    rewrite (lookup_app_r _ [e1] r1) by lia. by rewrite Nat.sub_diag. }
  change (S r1) with r2. rewrite Hlt, <- app_assoc. simpl.
  by destruct (Event_lt e2 e1).
Qed.

(** With two entries queued and the smaller one at the root, the first
    worker iteration takes the root and calls every handler of its kind
    before anything else is called. *)
Lemma first_dispatch s ra rb ea (n : nat) :
  _running s = true ->
  _queue s = [ra; rb] ->
  objects s !! ra = Some ea ->
  0 < n ->
  get_nowait s = Some (ra, set_queue s [rb]) /\
  exists rest,
    call_ids (invocations (_worker_loop n s)) =
      call_ids (invocations s)
        ++ map (fun h => (h_id h, ra)) (_handlers s (event_type ea)) ++ rest.
Proof.
  intros Hrun Hq Ha Hn.
  assert (Hget : get_nowait s = Some (ra, set_queue s [rb])).
  { unfold get_nowait. by rewrite Hq, HeapqFacts.heappop_two. }
  split; [done|].
  destruct n as [|n]; [lia|]. simpl.
  destruct (worker_loop_extends n (worker_step s)) as [calls ->].
  unfold worker_step. rewrite Hrun, Hget.
  unfold _process_event. simpl. rewrite Ha.
  exists (call_ids calls). unfold call_ids at 1. rewrite map_app.
  fold (call_ids calls).
  rewrite (run_handlers_trace ra _ (set_queue s [rb]) ea Ha). simpl.
  by rewrite <- app_assoc.
Qed.

(** C3. Two events of different priority are submitted, in either order,
    to a running loop whose queue is empty and can hold both.  Then the
    first event a worker takes is the one of higher priority (lower
    ordinal), and the other one stays queued: this holds for any number of
    workers.  When the loop has a single worker, every handler of the
    higher-priority event's kind is called on it before any other call is
    made, however long the worker runs. *)
Theorem higher_priority_is_dispatched_first
    s tyA dA pA nowA idA tyB dB pB nowB idB (n : nat) :
  _running s = true ->
  _queue s = [] ->
  (max_queue_size (config s) <= 0 \/ 2 <= max_queue_size (config s))%Z ->
  (priority_value pA < priority_value pB)%Z ->
  0 < n ->
  let r1 := length (objects s) in
  let r2 := S (length (objects s)) in
  let sAB := snd (emit tyB dB pB nowB idB (snd (emit tyA dA pA nowA idA s))) in
  let sBA := snd (emit tyA dA pA nowA idA (snd (emit tyB dB pB nowB idB s))) in
  (objects sAB !! r1 = Some (mkEvent tyA dA pA nowA 0 3 idA) /\
   objects sAB !! r2 = Some (mkEvent tyB dB pB nowB 0 3 idB) /\
   (exists s', get_nowait sAB = Some (r1, s') /\ _queue s' = [r2]) /\
   (_workers s = 1 ->
    exists rest,
      call_ids (invocations (_worker_loop n sAB)) =
        call_ids (invocations s) ++ map (fun h => (h_id h, r1)) (_handlers s tyA) ++ rest))
  /\
  (objects sBA !! r2 = Some (mkEvent tyA dA pA nowA 0 3 idA) /\
   objects sBA !! r1 = Some (mkEvent tyB dB pB nowB 0 3 idB) /\
   (exists s', get_nowait sBA = Some (r2, s') /\ _queue s' = [r1]) /\
   (_workers s = 1 ->
    exists rest,
      call_ids (invocations (_worker_loop n sBA)) =
        call_ids (invocations s) ++ map (fun h => (h_id h, r2)) (_handlers s tyA) ++ rest)).
Proof.
  intros Hrun Hq Hcap Hprio Hn r1 r2 sAB sBA.
  assert (Hlookup1 : forall e1 e2, (objects s ++ [e1; e2]) !! r1 = Some e1).
  { intros e1 e2. by rewrite lookup_app_r, Nat.sub_diag. }
  assert (Hlookup2 : forall e1 e2, (objects s ++ [e1; e2]) !! r2 = Some e2).
  { intros e1 e2. subst r2. rewrite lookup_app_r by lia.
    by replace (S (length (objects s)) - length (objects s)) with 1 by lia. }
  split.
  - destruct (emit_two s tyA dA pA nowA idA tyB dB pB nowB idB Hq Hcap) as [_ Hsnd].
    subst sAB. rewrite Hsnd. simpl.
    replace (Event_lt _ _) with false
      by (symmetry; unfold Event_lt; simpl; apply Z.ltb_ge; lia).
    match goal with |- context [_worker_loop n ?s2] =>
      destruct (first_dispatch s2 r1 r2 (mkEvent tyA dA pA nowA 0 3 idA) n)
        as [Hget Htrace]; [done | done | apply Hlookup1 | done |] end.
    split_and!; [apply Hlookup1 | apply Hlookup2 | eauto | intros _; exact Htrace].
  - destruct (emit_two s tyB dB pB nowB idB tyA dA pA nowA idA Hq Hcap) as [_ Hsnd].
    subst sBA. rewrite Hsnd. simpl.
    replace (Event_lt _ _) with true
      by (symmetry; unfold Event_lt; simpl; apply Z.ltb_lt; lia).
    match goal with |- context [_worker_loop n ?s2] =>
      destruct (first_dispatch s2 r2 r1 (mkEvent tyA dA pA nowA 0 3 idA) n)
        as [Hget Htrace]; [done | done | apply Hlookup2 | done |] end.
    split_and!; [apply Hlookup2 | apply Hlookup1 | eauto | intros _; exact Htrace].
Qed.

Lemma higher_priority_is_dispatched_first_witness :
  exists rest,
    call_ids (invocations (_worker_loop 1
      (snd (emit CALL PyNone CRITICAL 1 "evt_c"
        (snd (emit MEMORY PyNone BACKGROUND 0 "evt_b" one_worker)))))) =
    (1, 1) :: rest.
Proof.
  destruct (higher_priority_is_dispatched_first one_worker
              CALL PyNone CRITICAL 1 "evt_c" MEMORY PyNone BACKGROUND 0 "evt_b" 1)
    as [_ (_ & _ & _ & Htrace)].
  - reflexivity.
  - reflexivity.
  - right. simpl. lia.
  - simpl. lia.
  - lia.
  - destruct Htrace as [rest Htrace]; [reflexivity|]. exists rest. exact Htrace.
Defined.

(** *** The order of the whole queue *)

Implicit Types (objs : list Event).

Lemma ranked_refs objs (q : list nat) :
  (forall r, r ∈ q -> r < length objs) -> Heapq.ranked (ref_lt objs) (rank_of objs) q.
Proof.
  intros Hvalid a b Ha Hb. unfold ref_lt, rank_of.
  destruct (lookup_lt_is_Some_2 objs a (Hvalid a Ha)) as [ea ->].
  destruct (lookup_lt_is_Some_2 objs b (Hvalid b Hb)) as [eb ->]. done.
Qed.

Lemma heap_ordered_ext (rank1 rank2 : nat -> Z) (q : list nat) :
  (forall r, r ∈ q -> rank1 r = rank2 r) ->
  Heapq.heap_ordered rank1 q -> Heapq.heap_ordered rank2 q.
Proof.
  intros Hext Hord i c p Hi Hc Hp.
  rewrite <- (Hext c), <- (Hext p) by (by eapply list_elem_of_lookup_2).
  by apply (Hord i c p).
Qed.

Lemma put_nowait_ok r s s' :
  queue_ok s -> r < length (objects s) -> put_nowait r s = Some s' -> queue_ok s'.
Proof.
  intros [Hord Hvalid] Hr. unfold put_nowait. destruct (full s); [done|].
  intros [= <-]. unfold queue_ok. simpl.
  assert (Hvalid' : forall r', r' ∈ _queue s ++ [r] -> r' < length (objects s)).
  { intros r' Hin. apply list_elem_of_In, in_app_iff in Hin as [Hin|[<-|[]]]; [|done].
    by apply Hvalid, list_elem_of_In. }
  split.
  - apply HeapqOrder.heappush_ordered; [done|]. by apply ranked_refs.
  - intros r' Hin. apply Hvalid'. rewrite HeapqFacts.heappush_perm in Hin.
    apply list_elem_of_In. apply list_elem_of_In in Hin. rewrite in_app_iff. simpl in *. tauto.
Qed.

(** The entry a worker takes is valid and of the most urgent priority
    among the entries queued; the rest stays ordered. *)
Lemma get_nowait_ok s r s' :
  queue_ok s -> get_nowait s = Some (r, s') ->
  queue_ok s' /\ objects s' = objects s /\ r < length (objects s) /\
  forall r', r' ∈ _queue s -> (rank_of (objects s) r <= rank_of (objects s) r')%Z.
Proof.
  intros [Hord Hvalid]. unfold get_nowait.
  destruct (Heapq.heappop _ _) as [[r0 q']|] eqn:Hpop; [|done]. intros [= -> <-].
  pose proof (ranked_refs _ _ Hvalid) as Hrk.
  destruct (HeapqOrder.heappop_ordered _ _ _ _ _ Hord Hrk Hpop) as [Hroot Hord'].
  pose proof (HeapqFacts.heappop_perm _ _ _ _ Hpop) as Hperm.
  unfold queue_ok. simpl. split_and!.
  - done.
  - intros r' Hin. apply Hvalid. rewrite Hperm. by apply list_elem_of_further.
  - done.
  - apply Hvalid. by eapply list_elem_of_lookup_2.
  - by apply (HeapqOrder.heappop_smallest _ _ _ _ _ Hord Hrk Hpop).
Qed.

Lemma rank_of_app objs e r :
  r < length objs -> rank_of (objs ++ [e]) r = rank_of objs r.
Proof. intros Hr. unfold rank_of. by rewrite lookup_app_l. Qed.

Lemma rank_of_bump objs r0 e r :
  objs !! r0 = Some e -> rank_of (<[r0 := bump e]> objs) r = rank_of objs r.
Proof.
  intros He. unfold rank_of. destruct (decide (r0 = r)) as [->|Hne].
  - rewrite list_lookup_insert_eq by (by eapply lookup_lt_Some). by rewrite He.
  - by rewrite list_lookup_insert_ne.
Qed.

Lemma emit_ok ty d p now eid s : queue_ok s -> queue_ok (snd (emit ty d p now eid s)).
Proof.
  intros [Hord Hvalid].
  assert (Hok : queue_ok (set_objects s (objects s ++ [mkEvent ty d p now 0 3 eid]))).
  { split; simpl.
    - apply (heap_ordered_ext (rank_of (objects s))); [|done].
      intros r Hr. symmetry. by apply rank_of_app, Hvalid.
    - intros r Hr. rewrite length_app. apply Hvalid in Hr. lia. }
  unfold emit. destruct (put_nowait _ _) as [s2|] eqn:Hput; simpl.
  - apply (put_nowait_ok _ _ _ Hok) in Hput; [done|]. simpl. rewrite length_app. simpl. lia.
  - done.
Qed.

Lemma _handle_failure_ok r msg s :
  queue_ok s -> r < length (objects s) -> queue_ok (_handle_failure r msg s).
Proof.
  intros [Hord Hvalid] Hr. unfold _handle_failure. simpl.
  destruct (objects s !! r) as [e|] eqn:He; [|done].
  destruct (retry_count e <? max_retries e)%Z; [|done].
  match goal with |- context [put_nowait r ?s4] => assert (Hok : queue_ok s4) end.
  { split; simpl.
    - apply (heap_ordered_ext (rank_of (objects s))); [|done].
      intros r' _. symmetry. by apply rank_of_bump.
    - intros r' Hr'. rewrite length_insert. by apply Hvalid. }
  destruct (put_nowait _ _) as [s5|] eqn:Hput.
  - apply (put_nowait_ok _ _ _ Hok) in Hput; [done|]. simpl. by rewrite length_insert.
  - done.
Qed.

Lemma run_handler_ok r h s :
  queue_ok s -> r < length (objects s) ->
  queue_ok (run_handler r h s) /\ length (objects (run_handler r h s)) = length (objects s).
Proof.
  intros Hok Hr. unfold run_handler.
  destruct (objects s !! r) as [e|]; [|done].
  destruct (h_run h _ e); [done| |].
  - split; [by apply _handle_failure_ok|].
    match goal with |- context [_handle_failure r ?m ?s1] =>
      by destruct (_handle_failure_frame r m s1) as (_ & _ & _ & _ & _ & ->) end.
  - split; [by apply _handle_failure_ok|].
    match goal with |- context [_handle_failure r ?m ?s1] =>
      by destruct (_handle_failure_frame r m s1) as (_ & _ & _ & _ & _ & ->) end.
Qed.

Lemma _process_event_ok r s :
  queue_ok s -> r < length (objects s) -> queue_ok (_process_event r s).
Proof.
  intros Hok Hr. unfold _process_event. destruct (objects s !! r) as [e|]; [|done].
  generalize (_handlers s (event_type e)). intros hs. revert s Hok Hr.
  induction hs as [|h hs IH]; intros s Hok Hr; simpl; [done|].
  destruct (run_handler_ok r h s Hok Hr) as [Hok' Hlen]. apply IH; [done|]. by rewrite Hlen.
Qed.

Lemma worker_step_ok s : queue_ok s -> queue_ok (worker_step s).
Proof.
  intros Hok. unfold worker_step. destruct (_running s); [|done].
  destruct (get_nowait s) as [[r s1]|] eqn:Hget; [|done].
  destruct (get_nowait_ok s r s1 Hok Hget) as (Hok1 & Hobjs & Hr & _).
  apply _process_event_ok; [done|]. by rewrite Hobjs.
Qed.

Lemma step_ok op s : queue_ok s -> queue_ok (step op s).
Proof.
  intros Hok. destruct op; simpl.
  - done.
  - by apply emit_ok.
  - unfold start. by destruct (_running s).
  - unfold stop. by destruct (_running s).
  - by apply worker_step_ok.
Qed.

Lemma init_ok cfg : queue_ok (init cfg).
Proof.
  split; simpl.
  - intros i c p _ Hc. by destruct i.
  - intros r Hr. by apply not_elem_of_nil in Hr.
Qed.

Lemma run_ok ops s : queue_ok s -> queue_ok (run ops s).
Proof.
  revert s; induction ops as [|op ops IH]; intros s Hok; simpl; [done|].
  by apply IH, step_ok.
Qed.

(** X8. Whatever was registered, submitted and processed before, the entry a
    worker takes next is an event of the highest priority (lowest ordinal)
    among the events queued. *)
Theorem worker_takes_most_urgent cfg ops r s' r' e e' :
  get_nowait (run ops (init cfg)) = Some (r, s') ->
  r' ∈ _queue (run ops (init cfg)) ->
  objects (run ops (init cfg)) !! r = Some e ->
  objects (run ops (init cfg)) !! r' = Some e' ->
  (priority_value (priority e) <= priority_value (priority e'))%Z.
Proof.
  intros Hget Hin He He'.
  destruct (get_nowait_ok _ r s' (run_ok ops _ (init_ok cfg)) Hget) as (_ & _ & _ & Hmin).
  specialize (Hmin r' Hin). unfold rank_of in Hmin. by rewrite He, He' in Hmin.
Qed.

End EventLoopSpec.

(** * The state machine *)
Module StateManagerSpec.
Import StateManager.

Implicit Types (s : State) (t : nat) (st : AgentState) (ts : list TaskStatus).

(** *** Callbacks *)

(** Notifying touches nothing but the trace and the log; every callback of
    the list is called, in list order, whatever the earlier ones did. *)
Lemma notify_frame st cbs s :
  let s' := foldl (fun acc callback => notify_one st callback acc) s cbs in
  config s' = config s /\ _state s' = _state s /\
  _sleep_task s' = _sleep_task s /\ tasks s' = tasks s /\
  _callbacks s' = _callbacks s /\
  cb_trace s' = cb_trace s ++ map (fun cb => mkCall (cb_id cb) st (_state s)) cbs.
Proof.
  revert s; induction cbs as [|cb cbs IH]; intros s; simpl.
  - by rewrite app_nil_r.
  - destruct (IH (notify_one st cb s)) as (-> & -> & -> & -> & -> & ->).
    simpl. by rewrite <- app_assoc.
Qed.

Lemma transition_to_same st now s : _state s = st -> transition_to st now s = s.
Proof. intros Heq. unfold transition_to. by rewrite decide_True. Qed.

Lemma transition_to_fields st now s :
  _state s <> st ->
  let s' := transition_to st now s in
  config s' = config s /\ _state s' = st /\
  _sleep_task s' = (if decide (st = BUSY) then None else _sleep_task s) /\
  tasks s' =
    (if decide (st = BUSY) then
       match _sleep_task s with Some t => cancel t (tasks s) | None => tasks s end
     else tasks s) /\
  _callbacks s' = _callbacks s /\
  cb_trace s' = cb_trace s ++ map (fun cb => mkCall (cb_id cb) st st) (_callbacks s st).
Proof.
  intros Hne. unfold transition_to. rewrite decide_False by done.
  unfold _notify_callbacks.
  match goal with |- context [foldl _ ?s1 ?cbs] =>
    destruct (notify_frame st cbs s1) as (-> & -> & -> & -> & -> & ->) end.
  done.
Qed.

(** C9. [transition_to] is defined for each of the nine pairs of a current
    and a new state and never raises.  When the two are equal nothing at all
    changes and no callback is called.  Otherwise the new state is
    committed, and then exactly the callbacks registered for the new state
    are called, in registration order, each with the new state as argument
    and each reading the new state as [current_state]; callbacks that raise
    do not stop the others. *)
Theorem transition_to_fires_destination_callbacks s st now :
  (_state s = st -> transition_to st now s = s) /\
  (_state s <> st ->
     _state (transition_to st now s) = st /\
     _callbacks (transition_to st now s) = _callbacks s /\
     cb_trace (transition_to st now s) =
       cb_trace s ++ map (fun cb => mkCall (cb_id cb) st st) (_callbacks s st)).
Proof.
  split.
  - apply transition_to_same.
  - intros Hne. destruct (transition_to_fields st now s Hne) as (_ & ? & _ & _ & ? & ?).
    done.
Qed.

Lemma transition_to_fires_destination_callbacks_witness :
  transition_to IDLE 5 watched = watched /\
  _state (transition_to BUSY 5 watched) = BUSY /\
  cb_trace (transition_to BUSY 5 watched) = [mkCall 2 BUSY BUSY; mkCall 3 BUSY BUSY].
Proof.
  destruct (transition_to_fires_destination_callbacks watched IDLE 5) as [Hsame _].
  destruct (transition_to_fires_destination_callbacks watched BUSY 5) as [_ Hmove].
  split.
  - apply Hsame. reflexivity.
  - destruct Hmove as (Hst & _ & Htrace); [discriminate|].
    split; [exact Hst | exact Htrace].
Defined.

(** *** The sleep task *)

Lemma cancel_lookup t ts t' :
  cancel t ts !! t' =
    if decide (t = t') then
      match ts !! t with Some Pending => Some Cancelled | o => o end
    else ts !! t'.
Proof.
  unfold cancel. case_decide as Heq.
  - subst t'. destruct (ts !! t) as [[]|] eqn:Ht; try done.
    apply list_lookup_insert_eq. by eapply lookup_lt_Some.
  - destruct (ts !! t) as [[]|] eqn:Ht; try done.
    by apply list_lookup_insert_ne.
Qed.

Lemma cancel_length t ts : length (cancel t ts) = length ts.
Proof. unfold cancel. repeat case_match; try done. apply length_insert. Qed.

(** A task that [cancel] leaves pending was pending and is another task. *)
Lemma cancel_pending t ts t' :
  cancel t ts !! t' = Some Pending -> ts !! t' = Some Pending /\ t <> t'.
Proof.
  rewrite cancel_lookup. case_decide as Heq; [|done].
  subst t'. by destruct (ts !! t) as [[]|].
Qed.

Lemma cancel_sleep_task_length s : length (cancel_sleep_task s) = length (tasks s).
Proof. unfold cancel_sleep_task. destruct (_sleep_task s); [apply cancel_length | done]. Qed.

Lemma transition_to_state st now s : _state (transition_to st now s) = st.
Proof.
  destruct (decide (_state s = st)) as [Heq|Hne].
  - by rewrite transition_to_same.
  - by destruct (transition_to_fields st now s Hne) as (_ & ? & _).
Qed.

Lemma transition_to_config st now s : config (transition_to st now s) = config s.
Proof.
  destruct (decide (_state s = st)) as [Heq|Hne].
  - by rewrite transition_to_same.
  - by destruct (transition_to_fields st now s Hne) as (? & _).
Qed.

Lemma transition_to_tasks st now s :
  tasks (transition_to st now s) =
    if decide (_state s <> st /\ st = BUSY) then cancel_sleep_task s else tasks s.
Proof.
  destruct (decide (_state s = st)) as [Heq|Hne].
  - rewrite transition_to_same by done. by rewrite decide_False by tauto.
  - destruct (transition_to_fields st now s Hne) as (_ & _ & _ & -> & _).
    repeat case_decide; try done; tauto.
Qed.

Lemma transition_to_sleep_task st now s :
  _sleep_task (transition_to st now s) =
    if decide (_state s <> st /\ st = BUSY) then None else _sleep_task s.
Proof.
  destruct (decide (_state s = st)) as [Heq|Hne].
  - rewrite transition_to_same by done. by rewrite decide_False by tauto.
  - destruct (transition_to_fields st now s Hne) as (_ & _ & -> & _).
    repeat case_decide; try done; tauto.
Qed.

Lemma sleep_task_inv_no_pending s :
  sleep_task_inv s -> _state s = BUSY -> no_pending s.
Proof.
  intros [Hown Hbusy] Hst t Ht. apply Hown in Ht. rewrite Hbusy in Ht; done.
Qed.

Lemma cancel_sleep_task_no_pending s :
  sleep_task_inv s -> forall t, cancel_sleep_task s !! t <> Some Pending.
Proof.
  intros [Hown _] t Ht. unfold cancel_sleep_task in Ht.
  destruct (_sleep_task s) as [t0|] eqn:Hcur.
  - apply cancel_pending in Ht as [Ht Hne]. apply Hown in Ht. congruence.
  - apply Hown in Ht. congruence.
Qed.

Lemma transition_to_inv st now s :
  sleep_task_inv s -> sleep_task_inv (transition_to st now s).
Proof.
  intros Hinv. destruct (decide (_state s = st)) as [Heq|Hne].
  { by rewrite transition_to_same. }
  split.
  - intros t. rewrite transition_to_tasks, transition_to_sleep_task.
    case_decide as Hb.
    + intros Ht. by apply cancel_sleep_task_no_pending in Ht.
    + apply Hinv.
  - rewrite transition_to_state, transition_to_sleep_task. intros ->.
    by rewrite decide_True.
Qed.

Lemma _schedule_sleep_inv s :
  sleep_task_inv s -> _state s <> BUSY -> sleep_task_inv (_schedule_sleep s).
Proof.
  intros Hinv Hst. split; [|done].
  intros t Ht. unfold _schedule_sleep in *. simpl in *.
  fold (cancel_sleep_task s) in *. f_equal.
  destruct (decide (t < length (cancel_sleep_task s))) as [Hlt|Hge].
  - rewrite lookup_app_l in Ht by done. by apply cancel_sleep_task_no_pending in Ht.
  - apply lookup_lt_Some in Ht. rewrite length_app in Ht. simpl in Ht. lia.
Qed.

Lemma set_idle_inv now s : sleep_task_inv s -> sleep_task_inv (set_idle now s).
Proof.
  intros Hinv. unfold set_idle. case_match.
  - apply _schedule_sleep_inv; [by apply transition_to_inv|].
    by rewrite transition_to_state.
  - by apply transition_to_inv.
Qed.

Lemma timer_fires_inv t now s : sleep_task_inv s -> sleep_task_inv (timer_fires t now s).
Proof.
  intros Hinv. unfold timer_fires. destruct (tasks s !! t) as [[]|] eqn:Ht; try done.
  pose proof (transition_to_inv SLEEPING now s Hinv) as [Hown Hbusy].
  pose proof (transition_to_state SLEEPING now s) as Hst.
  unfold set_sleeping. split; simpl.
  - intros t' Ht'. apply Hown.
    destruct (decide (t = t')) as [->|Hne].
    + apply lookup_lt_Some in Ht' as Hlt. rewrite length_insert in Hlt.
      by rewrite list_lookup_insert_eq in Ht'.
    + by rewrite list_lookup_insert_ne in Ht'.
  - rewrite Hst. done.
Qed.

Lemma step_inv op now s : sleep_task_inv s -> sleep_task_inv (step op now s).
Proof.
  intros Hinv. destruct op; simpl.
  - exact Hinv.
  - by apply transition_to_inv.
  - by apply transition_to_inv.
  - by apply set_idle_inv.
  - by apply transition_to_inv.
  - unfold wake_if_sleeping. case_match; [by apply set_idle_inv | done].
  - unfold activity, wake_if_sleeping. case_match; simpl; [by apply set_idle_inv | done].
  - by apply timer_fires_inv.
Qed.

Lemma init_inv cfg now : sleep_task_inv (init cfg now).
Proof. split; [intros t Ht; done | done]. Qed.

Lemma run_inv ops s : sleep_task_inv s -> sleep_task_inv (run ops s).
Proof.
  revert s; induction ops as [|[op now] ops IH]; intros s Hinv; simpl; [done|].
  by apply IH, step_inv.
Qed.

Lemma set_idle_config now s : config (set_idle now s) = config s.
Proof.
  unfold set_idle. case_match; simpl; apply transition_to_config.
Qed.

Lemma step_config op now s : config (step op now s) = config s.
Proof.
  destruct op; simpl; try done; try apply transition_to_config.
  - apply set_idle_config.
  - unfold wake_if_sleeping. case_match; [apply set_idle_config | done].
  - unfold activity, wake_if_sleeping. case_match; simpl; [by rewrite set_idle_config | done].
  - unfold timer_fires. repeat case_match; try done. simpl. apply transition_to_config.
Qed.

Lemma run_config ops s : config (run ops s) = config s.
Proof.
  revert s; induction ops as [|[op now] ops IH]; intros s; simpl; [done|].
  by rewrite IH, step_config.
Qed.

Lemma cancel_unfired t0 t ts : unfired t ts -> unfired t (cancel t0 ts).
Proof.
  unfold unfired. rewrite cancel_lookup. case_decide as Heq; [|done].
  subst t0. intros [->| ->]; auto.
Qed.

Lemma cancel_cancelled t0 t ts :
  ts !! t = Some Cancelled -> cancel t0 ts !! t = Some Cancelled.
Proof.
  rewrite cancel_lookup. case_decide as Heq; [|done]. subst t0. by intros ->.
Qed.

Lemma cancel_sleep_task_unfired s t :
  unfired t (tasks s) -> unfired t (cancel_sleep_task s).
Proof. unfold cancel_sleep_task. destruct (_sleep_task s); [apply cancel_unfired | done]. Qed.

Lemma cancel_sleep_task_cancelled s t :
  tasks s !! t = Some Cancelled -> cancel_sleep_task s !! t = Some Cancelled.
Proof. unfold cancel_sleep_task. destruct (_sleep_task s); [apply cancel_cancelled | done]. Qed.

Lemma transition_to_unfired st now s t :
  unfired t (tasks s) -> unfired t (tasks (transition_to st now s)).
Proof.
  rewrite transition_to_tasks. case_decide; [apply cancel_sleep_task_unfired | done].
Qed.

Lemma transition_to_cancelled st now s t :
  tasks s !! t = Some Cancelled -> tasks (transition_to st now s) !! t = Some Cancelled.
Proof.
  rewrite transition_to_tasks. case_decide; [apply cancel_sleep_task_cancelled | done].
Qed.

Lemma set_idle_tasks now s :
  tasks (set_idle now s) =
    if battery_optimization (config s)
    then cancel_sleep_task (transition_to IDLE now s) ++ [Pending]
    else tasks (transition_to IDLE now s).
Proof. unfold set_idle. rewrite transition_to_config. by case_match. Qed.

Lemma set_idle_unfired now s t :
  unfired t (tasks s) -> unfired t (tasks (set_idle now s)).
Proof.
  intros Ht. apply (transition_to_unfired IDLE now) in Ht.
  rewrite set_idle_tasks. case_match; [|done].
  apply cancel_sleep_task_unfired in Ht. unfold unfired in *.
  destruct Ht as [Ht|Ht]; apply lookup_lt_Some in Ht as Hlt;
    rewrite lookup_app_l by done; auto.
Qed.

Lemma set_idle_cancelled now s t :
  tasks s !! t = Some Cancelled -> tasks (set_idle now s) !! t = Some Cancelled.
Proof.
  intros Ht. apply (transition_to_cancelled IDLE now) in Ht.
  rewrite set_idle_tasks. case_match; [|done].
  apply cancel_sleep_task_cancelled in Ht. apply lookup_lt_Some in Ht as Hlt.
  by rewrite lookup_app_l.
Qed.

(** Only its own timer makes a task run to completion. *)
Lemma step_unfired op now s t :
  is_timer_of t (op, now) = false ->
  unfired t (tasks s) -> unfired t (tasks (step op now s)).
Proof.
  intros Hop Ht. destruct op; simpl.
  - done.
  - by apply transition_to_unfired.
  - by apply transition_to_unfired.
  - by apply set_idle_unfired.
  - by apply transition_to_unfired.
  - unfold wake_if_sleeping. case_match; [by apply set_idle_unfired | done].
  - unfold activity, wake_if_sleeping. case_match; simpl; [|done].
    match goal with |- context [set_idle now ?s1] => by apply (set_idle_unfired now s1) end.
  - unfold is_timer_of in Hop. simpl in Hop. apply Nat.eqb_neq in Hop.
    unfold timer_fires. destruct (tasks s !! t0) as [[]|] eqn:Ht0; try done.
    simpl. apply (transition_to_unfired SLEEPING now) in Ht.
    unfold unfired, set_sleeping in *. by rewrite list_lookup_insert_ne.
Qed.

(** A cancelled task stays cancelled, whatever happens. *)
Lemma step_cancelled op now s t :
  tasks s !! t = Some Cancelled -> tasks (step op now s) !! t = Some Cancelled.
Proof.
  intros Ht. destruct op; simpl.
  - done.
  - by apply transition_to_cancelled.
  - by apply transition_to_cancelled.
  - by apply set_idle_cancelled.
  - by apply transition_to_cancelled.
  - unfold wake_if_sleeping. case_match; [by apply set_idle_cancelled | done].
  - unfold activity, wake_if_sleeping. case_match; simpl; [|done].
    match goal with |- context [set_idle now ?s1] => by apply (set_idle_cancelled now s1) end.
  - unfold timer_fires. destruct (tasks s !! t0) as [[]|] eqn:Ht0; try done.
    simpl. unfold set_sleeping.
    rewrite list_lookup_insert_ne by (intros ->; congruence).
    by apply transition_to_cancelled.
Qed.

Lemma run_unfired ops s t :
  Forall (fun op => is_timer_of t op = false) ops ->
  unfired t (tasks s) -> unfired t (tasks (run ops s)).
Proof.
  revert s; induction ops as [|[op now] ops IH]; intros s Hops Ht; simpl; [done|].
  apply Forall_cons in Hops as [Hop Hops]. by apply IH, step_unfired.
Qed.

Lemma run_cancelled ops s t :
  tasks s !! t = Some Cancelled -> tasks (run ops s) !! t = Some Cancelled.
Proof.
  revert s; induction ops as [|[op now] ops IH]; intros s Ht; simpl; [done|].
  by apply IH, step_cancelled.
Qed.

Lemma timer_fires_cancelled t now s :
  tasks s !! t = Some Cancelled -> timer_fires t now s = s.
Proof. intros Ht. unfold timer_fires. by rewrite Ht. Qed.

(** Entering IDLE with battery optimisation on leaves a sleeping task, and
    [_sleep_task] refers to it. *)
Lemma set_idle_schedules now s :
  battery_optimization (config s) = true ->
  _state (set_idle now s) = IDLE /\
  _sleep_task (set_idle now s) = Some (length (tasks s)) /\
  tasks (set_idle now s) !! length (tasks s) = Some Pending.
Proof.
  intros Hopt.
  assert (Hlen : length (cancel_sleep_task (transition_to IDLE now s)) = length (tasks s)).
  { rewrite cancel_sleep_task_length, transition_to_tasks. by rewrite decide_False by (intros [_ ?]; discriminate). }
  split_and!.
  - unfold set_idle. rewrite transition_to_config, Hopt. simpl. apply transition_to_state.
  - unfold set_idle. rewrite transition_to_config, Hopt. simpl.
    fold (cancel_sleep_task (transition_to IDLE now s)). by rewrite Hlen.
  - rewrite set_idle_tasks, Hopt. rewrite lookup_app_r by lia. by rewrite Hlen, Nat.sub_diag.
Qed.

(** C4. Whatever happened before: every transition into BUSY leaves no
    sleep task pending.  In particular, when the manager enters IDLE with
    battery optimisation on, a sleep task is scheduled; if the manager then
    becomes BUSY before that task's timer has fired, the task is cancelled,
    and from then on its timer does nothing at all, so it never causes a
    transition to SLEEPING. *)
Theorem busy_cancels_scheduled_sleep cfg now0 pre mid now1 now2 :
  battery_optimization cfg = true ->
  let s1 := run pre (init cfg now0) in
  let s2 := set_idle now1 s1 in
  let s3 := set_busy now2 (run mid s2) in
  (forall ops now,
     _state (transition_to BUSY now (run ops (init cfg now0))) = BUSY /\
     _sleep_task (transition_to BUSY now (run ops (init cfg now0))) = None /\
     no_pending (transition_to BUSY now (run ops (init cfg now0)))) /\
  exists t,
    _state s2 = IDLE /\ _sleep_task s2 = Some t /\ tasks s2 !! t = Some Pending /\
    (Forall (fun op => is_timer_of t op = false) mid ->
       _state s3 = BUSY /\
       tasks s3 !! t = Some Cancelled /\
       no_pending s3 /\
       forall post now3, timer_fires t now3 (run post s3) = run post s3).
Proof.
  intros Hopt s1 s2 s3.
  assert (Hbusy : forall s now, sleep_task_inv s ->
            _state (transition_to BUSY now s) = BUSY /\
            _sleep_task (transition_to BUSY now s) = None /\
            no_pending (transition_to BUSY now s)).
  { intros s now Hinv. pose proof (transition_to_state BUSY now s) as Hst.
    pose proof (transition_to_inv BUSY now s Hinv) as Hinv'.
    split_and!; [done | by apply Hinv' | by apply sleep_task_inv_no_pending]. }
  split.
  { intros ops now. apply Hbusy, run_inv, init_inv. }
  assert (Hinv1 : sleep_task_inv s1) by apply run_inv, init_inv.
  assert (Hcfg1 : battery_optimization (config s1) = true).
  { subst s1. by rewrite run_config. }
  destruct (set_idle_schedules now1 s1 Hcfg1) as (Hidle & Hcur & Hpend).
  exists (length (tasks s1)). split_and!; try done.
  intros Hmid.
  assert (Hinv2 : sleep_task_inv (run mid s2)) by by apply run_inv, set_idle_inv.
  destruct (Hbusy (run mid s2) now2 Hinv2) as (Hst3 & _ & Hnone).
  assert (Hcancelled : tasks s3 !! length (tasks s1) = Some Cancelled).
  { assert (Hun : unfired (length (tasks s1)) (tasks s3)).
    { apply transition_to_unfired, run_unfired; [done|]. by left. }
    destruct Hun as [Hp|Hc]; [by apply Hnone in Hp | done]. }
  split_and!; try done.
  intros post now3. by apply timer_fires_cancelled, run_cancelled.
Qed.

Lemma busy_cancels_scheduled_sleep_witness :
  tasks (set_busy 40 (run meanwhile (set_idle 10 (run earlier (init default_config 0)))))
    !! 0 = Some Cancelled /\
  _state (timer_fires 0 400
            (set_busy 40 (run meanwhile (set_idle 10 (run earlier (init default_config 0))))))
    = BUSY.
Proof.
  destruct (busy_cancels_scheduled_sleep default_config 0 earlier meanwhile 10 40 eq_refl)
    as [_ (t & _ & Hcur & _ & Hthen)].
  assert (Ht : t = 0) by (vm_compute in Hcur; congruence).
  subst t.
  destruct Hthen as (Hst & Hc & _ & Hnever).
  - repeat constructor.
  - split; [exact Hc|].
    specialize (Hnever [] 400%Z). cbn [run] in Hnever.
    rewrite Hnever. exact Hst.
Defined.

End StateManagerSpec.

(** * The component manager *)
Module MemoryManagerSpec.
Import MemoryManager.

Implicit Types (s : State) (c : ComponentRef) (w : World) (d : Components).

(** *** The dictionary *)

Lemma dict_get_set_eq d key c : dict_get (dict_set d key c) key = Some c.
Proof.
  induction d as [|[k c0] d IH]; simpl.
  - by rewrite decide_True.
  - case_decide as Hk; simpl; [by rewrite decide_True | by rewrite decide_False].
Qed.

(** *** Unloading *)

Lemma is_loaded_spec c : is_loaded c = true <-> _instance c <> PyNone.
Proof. unfold is_loaded. destruct (_instance c); simpl; split; done. Qed.

Lemma unload_not_loaded c w : is_loaded c = false -> unload c w = (c, w).
Proof. unfold is_loaded, unload. by destruct (_instance c). Qed.

Lemma unload_loaded c w : is_loaded c = true -> fst (unload c w) = cleared c.
Proof. unfold is_loaded, unload. by destruct (_instance c). Qed.

(** C6 (as the code has it). The instance reference is not [None]
    exactly when the component is loaded.  Unloading a loaded component
    calls the unload callback, if there is one, exactly once and on the
    instance, and afterwards the reference is [None] and the component is
    not loaded, whether the callback returned or raised an error derived
    from [Exception]; such an error is logged and [unload] still returns
    normally.  Nothing else of the component changes.  A callback that
    raises anything else is not caught: [unload] raises with it, after the
    one call, and the component is left as it was, its instance still
    set. *)
Theorem unload_always_clears_instance c w :
  (is_loaded c = true <-> _instance c <> PyNone) /\
  (is_loaded c = true ->
     fst (unload c w) = cleared c /\
     _instance (fst (unload c w)) = PyNone /\
     is_loaded (fst (unload c w)) = false /\
     effects (snd (unload c w)) =
       effects w
         ++ match _unload_callback c with
            | Some _ => [UnloadCall (name c) (_instance c)]
            | None => []
            end
         ++ [GcCollect] /\
     (forall callback msg,
        _unload_callback c = Some callback ->
        callback (length (effects w)) (_instance c) = Raises msg ->
        (ERROR, "Error unloading " +:+ name c +:+ ": " +:+ msg) ∈ log (snd (unload c w)))) /\
  (forall dispose,
     (forall callback,
        _unload_callback c = Some callback ->
        dispose (length (effects w)) (_instance c)
          = Ends (callback (length (effects w)) (_instance c))) ->
     unload_disposing dispose c w = (Returns tt, fst (unload c w), snd (unload c w))) /\
  (forall dispose callback msg,
     is_loaded c = true ->
     _unload_callback c = Some callback ->
     dispose (length (effects w)) (_instance c) = Escapes msg ->
     unload_disposing dispose c w =
       (Raises msg, c,
        add_effect (UnloadCall (name c) (_instance c))
          (add_log INFO ("Unloading component: " +:+ name c) w))).
Proof.
  split; [apply is_loaded_spec|]. split_and!.
  - intros Hloaded. unfold is_loaded in Hloaded. unfold unload.
    destruct (_instance c) as [|tok] eqn:Hinst; [done|]. simpl.
    split_and!; try done.
    + destruct (_unload_callback c) as [callback|]; simpl; [|done].
      destruct (callback _ _); simpl; by rewrite <- app_assoc.
    + intros callback msg -> Hraise. simpl in *. rewrite Hraise. simpl.
      apply list_elem_of_In. rewrite !in_app_iff. simpl. tauto.
  - intros dispose Hends. unfold unload_disposing, unload.
    destruct (_instance c) as [|tok] eqn:Hinst; [done|].
    destruct (_unload_callback c) as [callback|]; [|done].
    cbn [add_log effects]. rewrite (Hends callback eq_refl).
    by destruct (callback _ _).
  - intros dispose callback msg Hloaded Hcb Hesc. unfold is_loaded in Hloaded.
    unfold unload_disposing. destruct (_instance c) as [|tok] eqn:Hinst; [done|].
    rewrite Hcb. cbn [add_log effects]. by rewrite Hesc.
Qed.

Lemma unload_always_clears_instance_witness :
  _instance (fst (unload stubborn (mkWorld [] []))) = PyNone /\
  effects (snd (unload stubborn (mkWorld [] []))) = [UnloadCall "voice" (PyObj 4); GcCollect].
Proof.
  destruct (unload_always_clears_instance stubborn (mkWorld [] [])) as (_ & Hclear & _).
  destruct Hclear as (_ & Hnone & _ & Heff & _).
  - reflexivity.
  - split; [exact Hnone | exact Heff].
Defined.

(** C6 (as the claim has it) fails: the unload callback of a loaded
    component raises [CancelledError], which is not derived from
    [Exception].  [unload] does not swallow it: it raises, and the
    component is still loaded, its instance not cleared; the collector is
    not run either. *)
Lemma escaping_disposer_keeps_instance :
  fst (fst (unload_disposing (fun _ _ => Escapes "CancelledError") stubborn (mkWorld [] [])))
    = Raises "CancelledError" /\
  _instance
    (snd (fst (unload_disposing (fun _ _ => Escapes "CancelledError") stubborn (mkWorld [] []))))
    = PyObj 4 /\
  is_loaded
    (snd (fst (unload_disposing (fun _ _ => Escapes "CancelledError") stubborn (mkWorld [] []))))
    = true /\
  effects (snd (unload_disposing (fun _ _ => Escapes "CancelledError") stubborn (mkWorld [] [])))
    = [UnloadCall "voice" (PyObj 4)] /\
  ~ (_instance
       (snd (fst (unload_disposing (fun _ _ => Escapes "CancelledError") stubborn
                    (mkWorld [] []))))
     = PyNone).
Proof.
  split_and!; try reflexivity. discriminate.
Qed.

(** *** Loading *)

Lemma load_loaded now c w tok :
  _instance c = PyObj tok -> load now c w = (Returns (PyObj tok), touched now c, w).
Proof. intros Hinst. unfold load, touched. by rewrite Hinst. Qed.

Lemma get_component_loaded name0 now s c tok :
  dict_get (_components s) name0 = Some c ->
  _instance c = PyObj tok ->
  get_component name0 now s =
    (Returns (PyObj tok),
     mkState (config s) (dict_set (_components s) name0 (touched now c))
       (_last_gc_at s) (world s)).
Proof.
  intros Hget Hinst. unfold get_component. rewrite Hget.
  by rewrite (load_loaded now c (world s) tok Hinst).
Qed.

(** Repeated [get_component] on a loaded component: the same object every
    time, no call to the factory, one more access per call. *)
Lemma get_many_loaded name0 times : forall s c tok,
  dict_get (_components s) name0 = Some c ->
  _instance c = PyObj tok ->
  fst (get_many name0 times s) = map (fun _ => Returns (PyObj tok)) times /\
  world (snd (get_many name0 times s)) = world s /\
  exists c',
    dict_get (_components (snd (get_many name0 times s))) name0 = Some c' /\
    _instance c' = PyObj tok /\
    _access_count c' = (_access_count c + Z.of_nat (length times))%Z.
Proof.
  induction times as [|now times IH]; intros s c tok Hget Hinst; simpl.
  - split_and!; try done. exists c. split_and!; try done. lia.
  - rewrite (get_component_loaded name0 now s c tok Hget Hinst).
    match goal with |- context [get_many name0 times ?s1] =>
      destruct (IH s1 (touched now c) tok) as (Hres & Hw & c' & Hget' & Hinst' & Hcount);
      [simpl; apply dict_get_set_eq | done |];
      destruct (get_many name0 times s1) as [ress s2] end.
    simpl in *. split_and!; [by rewrite Hres | done |].
    exists c'. split_and!; [done | done | lia].
Qed.

Lemma get_component_Some name0 now s c :
  dict_get (_components s) name0 = Some c ->
  get_component name0 now s =
    (fst (fst (load now c (world s))),
     mkState (config s) (dict_set (_components s) name0 (snd (fst (load now c (world s)))))
       (_last_gc_at s) (snd (load now c (world s)))).
Proof.
  intros Hget. unfold get_component. rewrite Hget.
  by destruct (load now c (world s)) as [[res c'] w'].
Qed.

(** The load of a component that is not loaded: the factory is called, and
    only an object it returns makes the component loaded. *)
Lemma load_not_loaded now c w :
  _instance c = PyNone ->
  effects (snd (load now c w)) = effects w ++ [FactoryCall (name c)] /\
  name (snd (fst (load now c w))) = name c /\
  _instance (snd (fst (load now c w))) =
    match _factory c (length (effects w)) with
    | Returns v => v
    | Raises _ => PyNone
    end.
Proof.
  intros Hinst. unfold load. rewrite Hinst. cbn [add_log effects].
  by destruct (_factory c (length (effects w))).
Qed.

Lemma factory_calls_snoc name0 w w' :
  effects w' = effects w ++ [FactoryCall name0] ->
  factory_calls name0 w' = S (factory_calls name0 w).
Proof.
  intros Heff. unfold factory_calls. rewrite Heff, filter_app, length_app. simpl.
  rewrite filter_cons, filter_nil, decide_True by done. simpl. lia.
Qed.

(** C5 (as the code has it). A registered component that is not loaded
    is asked for any number of times (at least once) with no unload in
    between.  When its factory returns an object, the factory is called
    exactly once, by the first call; every call returns that same object;
    and the access count has grown by the number of calls, so that five
    calls on a fresh component leave it at five.  When its factory returns
    [None] or raises, the component is still not loaded after the call, and
    the next call calls the factory again. *)
Theorem get_component_loads_once s name0 c now times :
  dict_get (_components s) name0 = Some c ->
  _instance c = PyNone ->
  (forall tok,
     _factory c (length (effects (world s))) = Returns (PyObj tok) ->
     fst (get_many name0 (now :: times) s)
       = map (fun _ => Returns (PyObj tok)) (now :: times) /\
     factory_calls (name c) (world (snd (get_many name0 (now :: times) s)))
       = S (factory_calls (name c) (world s)) /\
     exists c',
       dict_get (_components (snd (get_many name0 (now :: times) s))) name0 = Some c' /\
       _instance c' = PyObj tok /\
       _access_count c' = (_access_count c + Z.of_nat (length (now :: times)))%Z) /\
  (forall now',
     (_factory c (length (effects (world s))) = Returns PyNone \/
      exists msg, _factory c (length (effects (world s))) = Raises msg) ->
     (exists c1,
        dict_get (_components (snd (get_component name0 now s))) name0 = Some c1 /\
        is_loaded c1 = false) /\
     factory_calls (name c)
       (world (snd (get_component name0 now' (snd (get_component name0 now s)))))
       = S (S (factory_calls (name c) (world s)))).
Proof.
  intros Hget Hinst. split.
  - intros tok Hfac.
    assert (Hfirst : get_component name0 now s =
      (Returns (PyObj tok),
       mkState (config s)
         (dict_set (_components s) name0
            (mkComponentRef (name c) (_factory c) (_unload_callback c) (PyObj tok)
               (Some now) (_access_count c + 1) (Some now)))
         (_last_gc_at s)
         (add_log INFO ("Component " +:+ name c +:+ " loaded")
            (add_effect (FactoryCall (name c))
               (add_log INFO ("Loading component: " +:+ name c) (world s)))))).
    { unfold get_component. rewrite Hget. unfold load. rewrite Hinst. simpl.
      by rewrite Hfac. }
    cbn [get_many]. rewrite Hfirst.
    match goal with |- context [get_many name0 times ?s1] =>
      destruct (get_many_loaded name0 times s1
                  (mkComponentRef (name c) (_factory c) (_unload_callback c) (PyObj tok)
                     (Some now) (_access_count c + 1) (Some now)) tok)
        as (Hres & Hw & c' & Hget' & Hinst' & Hcount);
      [simpl; apply dict_get_set_eq | done |];
      destruct (get_many name0 times s1) as [ress s2] end.
    simpl in *. split_and!.
    + by rewrite Hres.
    + rewrite Hw. by apply factory_calls_snoc.
    + exists c'. split_and!; try done. lia.
  - intros now' Hfac.
    destruct (load_not_loaded now c (world s) Hinst) as (Heff & Hname & Hinst1).
    assert (Hnone : _instance (snd (fst (load now c (world s)))) = PyNone).
    { rewrite Hinst1. by destruct Hfac as [->|[msg ->]]. }
    rewrite (get_component_Some name0 now s c Hget). cbn [snd _components world].
    split.
    + eexists. split; [apply dict_get_set_eq|]. unfold is_loaded. by rewrite Hnone.
    + erewrite (get_component_Some name0 now') by (cbn [_components]; apply dict_get_set_eq).
      cbn [snd world].
      destruct (load_not_loaded now' (snd (fst (load now c (world s))))
                  (snd (load now c (world s))) Hnone) as (Heff' & _ & _).
      rewrite Hname in Heff'.
      rewrite (factory_calls_snoc (name c) (snd (load now c (world s))) _ Heff').
      by rewrite (factory_calls_snoc (name c) (world s) _ Heff).
Qed.

Lemma get_component_loads_once_witness :
  fst (get_many "brain" [1; 2; 3; 4; 5]%Z with_brain)
    = [Returns (PyObj 0); Returns (PyObj 0); Returns (PyObj 0);
       Returns (PyObj 0); Returns (PyObj 0)] /\
  factory_calls "brain" (world (snd (get_many "brain" [1; 2; 3; 4; 5]%Z with_brain))) = 1 /\
  exists c',
    dict_get (_components (snd (get_many "brain" [1; 2; 3; 4; 5]%Z with_brain))) "brain"
      = Some c' /\
    _access_count c' = 5%Z.
Proof.
  destruct (get_component_loads_once with_brain "brain"
              (new_component "brain" (fun k => Returns (PyObj k)) None) 1%Z [2; 3; 4; 5]%Z)
    as [Hobject _].
  - reflexivity.
  - reflexivity.
  - destruct (Hobject 0) as (Hres & Hcalls & c' & Hget & _ & Hcount); [reflexivity|].
    split_and!; [exact Hres | exact Hcalls |].
    exists c'. split; [exact Hget | exact Hcount].
Defined.

(** C5 (as the claim has it) fails: a component is registered with a
    factory that returns [None].  Five calls with no unload in between call
    the factory five times, not once; each returns [None], and the access
    count is five. *)
Lemma factory_is_not_always_called_once :
  fst (get_many "brain" [1; 2; 3; 4; 5]%Z with_nothing)
    = [Returns PyNone; Returns PyNone; Returns PyNone; Returns PyNone; Returns PyNone] /\
  factory_calls "brain" (world (snd (get_many "brain" [1; 2; 3; 4; 5]%Z with_nothing))) = 5 /\
  (exists c',
     dict_get (_components (snd (get_many "brain" [1; 2; 3; 4; 5]%Z with_nothing))) "brain"
       = Some c' /\
     _access_count c' = 5%Z) /\
  ~ factory_calls "brain" (world (snd (get_many "brain" [1; 2; 3; 4; 5]%Z with_nothing))) = 1.
Proof.
  assert (Hcalls : factory_calls "brain"
                     (world (snd (get_many "brain" [1; 2; 3; 4; 5]%Z with_nothing))) = 5)
    by (vm_compute; reflexivity).
  split_and!; [reflexivity | exact Hcalls | eexists; split; reflexivity |].
  rewrite Hcalls. discriminate.
Qed.

(** *** The idle sweep *)

Lemma is_idle_spec now threshold c :
  is_idle now threshold c = true <->
  _instance c <> PyNone /\
  match _last_accessed c with
  | Some t => (threshold < now - t)%Z
  | None => True
  end.
Proof.
  unfold is_idle, idle_duration. rewrite andb_true_iff, is_loaded_spec.
  destruct (_last_accessed c); simpl; [by rewrite Z.ltb_lt | tauto].
Qed.

(** What the sweep does to the dictionary and what it returns. *)
Lemma sweep_spec now threshold items : forall w,
  fst (fst (sweep now threshold items w)) =
    map fst (filter (fun item => is_idle now threshold (snd item) = true) items) /\
  snd (fst (sweep now threshold items w)) =
    map (fun item => if is_idle now threshold (snd item)
                     then (fst item, cleared (snd item)) else item) items.
Proof.
  induction items as [|[name0 c] items IH]; intros w; [done|].
  rewrite filter_cons. cbn [sweep snd fst].
  change (is_loaded c && Duration_gt (idle_duration now c) threshold)
    with (is_idle now threshold c).
  destruct (is_idle now threshold c) eqn:Hidle.
  - rewrite decide_True by done.
    assert (Hc : fst (unload c w) = cleared c).
    { apply unload_loaded. by apply andb_true_iff in Hidle as [? _]. }
    destruct (unload c w) as [c' w1]. simpl in Hc. subst c'.
    destruct (IH w1) as [Hnames Hitems].
    destruct (sweep now threshold items w1) as [[names items'] w2].
    cbn [fst snd map] in *. by rewrite Hnames, Hitems, Hidle.
  - rewrite decide_False by done.
    destruct (IH w) as [Hnames Hitems].
    destruct (sweep now threshold items w) as [[names items'] w2].
    cbn [fst snd map] in *. by rewrite Hnames, Hitems, Hidle.
Qed.

Lemma unload_loaded_effects c w :
  is_loaded c = true -> effects (snd (unload c w)) = effects w ++ unload_effects c.
Proof.
  unfold is_loaded, unload, unload_effects. destruct (_instance c); [done|]. intros _.
  destruct (_unload_callback c) as [callback|]; simpl; [|done].
  destruct (callback _ _); simpl; by rewrite <- app_assoc.
Qed.

(** The calls the sweep makes: those of [unload] for each idle component,
    in dictionary order, and no other. *)
Lemma sweep_effects now threshold items : forall w,
  effects (snd (sweep now threshold items w)) =
    effects w ++
    concat (map (fun item => unload_effects (snd item))
                (filter (fun item => is_idle now threshold (snd item) = true) items)).
Proof.
  induction items as [|[name0 c] items IH]; intros w.
  - simpl. by rewrite app_nil_r.
  - rewrite filter_cons. cbn [sweep snd fst].
    change (is_loaded c && Duration_gt (idle_duration now c) threshold)
      with (is_idle now threshold c).
    destruct (is_idle now threshold c) eqn:Hidle.
    + rewrite decide_True by done.
      assert (Heff : effects (snd (unload c w)) = effects w ++ unload_effects c).
      { apply unload_loaded_effects. by apply andb_true_iff in Hidle as [? _]. }
      destruct (unload c w) as [c' w1]. cbn [snd] in Heff.
      specialize (IH w1).
      destruct (sweep now threshold items w1) as [[names items'] w2].
      cbn [fst snd map concat] in *. by rewrite IH, Heff, <- app_assoc.
    + rewrite decide_False by done.
      specialize (IH w).
      destruct (sweep now threshold items w) as [[names items'] w2].
      cbn [fst snd] in *. done.
Qed.

(** C8. The sweep returns exactly the names of the components that are
    loaded and have been idle for longer than the threshold
    ([unload_after_idle_seconds], 300 s by default), in dictionary order.
    Each of these is unloaded by [unload]: its unload callback, if it has
    one, is called once on its instance, the collector runs, its instance
    is cleared and nothing else of it changes.  Every other component, in
    particular a loaded one that was accessed within the threshold, is left
    exactly as it was and nothing is called for it; no name is added to or
    removed from the dictionary. *)
Theorem unload_idle_components_unloads_exactly_the_idle now s :
  let threshold := unload_after_idle_seconds (config s) in
  unload_after_idle_seconds default_config = (300 * 1000000)%Z /\
  (forall name0,
     name0 ∈ fst (unload_idle_components now s) <->
     exists c, (name0, c) ∈ _components s /\ is_idle now threshold c = true) /\
  fst (unload_idle_components now s) =
    map fst (filter (fun item => is_idle now threshold (snd item) = true) (_components s)) /\
  keys (_components (snd (unload_idle_components now s))) = keys (_components s) /\
  (forall i name0 c,
     _components s !! i = Some (name0, c) ->
     _components (snd (unload_idle_components now s)) !! i =
       Some (name0, if is_idle now threshold c then cleared c else c)) /\
  effects (world (snd (unload_idle_components now s))) =
    effects (world s) ++
    concat (map (fun item =>
                   match _unload_callback (snd item) with
                   | Some _ => [UnloadCall (name (snd item)) (_instance (snd item))]
                   | None => []
                   end ++ [GcCollect])
                (filter (fun item => is_idle now threshold (snd item) = true)
                   (_components s))) /\
  (forall c,
     (is_idle now threshold c = true <->
      _instance c <> PyNone /\
      match _last_accessed c with
      | Some t => (threshold < now - t)%Z
      | None => True
      end) /\
     is_loaded (cleared c) = false).
Proof.
  intros threshold.
  assert (Hnames : fst (unload_idle_components now s) =
            map fst (filter (fun item => is_idle now threshold (snd item) = true)
                       (_components s))).
  { unfold unload_idle_components. fold threshold.
    destruct (sweep_spec now threshold (_components s) (world s)) as [Hn _].
    by destruct (sweep now threshold (_components s) (world s)) as [[names items'] w1]. }
  assert (Hitems : _components (snd (unload_idle_components now s)) =
            map (fun item => if is_idle now threshold (snd item)
                             then (fst item, cleared (snd item)) else item)
                (_components s)).
  { unfold unload_idle_components. fold threshold.
    destruct (sweep_spec now threshold (_components s) (world s)) as [_ Hi].
    by destruct (sweep now threshold (_components s) (world s)) as [[names items'] w1]. }
  assert (Heffects : effects (world (snd (unload_idle_components now s))) =
            effects (world s) ++
            concat (map (fun item => unload_effects (snd item))
                        (filter (fun item => is_idle now threshold (snd item) = true)
                           (_components s)))).
  { unfold unload_idle_components. fold threshold.
    pose proof (sweep_effects now threshold (_components s) (world s)) as He.
    destruct (sweep now threshold (_components s) (world s)) as [[names items'] w1].
    cbn [fst snd world] in *. by destruct names. }
  split_and!; try done.
  - intros name0. rewrite Hnames, list_elem_of_fmap. split.
    + intros ([n c] & -> & Hin). apply list_elem_of_filter in Hin as [Hidle Hin]. eauto.
    + intros (c & Hin & Hidle). exists (name0, c). split; [done|].
      by apply list_elem_of_filter.
  - rewrite Hitems. unfold keys. rewrite map_map. apply map_ext.
    intros [n c]. simpl. by destruct (is_idle now threshold c).
  - intros i name0 c Hi. rewrite Hitems.
    change (map ?f ?l) with (f <$> l). rewrite list_lookup_fmap, Hi. simpl.
    by destruct (is_idle now threshold c).
  - intros c. split; [apply is_idle_spec | done].
Qed.

Lemma unload_idle_components_unloads_exactly_the_idle_witness :
  fst (unload_idle_components 400000000 brain_and_voice) = ["brain"] /\
  (exists c, _components (snd (unload_idle_components 400000000 brain_and_voice)) !! 1
               = Some ("voice", c) /\ _instance c = PyObj 1).
Proof.
  destruct (unload_idle_components_unloads_exactly_the_idle 400000000 brain_and_voice)
    as (_ & _ & Hnames & _ & Hat & _).
  split; [exact Hnames|].
  eexists. split; [apply Hat; reflexivity | reflexivity].
Defined.

(** *** Unknown names *)

(** C2 (as the code has it). For a name that is not registered,
    [get_component] returns [None] to its caller, at once and without
    raising; the error is written to the log, no factory is called and no
    component changes.  [get_component] raises only when the name is
    registered, the component is not loaded and its factory raises. *)
Theorem get_component_unregistered_returns_None s name0 now :
  (dict_get (_components s) name0 = None ->
     fst (get_component name0 now s) = Returns PyNone /\
     _components (snd (get_component name0 now s)) = _components s /\
     effects (world (snd (get_component name0 now s))) = effects (world s) /\
     log (world (snd (get_component name0 now s))) =
       log (world s) ++ [(ERROR, "Component " +:+ name0 +:+ " not registered")]) /\
  (forall msg,
     fst (get_component name0 now s) = Raises msg ->
     exists c,
       dict_get (_components s) name0 = Some c /\
       _instance c = PyNone /\
       _factory c (length (effects (world s))) = Raises msg).
Proof.
  split.
  - intros Hget. unfold get_component. by rewrite Hget.
  - intros msg. unfold get_component.
    destruct (dict_get (_components s) name0) as [c|]; [|done].
    unfold load. destruct (_instance c) eqn:Hinst; [|done]. simpl.
    destruct (_factory c (length (effects (world s)))) eqn:Hfac; [done|].
    simpl. intros [= ->]. by exists c.
Qed.

Lemma get_component_unregistered_returns_None_witness :
  fst (get_component "voice" 7 with_brain) = Returns PyNone.
Proof.
  destruct (get_component_unregistered_returns_None with_brain "voice" 7) as [Hnone _].
  apply Hnone. reflexivity.
Defined.

(** C2 (as the claim has it) fails: asking for a name that was never
    registered does not raise.  The caller receives [None], which is also
    what it receives for a registered component whose factory returns
    [None]. *)
Lemma unregistered_get_does_not_raise :
  (~ exists msg, fst (get_component "voice" 7 with_brain) = Raises msg) /\
  fst (get_component "voice" 7 with_brain) =
  fst (get_component "voice" 7
         (snd (register_component "voice" (fun _ => Returns PyNone) None with_brain))).
Proof.
  split; [|reflexivity]. intros [msg Hraise]. discriminate Hraise.
Qed.

End MemoryManagerSpec.

(** * More about the dispatcher *)
Module EventLoopMore.
Import EventLoop EventLoopSpec.

Implicit Types (s : State) (r : nat) (e : Event) (h : Handler).

(** *** What every history keeps *)

(** A successful [put_nowait] touches the queue only, adds one entry, and
    stays within the capacity. *)
Lemma put_nowait_Some r s s' :
  put_nowait r s = Some s' ->
  exists q, s' = set_queue s q /\ length q = S (length (_queue s)) /\
            within_capacity (set_queue s q).
Proof.
  unfold put_nowait. destruct (full s) eqn:Hfull; [done|]. intros [= <-].
  eexists. split; [done|].
  assert (Hlen : length (Heapq.heappush (ref_lt (objects s)) (_queue s) r)
                 = S (length (_queue s))).
  { by rewrite (Permutation_length (HeapqFacts.heappush_perm _ _ _)). }
  split; [done|]. unfold within_capacity. simpl. intros Hpos. rewrite Hlen.
  unfold full in Hfull.
  destruct (Z.leb_spec (max_queue_size (config s)) 0); [lia|].
  apply Z.leb_gt in Hfull. lia.
Qed.

Lemma later_event_refl e : later_event e e.
Proof. unfold later_event. split_and!; try done. Qed.

Lemma later_event_trans e1 e2 e3 :
  later_event e1 e2 -> later_event e2 e3 -> later_event e1 e3.
Proof.
  unfold later_event. intros (-> & -> & -> & -> & -> & -> & ?) (-> & -> & -> & -> & -> & -> & ?).
  split_and!; try done. lia.
Qed.

Lemma keeps_events_refl s : keeps_events s s.
Proof. intros r e He. exists e. split; [done | apply later_event_refl]. Qed.

Lemma keeps_events_trans s1 s2 s3 :
  keeps_events s1 s2 -> keeps_events s2 s3 -> keeps_events s1 s3.
Proof.
  intros H12 H23 r e He. destruct (H12 r e He) as (e2 & He2 & Hl2).
  destruct (H23 r e2 He2) as (e3 & He3 & Hl3). exists e3.
  split; [done | by eapply later_event_trans].
Qed.

Lemma keeps_events_same_objects s s' : objects s' = objects s -> keeps_events s s'.
Proof. intros Ho r e He. exists e. rewrite Ho. split; [done | apply later_event_refl]. Qed.

Lemma keeps_events_bump s r e objs' :
  objects s !! r = Some e -> objs' = <[r := bump e]> (objects s) ->
  forall s', objects s' = objs' -> keeps_events s s'.
Proof.
  intros He -> s' Ho r0 e0 He0. rewrite Ho.
  destruct (decide (r = r0)) as [<-|Hne].
  - exists (bump e). rewrite list_lookup_insert_eq by (by eapply lookup_lt_Some).
    split; [done|]. simplify_eq. unfold later_event, bump. simpl. split_and!; try done. lia.
  - exists e0. rewrite list_lookup_insert_ne by done. split; [done | apply later_event_refl].
Qed.

(** What one failure does to the counters, the queue and the store. *)
Lemma _handle_failure_delta r msg s :
  config (_handle_failure r msg s) = config s /\
  _workers (_handle_failure r msg s) = _workers s /\
  processed (_metrics (_handle_failure r msg s)) = processed (_metrics s) /\
  failed (_metrics (_handle_failure r msg s)) = (failed (_metrics s) + 1)%Z /\
  (retried (_metrics (_handle_failure r msg s)) = retried (_metrics s) /\
     sleeps (_handle_failure r msg s) = sleeps s \/
   retried (_metrics (_handle_failure r msg s)) = (retried (_metrics s) + 1)%Z /\
     length (sleeps (_handle_failure r msg s)) = S (length (sleeps s))) /\
  (dropped (_metrics s) <= dropped (_metrics (_handle_failure r msg s)))%Z /\
  (within_capacity s -> within_capacity (_handle_failure r msg s)) /\
  (retries_ok s -> retries_ok (_handle_failure r msg s)) /\
  keeps_events s (_handle_failure r msg s).
Proof.
  unfold _handle_failure. simpl.
  destruct (objects s !! r) as [e|] eqn:He.
  2:{ split_and!; try done; try lia; try (by left); apply keeps_events_same_objects; done. }
  destruct (Z.ltb_spec (retry_count e) (max_retries e)) as [Hlt|Hge].
  2:{ split_and!; try done; try lia; try (by left); apply keeps_events_same_objects; done. }
  assert (Hretries : forall s', objects s' = <[r := bump e]> (objects s) ->
            retries_ok s -> retries_ok s').
  { intros s' Ho Hok r0 e0. rewrite Ho. intros He0.
    destruct (decide (r = r0)) as [<-|Hne].
    - rewrite list_lookup_insert_eq in He0 by (by eapply lookup_lt_Some).
      destruct (Hok r e He) as [Hmax Hrc]. simplify_eq. simpl. lia.
    - rewrite list_lookup_insert_ne in He0 by done. by apply (Hok r0 e0). }
  assert (Hk : forall s', objects s' = <[r := bump e]> (objects s) -> keeps_events s s').
  { intros s' Ho. by apply (keeps_events_bump s r e _ He eq_refl). }
  destruct (put_nowait r _) as [s5|] eqn:Hput.
  - destruct (put_nowait_Some _ _ _ Hput) as (q & -> & _ & Hcap). simpl.
    split_and!; try done; try lia.
    + right. split; [done|]. rewrite length_app. simpl. lia.
    + intros Hok. by apply Hretries.
    + by apply Hk.
  - simpl. split_and!; try done; try lia.
    + right. split; [done|]. rewrite length_app. simpl. lia.
    + intros Hok. by apply Hretries.
    + by apply Hk.
Qed.

Lemma run_handler_inv r h s :
  loop_inv s -> loop_inv (run_handler r h s) /\ keeps_events s (run_handler r h s).
Proof.
  intros ((Hpf & Hrs & Hrf & Hp & Hd) & Hcap & Hret & Hw). unfold run_handler.
  destruct (objects s !! r) as [e|] eqn:He.
  2:{ split; [done | apply keeps_events_refl]. }
  assert (Hfail : forall msg,
    loop_inv (_handle_failure r msg (add_invocation s (mkInvocation (h_id h) r e))) /\
    keeps_events s (_handle_failure r msg (add_invocation s (mkInvocation (h_id h) r e)))).
  { intros msg.
    destruct (_handle_failure_delta r msg (add_invocation s (mkInvocation (h_id h) r e)))
      as (Hc & Hwk & Hp' & Hf' & Hrt & Hd' & Hcap' & Hret' & Hkeep).
    pose proof (_handle_failure_frame r msg (add_invocation s (mkInvocation (h_id h) r e)))
      as (_ & _ & Hrun & Hinv & _ & _).
    simpl in *. split; [|done]. split_and!.
    - unfold counters_ok. rewrite Hp', Hf', Hinv. simpl. rewrite length_app. simpl.
      split_and!; [lia | | | lia | lia].
      + destruct Hrt as [[-> ->]|[-> ->]]; lia.
      + destruct Hrt as [[-> _]|[-> _]]; lia.
    - by apply Hcap'.
    - by apply Hret'.
    - unfold workers_ok. by rewrite Hwk, Hrun, Hc. }
  destruct (h_run h _ e); [|apply Hfail..].
  split; [|apply keeps_events_same_objects; done].
  split_and!; try done. unfold counters_ok. simpl. rewrite length_app. simpl.
  split_and!; lia.
Qed.

Lemma _process_event_inv r s :
  loop_inv s -> loop_inv (_process_event r s) /\ keeps_events s (_process_event r s).
Proof.
  intros Hinv. unfold _process_event. destruct (objects s !! r) as [e|].
  2:{ split; [done | apply keeps_events_refl]. }
  generalize (_handlers s (event_type e)). intros hs.
  assert (Hgen : forall s0, loop_inv s0 ->
    loop_inv (foldl (fun acc h => run_handler r h acc) s0 hs) /\
    keeps_events s0 (foldl (fun acc h => run_handler r h acc) s0 hs)).
  { induction hs as [|h hs IH]; intros s0 Hinv0; simpl.
    - split; [done | apply keeps_events_refl].
    - destruct (run_handler_inv r h s0 Hinv0) as [Hinv1 Hk1].
      destruct (IH _ Hinv1) as [Hinv2 Hk2]. split; [done | by eapply keeps_events_trans]. }
  by apply Hgen.
Qed.

Lemma get_nowait_inv s r s' :
  loop_inv s -> get_nowait s = Some (r, s') ->
  loop_inv s' /\ objects s' = objects s.
Proof.
  intros (Hc & Hcap & Hret & Hw). unfold get_nowait.
  destruct (Heapq.heappop _ _) as [[r0 q]|] eqn:Hpop; [|done]. intros [= <- <-].
  split; [|done]. split_and!; try done.
  unfold within_capacity in *. simpl. intros Hpos. specialize (Hcap Hpos).
  apply HeapqFacts.heappop_perm, Permutation_length in Hpop. simpl in Hpop. lia.
Qed.

Lemma worker_step_inv s :
  loop_inv s -> loop_inv (worker_step s) /\ keeps_events s (worker_step s).
Proof.
  intros Hinv. unfold worker_step. destruct (_running s).
  2:{ split; [done | apply keeps_events_refl]. }
  destruct (get_nowait s) as [[r s1]|] eqn:Hget.
  2:{ split; [done | apply keeps_events_refl]. }
  destruct (get_nowait_inv s r s1 Hinv Hget) as [Hinv1 Hobjs].
  destruct (_process_event_inv r s1 Hinv1) as [Hinv2 Hk].
  split; [done|]. eapply keeps_events_trans; [|exact Hk].
  by apply keeps_events_same_objects.
Qed.

Lemma emit_inv ty d p now eid s :
  loop_inv s ->
  loop_inv (snd (emit ty d p now eid s)) /\ keeps_events s (snd (emit ty d p now eid s)).
Proof.
  intros (Hc & Hcap & Hret & Hw).
  assert (Hret' : forall s', objects s' = objects s ++ [mkEvent ty d p now 0 3 eid] ->
            retries_ok s').
  { intros s' Ho r e. rewrite Ho. intros He.
    apply lookup_app_Some in He as [He|[_ He]]; [by apply (Hret r e)|].
    apply list_lookup_singleton_Some in He as [_ <-]. simpl. lia. }
  assert (Hkeep : forall s', objects s' = objects s ++ [mkEvent ty d p now 0 3 eid] ->
            keeps_events s s').
  { intros s' Ho r e He. exists e. rewrite Ho.
    split; [by apply lookup_app_l_Some | apply later_event_refl]. }
  unfold emit. destruct (put_nowait _ _) as [s2|] eqn:Hput; simpl.
  - destruct (put_nowait_Some _ _ _ Hput) as (q & -> & _ & Hcap2).
    split; [|by apply Hkeep]. split_and!; [done | done | by apply Hret' | done].
  - split; [|by apply Hkeep]. split_and!; [|done | by apply Hret' | done].
    destruct Hc as (? & ? & ? & ? & ?). unfold counters_ok. simpl. split_and!; try done. lia.
Qed.

Lemma step_inv_loop op s :
  loop_inv s -> loop_inv (step op s) /\ keeps_events s (step op s).
Proof.
  intros Hinv. destruct op; simpl.
  - split; [|apply keeps_events_same_objects; done].
    destruct Hinv as (? & ? & ? & ?). done.
  - by apply emit_inv.
  - split; [|unfold start; destruct (_running s); apply keeps_events_same_objects; done].
    destruct Hinv as (Hc & Hcap & Hret & Hw). unfold start.
    destruct (_running s) eqn:Hrun; [by split_and!; try done; unfold workers_ok; rewrite Hrun|].
    split_and!; try done. unfold workers_ok in *. simpl. rewrite Hrun in Hw. lia.
  - split; [|unfold stop; destruct (_running s); apply keeps_events_same_objects; done].
    destruct Hinv as (Hc & Hcap & Hret & Hw). unfold stop.
    destruct (_running s) eqn:Hrun; [|by split_and!; try done; unfold workers_ok; rewrite Hrun].
    split_and!; done.
  - by apply worker_step_inv.
Qed.

Lemma init_inv_loop cfg : loop_inv (init cfg).
Proof.
  split_and!; try done. unfold within_capacity. simpl. lia.
Qed.

Lemma run_inv_loop ops s :
  loop_inv s -> loop_inv (run ops s) /\ keeps_events s (run ops s).
Proof.
  revert s; induction ops as [|op ops IH]; intros s Hinv; simpl.
  - split; [done | apply keeps_events_refl].
  - destruct (step_inv_loop op s Hinv) as [Hinv1 Hk1].
    destruct (IH _ Hinv1) as [Hinv2 Hk2]. split; [done | by eapply keeps_events_trans].
Qed.

Lemma run_handler_config r h s : config (run_handler r h s) = config s.
Proof.
  unfold run_handler. destruct (objects s !! r) as [e|]; [|done].
  destruct (h_run h _ e); [done| |];
    match goal with |- context [_handle_failure r ?m ?s1] =>
      by destruct (_handle_failure_frame r m s1) as (-> & _) end.
Qed.

Lemma _process_event_config r s : config (_process_event r s) = config s.
Proof.
  unfold _process_event. destruct (objects s !! r) as [e|]; [|done].
  generalize (_handlers s (event_type e)). intros hs. revert s.
  induction hs as [|h hs IH]; intros s; simpl; [done|].
  by rewrite IH, run_handler_config.
Qed.

Lemma step_config_loop op s : config (step op s) = config s.
Proof.
  destruct op; simpl; try done.
  - unfold emit, put_nowait. by destruct (full _).
  - unfold start. by destruct (_running s).
  - unfold stop. by destruct (_running s).
  - unfold worker_step. destruct (_running s); [|done].
    unfold get_nowait. destruct (Heapq.heappop _ _) as [[r q]|]; [|done].
    by rewrite _process_event_config.
Qed.

Lemma run_config_loop ops s : config (run ops s) = config s.
Proof.
  revert s; induction ops as [|op ops IH]; intros s; simpl; [done|].
  by rewrite IH, step_config_loop.
Qed.

(** X1. In every state the loop can reach, the counters never run ahead
    of what happened: [processed] and [failed] together count no more than
    the handler calls that were started (a call is counted when it ends, so
    one that has not ended, or was cancelled, is counted by neither);
    [retried] is the number of back-off sleeps begun and never exceeds
    [failed]; and no counter is negative. *)
Theorem counters_never_exceed_calls cfg ops :
  (processed (get_metrics (run ops (init cfg))) + failed (get_metrics (run ops (init cfg)))
     <= Z.of_nat (length (invocations (run ops (init cfg)))))%Z /\
  retried (get_metrics (run ops (init cfg)))
     = Z.of_nat (length (sleeps (run ops (init cfg)))) /\
  (retried (get_metrics (run ops (init cfg))) <= failed (get_metrics (run ops (init cfg))))%Z /\
  (0 <= processed (get_metrics (run ops (init cfg))))%Z /\
  (0 <= retried (get_metrics (run ops (init cfg))))%Z /\
  (0 <= dropped (get_metrics (run ops (init cfg))))%Z.
Proof.
  destruct (run_inv_loop ops (init cfg) (init_inv_loop cfg))
    as [((Hpf & Hrs & Hrf & Hp & Hd) & _) _].
  unfold get_metrics. split_and!; try done; lia.
Qed.

(** X2. A queue created with a positive [max_queue_size] never holds more
    entries than that, whatever is submitted and however often failed
    events are put back. *)
Theorem queue_never_exceeds_capacity cfg ops :
  (0 < max_queue_size cfg)%Z ->
  (Z.of_nat (get_queue_size (run ops (init cfg))) <= max_queue_size cfg)%Z.
Proof.
  intros Hpos.
  destruct (run_inv_loop ops (init cfg) (init_inv_loop cfg)) as [(_ & Hcap & _) _].
  unfold within_capacity in Hcap. rewrite run_config_loop in Hcap. by apply Hcap.
Qed.

Lemma queue_never_exceeds_capacity_witness :
  (Z.of_nat (get_queue_size (run busy_morning (init (mkConfig 2 1 30 1 60)))) <= 2)%Z.
Proof.
  apply (queue_never_exceeds_capacity (mkConfig 2 1 30 1 60) busy_morning). simpl. lia.
Defined.

(** X3. An event is never retried more often than [max_retries], which is
    3 for every event [emit] builds: in every state the loop can reach, the
    retry count of every event lies between 0 and 3. *)
Theorem retry_count_never_exceeds_max_retries cfg ops r e :
  objects (run ops (init cfg)) !! r = Some e ->
  max_retries e = 3%Z /\ (0 <= retry_count e <= 3)%Z.
Proof.
  intros He.
  destruct (run_inv_loop ops (init cfg) (init_inv_loop cfg)) as [(_ & _ & Hret & _) _].
  destruct (Hret r e He) as [Hmax Hrc]. split; [done | lia].
Qed.

Lemma retry_count_never_exceeds_max_retries_witness :
  exists e, objects (run busy_morning (init default_config)) !! 1 = Some e /\
            (0 <= retry_count e <= 3)%Z.
Proof.
  eexists. split; [reflexivity|].
  eapply (retry_count_never_exceeds_max_retries default_config busy_morning 1).
  reflexivity.
Defined.

(** X4. Once an event is in the store, nothing the loop does changes its
    kind, payload, priority, creation time, identifier or [max_retries];
    only its retry count changes, and that only goes up. *)
Theorem events_only_change_their_retry_count cfg ops ops' r e :
  objects (run ops (init cfg)) !! r = Some e ->
  exists e',
    objects (run ops' (run ops (init cfg))) !! r = Some e' /\
    event_type e' = event_type e /\ data e' = data e /\ priority e' = priority e /\
    timestamp e' = timestamp e /\ max_retries e' = max_retries e /\
    event_id e' = event_id e /\ (retry_count e <= retry_count e')%Z.
Proof.
  intros He.
  destruct (run_inv_loop ops (init cfg) (init_inv_loop cfg)) as [Hinv _].
  destruct (run_inv_loop ops' _ Hinv) as [_ Hkeep].
  destruct (Hkeep r e He) as (e' & He' & Hlater). exists e'. split; [done | exact Hlater].
Qed.

Lemma events_only_change_their_retry_count_witness :
  exists e',
    objects (run [OpWorkerStep] (run busy_morning (init default_config))) !! 1 = Some e' /\
    priority e' = HIGH /\ (1 <= retry_count e')%Z.
Proof.
  destruct (events_only_change_their_retry_count default_config busy_morning [OpWorkerStep] 1
              (mkEvent CALL PyNone HIGH 2 1 3 "evt_2") eq_refl)
    as (e' & He' & _ & _ & Hp & _ & _ & _ & Hrc).
  exists e'. split; [exact He' | split; [exact Hp | exact Hrc]].
Defined.

(** *** Edge cases of processing *)

(** X5. An event whose kind has no handler is taken from the queue and
    dropped without a trace: no handler is called, it is not put back, and
    no counter moves, not even [dropped]. *)
Theorem event_without_handler_vanishes s r s1 e :
  _running s = true ->
  get_nowait s = Some (r, s1) ->
  objects s !! r = Some e ->
  _handlers s (event_type e) = [] ->
  worker_step s = s1 /\
  _queue s ≡ₚ r :: _queue (worker_step s) /\
  get_metrics (worker_step s) = get_metrics s /\
  invocations (worker_step s) = invocations s /\
  objects (worker_step s) = objects s.
Proof.
  intros Hrun Hget He Hnone. unfold worker_step. rewrite Hrun, Hget.
  unfold get_nowait in Hget.
  destruct (Heapq.heappop _ _) as [[r0 q]|] eqn:Hpop; [|done].
  injection Hget as -> <-.
  unfold _process_event. simpl. rewrite He, Hnone. simpl.
  split_and!; try done. by apply HeapqFacts.heappop_perm in Hpop.
Qed.

Lemma event_without_handler_vanishes_witness :
  get_queue_size (worker_step (run three_waiting (init default_config))) = 2 /\
  get_metrics (worker_step (run three_waiting (init default_config))) = mkMetrics 0 0 0 0.
Proof.
  destruct (event_without_handler_vanishes (run three_waiting (init default_config)) 1
              (set_queue (run three_waiting (init default_config)) [2; 0])
              (mkEvent CALL PyNone HIGH 2 0 3 "evt_2"))
    as (Hstep & _ & Hm & _); [reflexivity..|].
  split; [by rewrite Hstep | exact Hm].
Defined.

(** X6. A handler registered for a kind is called on every event of that
    kind after all the handlers registered for it before, and is never
    called on an event of another kind. *)
Theorem registered_handler_runs_last_for_its_kind s ty h r e :
  objects s !! r = Some e ->
  call_ids (invocations (_process_event r (register_handler ty h s))) =
    call_ids (invocations s)
      ++ map (fun h' => (h_id h', r)) (_handlers s (event_type e))
      ++ (if decide (event_type e = ty) then [(h_id h, r)] else []).
Proof.
  intros He. unfold _process_event. simpl. rewrite He.
  unfold call_ids.
  rewrite (run_handlers_trace r _ (register_handler ty h s) e He). simpl.
  f_equal. case_decide; [by rewrite map_app | by rewrite app_nil_r].
Qed.

Lemma registered_handler_runs_last_for_its_kind_witness :
  call_ids (invocations
    (_process_event 0 (register_handler CALL broken_handler two_call_handlers)))
  = [(1, 0); (2, 0); (7, 0)].
Proof.
  apply (registered_handler_runs_last_for_its_kind two_call_handlers CALL broken_handler 0
           (mkEvent CALL PyNone HIGH 0 0 3 "evt_1")).
  reflexivity.
Defined.

(** *** Ties *)

(** Pushing an entry that is smaller than none of the entries leaves the
    list as it is and puts the new entry last. *)
Lemma heappush_not_smaller {A} (lt : A -> A -> bool) (heap : list A) (x : A) :
  (forall y, y ∈ heap -> lt x y = false) ->
  Heapq.heappush lt heap x = heap ++ [x].
Proof.
  intros Hnot. unfold Heapq.heappush, Heapq._siftdown.
  assert (Hx : (heap ++ [x]) !! length heap = Some x)
    by by rewrite lookup_app_r, Nat.sub_diag.
  rewrite Hx. destruct (length heap) as [|n] eqn:Hlen.
  - simpl. by apply list_insert_id.
  - cbn [Heapq._siftdown_loop]. change (0 <? S n) with true. cbv iota.
    assert (Hp : Nat.shiftr (S n - 1) 1 < length heap).
    { rewrite Hlen. pose proof (HeapqFacts.parent_lt (S n)). lia. }
    destruct (lookup_lt_is_Some_2 heap _ Hp) as [y Hy].
    rewrite (lookup_app_l_Some _ _ _ _ Hy).
    rewrite Hnot by (by eapply list_elem_of_lookup_2).
    by apply list_insert_id.
Qed.

Lemma heappop_four_ties {A} (lt : A -> A -> bool) (a b c d : A) :
  lt b c = false -> lt d c = false ->
  Heapq.heappop lt [a; b; c; d] = Some (a, [c; b; d]).
Proof.
  intros Hbc Hdc. unfold Heapq.heappop. simpl.
  unfold Heapq._siftup. simpl. rewrite Hbc. simpl.
  unfold Heapq._siftdown. simpl. by rewrite Hdc.
Qed.

Lemma heappop_head {A} (lt : A -> A -> bool) (a : A) (l : list A) :
  exists rest, Heapq.heappop lt (a :: l) = Some (a, rest).
Proof.
  unfold Heapq.heappop. destruct (last (a :: l)) as [lastelt|] eqn:Hlast.
  - destruct l as [|b l]; [simpl in *; simplify_eq; eauto|].
    change (removelast (a :: b :: l)) with (a :: removelast (b :: l)). eauto.
  - by apply last_None in Hlast.
Qed.

Lemma emit_tied p r0 ty d now eid s :
  tied p r0 s ->
  (max_queue_size (config s) <= 0 \/
   Z.of_nat (length (_queue s)) < max_queue_size (config s))%Z ->
  tied p r0 (snd (emit ty d p now eid s)) /\
  objects (snd (emit ty d p now eid s)) = objects s ++ [mkEvent ty d p now 0 3 eid] /\
  config (snd (emit ty d p now eid s)) = config s.
Proof.
  intros (Hr0 & Hq & Hp) Hroom. unfold emit.
  rewrite put_nowait_room by (by apply full_false). simpl.
  split; [|done]. unfold tied. simpl. split_and!.
  - rewrite length_app. simpl. lia.
  - rewrite heappush_not_smaller.
    + rewrite Hq, length_app. simpl.
      replace (length (objects s) + 1 - r0) with (S (length (objects s) - r0)) by lia.
      rewrite seq_S. do 2 f_equal. lia.
    + intros y Hy. rewrite Hq in Hy. apply list_elem_of_In, in_seq in Hy.
      unfold ref_lt. rewrite lookup_app_r, Nat.sub_diag by lia. simpl.
      destruct (lookup_lt_is_Some_2 (objects s) y ltac:(lia)) as [ey Hey].
      rewrite (lookup_app_l_Some _ _ _ _ Hey).
      unfold Event_lt. simpl. rewrite (Hp y ey ltac:(lia) Hey). apply Z.ltb_irrefl.
  - intros r e Hr He. apply lookup_app_Some in He as [He|[_ He]]; [by apply (Hp r e)|].
    by apply list_lookup_singleton_Some in He as [_ <-].
Qed.

Lemma emit_all_tied p r0 xs : forall s,
  tied p r0 s ->
  (max_queue_size (config s) <= 0 \/
   Z.of_nat (length (_queue s) + length xs) <= max_queue_size (config s))%Z ->
  tied p r0 (emit_all p xs s) /\
  objects (emit_all p xs s) = objects s ++ map (event_of p) xs.
Proof.
  induction xs as [|[[[ty d] now] eid] xs IH]; intros s Htied Hroom.
  - simpl. by rewrite app_nil_r.
  - change (emit_all p ((ty, d, now, eid) :: xs) s)
      with (emit_all p xs (snd (emit ty d p now eid s))).
    simpl in Hroom.
    destruct (emit_tied p r0 ty d now eid s Htied ltac:(lia)) as ((Hr0 & Hq & Hp) & Hobjs & Hcfg).
    destruct (IH (snd (emit ty d p now eid s))) as [Htied' Hobjs'].
    + done.
    + rewrite Hcfg, Hq, Hobjs, length_seq, length_app. simpl.
      destruct Htied as (Hr & Hq0 & _). rewrite Hq0, length_seq in Hroom. lia.
    + split; [done|]. rewrite Hobjs', Hobjs, <- app_assoc. done.
Qed.

(** X7. Events of equal priority are not served first-in first-out. Of
    any four events of one priority submitted to an empty queue that can
    hold them, the first is taken first, but the third is taken before the
    second. *)
Theorem equal_priorities_are_not_first_in_first_out s p x1 x2 x3 x4 :
  _queue s = [] ->
  (max_queue_size (config s) <= 0 \/ 4 <= max_queue_size (config s))%Z ->
  objects (emit_all p [x1; x2; x3; x4] s)
    = objects s ++ [event_of p x1; event_of p x2; event_of p x3; event_of p x4] /\
  exists s1 s2,
    get_nowait (emit_all p [x1; x2; x3; x4] s) = Some (length (objects s), s1) /\
    get_nowait s1 = Some (length (objects s) + 2, s2) /\
    _queue s2 ≡ₚ [length (objects s) + 1; length (objects s) + 3].
Proof.
  intros Hempty Hroom.
  assert (Htied0 : tied p (length (objects s)) s).
  { split_and!; [done | by rewrite Hempty, Nat.sub_diag |].
    intros r e Hr He. apply lookup_lt_Some in He. lia. }
  destruct (emit_all_tied p (length (objects s)) [x1; x2; x3; x4] s Htied0)
    as ((_ & Hq & Hp) & Hobjs).
  { rewrite Hempty. simpl. lia. }
  split; [done|].
  set (s4 := emit_all p [x1; x2; x3; x4] s) in *.
  set (r0 := length (objects s)) in *.
  assert (Hq4 : _queue s4 = [r0; S r0; S (S r0); S (S (S r0))]).
  { rewrite Hq, Hobjs, length_app. unfold r0. simpl.
    replace (length (objects s) + 4 - length (objects s)) with 4 by lia. done. }
  assert (Hties : forall a b, r0 <= a < r0 + 4 -> r0 <= b < r0 + 4 ->
            ref_lt (objects s4) a b = false).
  { intros a b Ha Hb. unfold ref_lt.
    assert (Hlen : length (objects s4) = r0 + 4) by (rewrite Hobjs, length_app; done).
    destruct (lookup_lt_is_Some_2 (objects s4) a ltac:(lia)) as [ea Hea].
    destruct (lookup_lt_is_Some_2 (objects s4) b ltac:(lia)) as [eb Heb].
    rewrite Hea, Heb. unfold Event_lt.
    rewrite (Hp a ea ltac:(lia) Hea), (Hp b eb ltac:(lia) Heb). apply Z.ltb_irrefl. }
  assert (Hget1 : get_nowait s4 = Some (r0, set_queue s4 [S (S r0); S r0; S (S (S r0))])).
  { unfold get_nowait. rewrite Hq4.
    rewrite heappop_four_ties by (apply Hties; lia). done. }
  destruct (heappop_head (ref_lt (objects s4)) (S (S r0)) [S r0; S (S (S r0))])
    as [rest Hpop].
  exists (set_queue s4 [S (S r0); S r0; S (S (S r0))]), (set_queue s4 rest).
  split_and!.
  - done.
  - unfold get_nowait, set_queue. cbn [_queue objects]. rewrite Hpop.
    replace (r0 + 2) with (S (S r0)) by lia. done.
  - simpl. apply HeapqFacts.heappop_perm in Hpop.
    apply Permutation_cons_inv in Hpop. rewrite <- Hpop.
    replace (r0 + 1) with (S r0) by lia. replace (r0 + 3) with (S (S (S r0))) by lia. done.
Qed.

Lemma equal_priorities_are_not_first_in_first_out_witness :
  exists s1 s2,
    get_nowait (emit_all NORMAL four_messages (start (init default_config))) = Some (0, s1) /\
    get_nowait s1 = Some (2, s2).
Proof.
  destruct (equal_priorities_are_not_first_in_first_out (start (init default_config)) NORMAL
              (WHATSAPP, PyObj 1, 10%Z, "evt_a") (TELEGRAM, PyObj 2, 11%Z, "evt_b")
              (WHATSAPP, PyObj 3, 12%Z, "evt_c") (TELEGRAM, PyObj 4, 13%Z, "evt_d"))
    as (_ & s1 & s2 & H1 & H2 & _).
  - reflexivity.
  - right. simpl. lia.
  - exists s1, s2. split; [exact H1 | exact H2].
Defined.

(** The most urgent event is taken first: three events are waiting, of
    low, high and normal priority. *)
Lemma worker_takes_most_urgent_witness :
  (priority_value HIGH <= priority_value LOW)%Z.
Proof.
  apply (worker_takes_most_urgent default_config three_waiting 1
           (set_queue (run three_waiting (init default_config)) [2; 0]) 0
           (mkEvent CALL PyNone HIGH 2 0 3 "evt_2")
           (mkEvent MEMORY PyNone LOW 1 0 3 "evt_1")).
  - reflexivity.
  - apply list_elem_of_In. simpl. tauto.
  - reflexivity.
  - reflexivity.
Defined.

(** *** Back-off *)

Lemma _handle_failure_sleeps r msg s :
  retries_ok s -> sleeps_ok s -> sleeps_ok (_handle_failure r msg s).
Proof.
  intros Hret Hok. unfold _handle_failure. simpl.
  destruct (objects s !! r) as [e|] eqn:He; [|done].
  destruct (Z.ltb_spec (retry_count e) (max_retries e)) as [Hlt|Hge]; [|done].
  destruct (Hret r e He) as [Hmax Hrc].
  assert (Hnew : Forall (fun d => exists k, (1 <= k <= 3)%Z /\ d = retry_delay (config s) k)
                   (sleeps s ++ [backoff (config s) (bump e)])).
  { apply Forall_app. split; [exact Hok|]. apply Forall_singleton.
    exists (retry_count e + 1)%Z. split; [lia | done]. }
  destruct (put_nowait r _) as [s5|] eqn:Hput.
  - destruct (put_nowait_Some _ _ _ Hput) as (q & -> & _ & _). exact Hnew.
  - exact Hnew.
Qed.

Lemma run_handler_sleeps r h s :
  retries_ok s -> sleeps_ok s -> sleeps_ok (run_handler r h s).
Proof.
  intros Hret Hok. unfold run_handler. destruct (objects s !! r) as [e|]; [|done].
  destruct (h_run h _ e); [done| |]; by apply _handle_failure_sleeps.
Qed.

Lemma _process_event_sleeps r s :
  loop_inv s -> sleeps_ok s -> sleeps_ok (_process_event r s).
Proof.
  intros Hinv Hok. unfold _process_event. destruct (objects s !! r) as [e|]; [|done].
  generalize (_handlers s (event_type e)). intros hs. revert s Hinv Hok.
  induction hs as [|h hs IH]; intros s Hinv Hok; simpl; [done|].
  apply IH; [by apply run_handler_inv|].
  apply run_handler_sleeps; [|done]. by destruct Hinv as (_ & _ & Hret & _).
Qed.

Lemma step_sleeps op s : loop_inv s -> sleeps_ok s -> sleeps_ok (step op s).
Proof.
  intros Hinv Hok. destruct op; simpl.
  - done.
  - unfold emit. destruct (put_nowait _ _) as [s2|] eqn:Hput; simpl; [|done].
    by destruct (put_nowait_Some _ _ _ Hput) as (q & -> & _ & _).
  - unfold start. by destruct (_running s).
  - unfold stop. by destruct (_running s).
  - unfold worker_step. destruct (_running s); [|done].
    destruct (get_nowait s) as [[r s1]|] eqn:Hget; [|done].
    destruct (get_nowait_inv s r s1 Hinv Hget) as [Hinv1 _].
    apply _process_event_sleeps; [done|].
    unfold get_nowait in Hget. destruct (Heapq.heappop _ _) as [[r0 q]|]; [|done].
    by injection Hget as _ <-.
Qed.

Lemma run_sleeps ops : forall s, loop_inv s -> sleeps_ok s -> sleeps_ok (run ops s).
Proof.
  induction ops as [|op ops IH]; intros s Hinv Hok; simpl; [done|].
  apply IH; [by apply step_inv_loop | by apply step_sleeps].
Qed.

(** X9. Every delay the loop has slept before a retry is the base delay
    times 1, 2 or 4, for the first, second and third retry of an event,
    cut down to [max_retry_delay_seconds].  So no back-off sleep is longer
    than that maximum, and none is negative when neither setting is. *)
Theorem retry_delays_double_up_to_the_cap cfg ops d :
  d ∈ sleeps (run ops (init cfg)) ->
  (exists k, (1 <= k <= 3)%Z /\
     d = Qmin (retry_delay_seconds cfg * pow2 (k - 1)) (max_retry_delay_seconds cfg)) /\
  (d <= max_retry_delay_seconds cfg)%Q /\
  ((0 <= retry_delay_seconds cfg)%Q -> (0 <= max_retry_delay_seconds cfg)%Q -> (0 <= d)%Q).
Proof.
  intros Hd.
  pose proof (run_sleeps ops (init cfg) (init_inv_loop cfg) (Forall_nil_2 _)) as Hok.
  unfold sleeps_ok in Hok. rewrite run_config_loop in Hok.
  destruct (proj1 (Forall_forall _ _) Hok d Hd) as (k & Hk & ->).
  unfold retry_delay. simpl. split_and!.
  - by exists k.
  - apply Q.le_min_r.
  - intros Hbase Hcap. apply Q.min_glb; [|done].
    apply Qmult_le_0_compat; [done|]. unfold pow2. by apply Qpower_0_le.
Qed.

Lemma retry_delays_double_up_to_the_cap_witness :
  (retry_delay default_config 1 <= 60)%Q.
Proof.
  destruct (retry_delays_double_up_to_the_cap default_config busy_morning
              (retry_delay default_config 1)) as (_ & H & _).
  - apply list_elem_of_In. vm_compute. left. reflexivity.
  - exact H.
Defined.

End EventLoopMore.

(** * More about the state machine *)
Module StateManagerMore.
Import StateManager StateManagerSpec.

Implicit Types (s : State) (t : nat) (st : AgentState) (ts : list TaskStatus).

(** Notifying does not touch the two time stamps. *)
Lemma notify_times st cbs s :
  let s' := foldl (fun acc callback => notify_one st callback acc) s cbs in
  _state_changed_at s' = _state_changed_at s /\ _last_activity_at s' = _last_activity_at s.
Proof.
  revert s; induction cbs as [|cb cbs IH]; intros s; simpl; [done|].
  destruct (IH (notify_one st cb s)) as [-> ->]. done.
Qed.

Lemma transition_to_times st now s :
  _state_changed_at (transition_to st now s)
    = (if decide (_state s = st) then _state_changed_at s else now) /\
  _last_activity_at (transition_to st now s)
    = (if decide (_state s <> st /\ st = BUSY) then now else _last_activity_at s).
Proof.
  unfold transition_to. case_decide as Hst.
  - rewrite decide_False by tauto. done.
  - unfold _notify_callbacks.
    match goal with |- context [foldl _ ?s1 ?cbs] =>
      destruct (notify_times st cbs s1) as [-> ->] end.
    simpl. repeat case_decide; try done; tauto.
Qed.

Lemma transition_to_trace st now s :
  cb_trace (transition_to st now s) =
    cb_trace s ++
    (if decide (_state s = st) then []
     else map (fun cb => mkCall (cb_id cb) st st) (_callbacks s st)).
Proof.
  case_decide as Hst.
  - rewrite transition_to_same by done. by rewrite app_nil_r.
  - by destruct (transition_to_fields st now s Hst) as (_ & _ & _ & _ & _ & ->).
Qed.

(** *** The sleep timer *)

(** X10. However the manager was used, at most one sleep timer is
    pending: a pending task is the one [_sleep_task] refers to, any other
    task was cancelled or has fired, and while the manager is BUSY none is
    pending. *)
Theorem at_most_one_sleep_timer_pending cfg now0 ops t t' :
  tasks (run ops (init cfg now0)) !! t = Some Pending ->
  tasks (run ops (init cfg now0)) !! t' = Some Pending ->
  t = t' /\
  _sleep_task (run ops (init cfg now0)) = Some t /\
  _state (run ops (init cfg now0)) <> BUSY.
Proof.
  intros Ht Ht'.
  destruct (run_inv ops _ (init_inv cfg now0)) as [Hown Hbusy].
  pose proof (Hown _ Ht) as Hcur. pose proof (Hown _ Ht') as Hcur'.
  split_and!; [congruence | done |].
  intros Hst. rewrite (Hbusy Hst) in Hcur. done.
Qed.

Lemma at_most_one_sleep_timer_pending_witness :
  _sleep_task (run restless (init default_config 0)) = Some 1.
Proof.
  destruct (at_most_one_sleep_timer_pending default_config 0 restless 1 1) as (_ & H & _).
  - reflexivity.
  - reflexivity.
  - exact H.
Defined.

Lemma no_timer_step op now s :
  battery_optimization (config s) = false ->
  tasks s = [] /\ _sleep_task s = None ->
  tasks (step op now s) = [] /\ _sleep_task (step op now s) = None.
Proof.
  intros Hopt [Hts Hcur].
  assert (Htr : forall st s0, battery_optimization (config s0) = false ->
            tasks s0 = [] -> _sleep_task s0 = None ->
            tasks (transition_to st now s0) = [] /\ _sleep_task (transition_to st now s0) = None).
  { intros st s0 _ Hts0 Hcur0. rewrite transition_to_tasks, transition_to_sleep_task.
    unfold cancel_sleep_task. rewrite Hcur0, Hts0. by case_decide. }
  assert (Hidle : forall s0, battery_optimization (config s0) = false ->
            tasks s0 = [] -> _sleep_task s0 = None ->
            tasks (set_idle now s0) = [] /\ _sleep_task (set_idle now s0) = None).
  { intros s0 Hopt0 Hts0 Hcur0. unfold set_idle.
    rewrite transition_to_config, Hopt0. by apply Htr. }
  destruct op; simpl; unfold set_busy, set_sleeping; try (by apply Htr).
  - done.
  - by apply Hidle.
  - unfold wake_if_sleeping. case_match; simpl; [by apply Hidle | done].
  - unfold activity, wake_if_sleeping. case_match; simpl; [by apply Hidle | done].
  - unfold timer_fires. by rewrite Hts.
Qed.

(** X11. With battery optimisation switched off no sleep timer is ever
    created, whatever is called: the store of tasks stays empty, and the
    elapsing of any timer changes nothing. *)
Theorem without_battery_optimization_no_timer cfg now0 ops :
  battery_optimization cfg = false ->
  tasks (run ops (init cfg now0)) = [] /\
  _sleep_task (run ops (init cfg now0)) = None /\
  forall t now, timer_fires t now (run ops (init cfg now0)) = run ops (init cfg now0).
Proof.
  intros Hopt.
  assert (Hrun : forall s, battery_optimization (config s) = false ->
            tasks s = [] /\ _sleep_task s = None ->
            tasks (run ops s) = [] /\ _sleep_task (run ops s) = None).
  { induction ops as [|[op now] ops IH]; intros s Hc Hs; simpl; [done|].
    apply IH; [by rewrite step_config | by apply no_timer_step]. }
  destruct (Hrun (init cfg now0) Hopt) as [Hts Hcur]; [done|].
  split_and!; [done | done |].
  intros t now. unfold timer_fires. by rewrite Hts.
Qed.

Lemma without_battery_optimization_no_timer_witness :
  tasks (run restless (init always_on 0)) = [].
Proof.
  destruct (without_battery_optimization_no_timer always_on 0 restless) as (H & _).
  - reflexivity.
  - exact H.
Defined.

(** X12. [wake_if_sleeping] returns whether the manager was sleeping.
    When it was not, nothing changes.  When it was, the manager is IDLE
    afterwards and the callbacks registered for IDLE have been called, in
    order.  In no case is the manager SLEEPING afterwards. *)
Theorem wake_if_sleeping_leaves_sleep now s :
  fst (wake_if_sleeping now s) = is_sleeping s /\
  _state (snd (wake_if_sleeping now s)) <> SLEEPING /\
  (_state s <> SLEEPING -> snd (wake_if_sleeping now s) = s) /\
  (_state s = SLEEPING ->
     _state (snd (wake_if_sleeping now s)) = IDLE /\
     cb_trace (snd (wake_if_sleeping now s)) =
       cb_trace s ++ map (fun cb => mkCall (cb_id cb) IDLE IDLE) (_callbacks s IDLE)).
Proof.
  assert (Hidle : forall s0, _state (set_idle now s0) = IDLE).
  { intros s0. unfold set_idle. case_match; [|apply transition_to_state].
    simpl. apply transition_to_state. }
  assert (Htrace : forall s0, cb_trace (set_idle now s0) = cb_trace (transition_to IDLE now s0)).
  { intros s0. unfold set_idle. by case_match. }
  unfold wake_if_sleeping, is_sleeping. case_bool_decide as Hst; simpl.
  - split_and!; [done | by rewrite Hidle | done |].
    intros _. split; [apply Hidle|].
    rewrite Htrace, transition_to_trace. rewrite decide_False by (rewrite Hst; done). done.
  - split_and!; done.
Qed.

Lemma wake_if_sleeping_leaves_sleep_witness :
  _state (snd (wake_if_sleeping 400 (run asleep (init default_config 0)))) = IDLE.
Proof.
  destruct (wake_if_sleeping_leaves_sleep 400 (run asleep (init default_config 0)))
    as (_ & _ & _ & H).
  destruct H as [H _]; [reflexivity | exact H].
Defined.

Lemma activity_fields now s :
  _last_activity_at (activity now s) = now /\
  _state (activity now s) <> SLEEPING /\
  (_state s <> SLEEPING ->
     _state (activity now s) = _state s /\
     tasks (activity now s) = tasks s /\
     _sleep_task (activity now s) = _sleep_task s /\
     _state_changed_at (activity now s) = _state_changed_at s).
Proof.
  unfold activity, wake_if_sleeping, is_sleeping. simpl.
  case_bool_decide as Hst; simpl.
  - split_and!; [| |done].
    + unfold set_idle. case_match; simpl.
      * rewrite (proj2 (transition_to_times IDLE now _)). simpl.
        by rewrite decide_False by (intros [_ ?]; done).
      * rewrite (proj2 (transition_to_times IDLE now _)). simpl.
        by rewrite decide_False by (intros [_ ?]; done).
    + unfold set_idle. case_match; simpl; by rewrite transition_to_state.
  - done.
Qed.

(** X13. After [activity] the manager is never SLEEPING and its idle
    time, read at the same moment, is zero.  When it was not sleeping, the
    call changes nothing else: the state, the time of the last state change
    and the sleep timer are as before. *)
Theorem activity_ends_sleep_and_idle_time now s :
  _state (activity now s) <> SLEEPING /\
  idle_duration now (activity now s) = 0%Z /\
  (_state s <> SLEEPING ->
     _state (activity now s) = _state s /\
     _state_changed_at (activity now s) = _state_changed_at s /\
     tasks (activity now s) = tasks s /\
     _sleep_task (activity now s) = _sleep_task s).
Proof.
  destruct (activity_fields now s) as (Hlast & Hst & Hrest).
  split_and!; [done | unfold idle_duration; lia |].
  intros Hns. destruct (Hrest Hns) as (? & ? & ? & ?). done.
Qed.

Lemma activity_ends_sleep_and_idle_time_witness :
  tasks (activity 50 (set_idle 10 (init default_config 0))) = [Pending].
Proof.
  destruct (activity_ends_sleep_and_idle_time 50 (set_idle 10 (init default_config 0)))
    as (_ & _ & H).
  destruct H as (_ & _ & H & _); [done | exact H].
Defined.

Lemma activities_fields nows : forall s,
  _state s <> SLEEPING ->
  _state (activities nows s) = _state s /\
  tasks (activities nows s) = tasks s /\
  _sleep_task (activities nows s) = _sleep_task s.
Proof.
  induction nows as [|now nows IH]; intros s Hst; [done|].
  change (activities (now :: nows) s) with (activities nows (activity now s)).
  destruct (activity_fields now s) as (_ & _ & Hrest).
  destruct (Hrest Hst) as (Hs & Hts & Hcur & _).
  destruct (IH (activity now s)) as (-> & -> & ->); [by rewrite Hs|].
  done.
Qed.

(** X14. Activity does not postpone sleep. While the manager is not
    sleeping, calls of [activity] leave a pending sleep timer as it is;
    when the timer elapses the manager goes to SLEEPING, even at the very
    moment of the last activity, when its idle time is zero. *)
Theorem activity_does_not_postpone_sleep s t nows now :
  _state s <> SLEEPING ->
  tasks s !! t = Some Pending ->
  tasks (activities (nows ++ [now]) s) !! t = Some Pending /\
  _state (timer_fires t now (activities (nows ++ [now]) s)) = SLEEPING /\
  idle_duration now (timer_fires t now (activities (nows ++ [now]) s)) = 0%Z.
Proof.
  intros Hst Ht.
  destruct (activities_fields (nows ++ [now]) s Hst) as (Hs & Hts & _).
  assert (Hlast : _last_activity_at (activities (nows ++ [now]) s) = now).
  { unfold activities. rewrite foldl_app. simpl. apply activity_fields. }
  split; [by rewrite Hts|].
  unfold timer_fires. rewrite Hts, Ht. simpl. unfold set_sleeping.
  split; [apply transition_to_state|].
  unfold idle_duration. simpl.
  rewrite (proj2 (transition_to_times SLEEPING now _)).
  rewrite decide_False by (intros [_ ?]; done). lia.
Qed.

Lemma activity_does_not_postpone_sleep_witness :
  _state (timer_fires 0 310 (activities [100; 200; 310]%Z (set_idle 10 (init default_config 0))))
    = SLEEPING.
Proof.
  destruct (activity_does_not_postpone_sleep (set_idle 10 (init default_config 0)) 0
              [100; 200]%Z 310%Z) as (_ & H & _).
  - done.
  - reflexivity.
  - exact H.
Defined.

(** X15. Setting an idle manager idle again calls no callback and leaves
    the time of the last state change alone, but with battery optimisation
    on it restarts the sleep timer: a new task is pending and no earlier
    one is. *)
Theorem set_idle_again_restarts_timer cfg now0 ops now :
  _state (run ops (init cfg now0)) = IDLE ->
  battery_optimization cfg = true ->
  cb_trace (set_idle now (run ops (init cfg now0))) = cb_trace (run ops (init cfg now0)) /\
  _state_changed_at (set_idle now (run ops (init cfg now0)))
    = _state_changed_at (run ops (init cfg now0)) /\
  _sleep_task (set_idle now (run ops (init cfg now0)))
    = Some (length (tasks (run ops (init cfg now0)))) /\
  forall t, tasks (set_idle now (run ops (init cfg now0))) !! t = Some Pending <->
            t = length (tasks (run ops (init cfg now0))).
Proof.
  intros Hst Hopt.
  pose proof (run_inv ops _ (init_inv cfg now0)) as Hinv.
  set (s := run ops (init cfg now0)) in *.
  assert (Hcfg : battery_optimization (config s) = true).
  { unfold s. by rewrite run_config. }
  destruct (set_idle_schedules now s Hcfg) as (_ & Hcur & Hnew).
  assert (Hts : tasks (set_idle now s) = cancel_sleep_task s ++ [Pending]).
  { rewrite set_idle_tasks, Hcfg. by rewrite transition_to_same. }
  split_and!.
  - unfold set_idle. rewrite transition_to_same by done. by rewrite Hcfg.
  - unfold set_idle. rewrite transition_to_same by done. by rewrite Hcfg.
  - done.
  - intros t. split; [|by intros ->].
    intros Ht. rewrite Hts in Ht.
    apply lookup_app_Some in Ht as [Ht|[Hge Ht]].
    + by apply cancel_sleep_task_no_pending in Ht.
    + apply list_lookup_singleton_Some in Ht as [Hz _].
      rewrite cancel_sleep_task_length in *. lia.
Qed.

Lemma set_idle_again_restarts_timer_witness :
  _sleep_task (set_idle 40 (run restless (init default_config 0))) = Some 2.
Proof.
  destruct (set_idle_again_restarts_timer default_config 0 restless 40) as (_ & _ & H & _).
  - reflexivity.
  - reflexivity.
  - exact H.
Defined.

(** X16. When the timer of a pending sleep task elapses the manager is
    SLEEPING afterwards, the callbacks registered for SLEEPING have been
    called if it was not sleeping already, and the task is finished: its
    timer elapsing again changes nothing. *)
Theorem timer_puts_to_sleep_once t now s :
  tasks s !! t = Some Pending ->
  _state (timer_fires t now s) = SLEEPING /\
  tasks (timer_fires t now s) !! t = Some Done /\
  cb_trace (timer_fires t now s) =
    cb_trace s ++
    (if decide (_state s = SLEEPING) then []
     else map (fun cb => mkCall (cb_id cb) SLEEPING SLEEPING) (_callbacks s SLEEPING)) /\
  forall now', timer_fires t now' (timer_fires t now s) = timer_fires t now s.
Proof.
  intros Ht.
  assert (Hts : tasks (timer_fires t now s) = <[t := Done]> (tasks s)).
  { unfold timer_fires. rewrite Ht. simpl. unfold set_sleeping.
    rewrite transition_to_tasks. by rewrite decide_False by (intros [_ ?]; done). }
  assert (Hdone : tasks (timer_fires t now s) !! t = Some Done).
  { rewrite Hts. apply list_lookup_insert_eq. by eapply lookup_lt_Some. }
  split_and!.
  - unfold timer_fires. rewrite Ht. simpl. apply transition_to_state.
  - done.
  - unfold timer_fires. rewrite Ht. simpl. apply transition_to_trace.
  - intros now'. unfold timer_fires at 1. by rewrite Hdone.
Qed.

Lemma timer_puts_to_sleep_once_witness :
  _state (timer_fires 1 330 (run restless (init default_config 0))) = SLEEPING.
Proof.
  destruct (timer_puts_to_sleep_once 1 330 (run restless (init default_config 0))) as (H & _).
  - reflexivity.
  - exact H.
Defined.

End StateManagerMore.

(** * More about the memory manager *)
Module MemoryManagerMore.
Import MemoryManager MemoryManagerSpec.

(** *** The dictionary *)

Lemma dict_get_set_ne d key key' c :
  key <> key' -> dict_get (dict_set d key c) key' = dict_get d key'.
Proof.
  intros Hne. induction d as [|[k c0] d IH]; simpl.
  - by rewrite decide_False.
  - destruct (decide (k = key)) as [->|Hk]; simpl.
    + by rewrite !decide_False.
    + destruct (decide (k = key')); [done | apply IH].
Qed.

Lemma dict_get_None d key : dict_get d key = None <-> key ∉ keys d.
Proof.
  induction d as [|[k c] d IH]; simpl.
  - split; [intros _; apply not_elem_of_nil | done].
  - destruct (decide (k = key)) as [->|Hk].
    + split; [done | intros H; exfalso; apply H; left].
    + rewrite IH, not_elem_of_cons. split; [by intros ? | by intros [_ ?]].
Qed.

Lemma dict_get_elem_of d key c : dict_get d key = Some c -> (key, c) ∈ d.
Proof.
  induction d as [|[k c0] d IH]; simpl; [done|].
  destruct (decide (k = key)) as [->|Hk].
  - intros [= ->]. left.
  - intros H. right. by apply IH.
Qed.

Lemma elem_of_keys d key c : (key, c) ∈ d -> key ∈ keys d.
Proof. intros Hin. by apply (list_elem_of_fmap_2 fst) in Hin. Qed.

Lemma elem_of_dict_get d key c : NoDup (keys d) -> (key, c) ∈ d -> dict_get d key = Some c.
Proof.
  induction d as [|[k c0] d IH]; simpl; intros Hnd Hin.
  - by apply not_elem_of_nil in Hin.
  - apply NoDup_cons in Hnd as [Hk Hnd].
    apply elem_of_cons in Hin as [[= -> ->]|Hin].
    + by rewrite decide_True.
    + destruct (decide (k = key)) as [->|Hne]; [|by apply IH].
      exfalso. apply Hk. by eapply elem_of_keys.
Qed.

Lemma keys_dict_set d key c :
  keys (dict_set d key c) = if decide (key ∈ keys d) then keys d else keys d ++ [key].
Proof.
  induction d as [|[k c0] d IH]; simpl.
  - done.
  - destruct (decide (k = key)) as [->|Hk]; simpl.
    + rewrite decide_True by left. done.
    + rewrite IH. destruct (decide (key ∈ keys d)) as [Hin|Hnin].
      * rewrite decide_True by (by right). done.
      * rewrite decide_False; [done|]. rewrite not_elem_of_cons. naive_solver.
Qed.

Lemma NoDup_keys_dict_set d key c : NoDup (keys d) -> NoDup (keys (dict_set d key c)).
Proof.
  intros Hnd. rewrite keys_dict_set. case_decide as Hin; [done|].
  apply NoDup_app. split_and!; [done | | apply NoDup_singleton].
  intros x Hx Hx'. apply list_elem_of_singleton in Hx'. by subst.
Qed.

Lemma elem_of_dict_set d key c k' c' :
  NoDup (keys d) ->
  (k', c') ∈ dict_set d key c -> (k' = key /\ c' = c) \/ (k' <> key /\ (k', c') ∈ d).
Proof.
  induction d as [|[k c0] d IH]; simpl; intros Hnd.
  - intros H. apply list_elem_of_singleton in H as [= -> ->]. by left.
  - apply NoDup_cons in Hnd as [Hk Hnd]. destruct (decide (k = key)) as [->|Hne].
    + intros H. apply elem_of_cons in H as [[= -> ->]|H]; [by left|].
      right. split; [|by right]. intros ->. apply Hk. by eapply elem_of_keys.
    + intros H. apply elem_of_cons in H as [[= -> ->]|H].
      * right. split; [done | left].
      * destruct (IH Hnd H) as [?|[? ?]]; [by left | right; split; [done | by right]].
Qed.

(** Looking up in a dictionary whose values were mapped, keys kept. *)
Lemma dict_get_map (f : ComponentRef -> ComponentRef) d key :
  dict_get (map (fun item => (fst item, f (snd item))) d) key = f <$> dict_get d key.
Proof.
  induction d as [|[k c] d IH]; simpl; [done|].
  destruct (decide (k = key)); [done | apply IH].
Qed.

(** *** Components *)

Lemma new_component_ok key factory cb : component_ok key (new_component key factory cb).
Proof.
  unfold component_ok. simpl. split_and!; done.
Qed.

Lemma cleared_ok key c : component_ok key c -> component_ok key (cleared c).
Proof.
  intros (Hn & Hc & Hz & Hl & _). unfold component_ok. simpl. split_and!; done.
Qed.

Lemma unload_cases c w :
  (is_loaded c = false /\ unload c w = (c, w)) \/
  (is_loaded c = true /\ fst (unload c w) = cleared c /\
   effects (snd (unload c w)) = effects w ++ unload_effects c).
Proof.
  unfold is_loaded, unload, unload_effects. destruct (_instance c) eqn:Hinst; simpl.
  - by left.
  - right. split_and!; [done | done |].
    destruct (_unload_callback c) as [cb|]; simpl.
    + destruct (cb _ _); simpl; by rewrite <- app_assoc.
    + done.
Qed.

Lemma unload_ok key c w : component_ok key c -> component_ok key (fst (unload c w)).
Proof.
  intros Hok. destruct (unload_cases c w) as [[_ ->]|(_ & -> & _)]; [done|].
  by apply cleared_ok.
Qed.

Lemma load_ok key now c w : component_ok key c -> component_ok key (snd (fst (load now c w))).
Proof.
  intros (Hn & Hc & Hz & Hl & Hload). unfold load.
  destruct (_instance c) eqn:Hinst.
  - destruct (_factory c _); simpl.
    + unfold component_ok. simpl. split_and!; try done; try lia.
      * split; [done | lia].
      * eauto.
    + done.
  - simpl. unfold component_ok. simpl. split_and!; try done; try lia.
    + split; [done | lia].
    + intros Hnone. destruct Hload as (t & t' & _ & Ht'); [by unfold is_loaded; rewrite Hinst|].
      congruence.
    + intros _. destruct Hload as (t & t' & _ & Ht'); [by unfold is_loaded; rewrite Hinst|].
      eauto.
Qed.

Lemma dict_set_ok d key c :
  components_ok d -> component_ok key c -> components_ok (dict_set d key c).
Proof.
  intros [Hnd Hall] Hc. split; [by apply NoDup_keys_dict_set|].
  intros k' c' Hin. apply elem_of_dict_set in Hin as [[-> ->]|[_ Hin]]; [done | by apply Hall | done].
Qed.

Lemma map_ok (f : ComponentRef -> ComponentRef) d :
  (forall key c, component_ok key c -> component_ok key (f c)) ->
  components_ok d ->
  components_ok (map (fun item => (fst item, f (snd item))) d).
Proof.
  intros Hf [Hnd Hall]. split.
  - unfold keys. rewrite map_map. simpl. done.
  - intros k c Hin. apply list_elem_of_fmap in Hin as ([k0 c0] & [= -> ->] & Hin).
    simpl. by apply Hf, Hall.
Qed.

Lemma sweep_components now threshold items w :
  snd (fst (sweep now threshold items w)) =
    map (fun item => (fst item,
                      if is_idle now threshold (snd item) then cleared (snd item)
                      else snd item)) items.
Proof.
  rewrite (proj2 (sweep_spec now threshold items w)).
  apply map_ext. intros [k c]. simpl. by destruct (is_idle now threshold c).
Qed.

(** What [unload_all] does to the dictionary and which calls it makes. *)
Lemma unload_each_spec items : forall w,
  fst (unload_each items w) =
    map (fun item => (fst item,
                      if is_loaded (snd item) then cleared (snd item) else snd item)) items /\
  effects (snd (unload_each items w)) =
    effects w ++
    concat (map (fun item => unload_effects (snd item))
                (filter (fun item => is_loaded (snd item) = true) items)).
Proof.
  induction items as [|[k c] items IH]; intros w.
  - simpl. by rewrite app_nil_r.
  - rewrite filter_cons. cbn [unload_each fst snd].
    destruct (unload_cases c w) as [[Hl Hun]|(Hl & Hc & Heff)].
    + rewrite Hun. destruct (IH w) as [Hitems Heffs].
      destruct (unload_each items w) as [items' w2].
      cbn [fst snd map] in *. rewrite Hl, Hitems, Heffs.
      by rewrite decide_False by done.
    + destruct (unload c w) as [c' w1]. cbn [fst snd] in Hc, Heff. subst c'.
      destruct (IH w1) as [Hitems Heffs].
      destruct (unload_each items w1) as [items' w2].
      cbn [fst snd map] in *. rewrite Hl, Hitems, Heffs, Heff.
      rewrite decide_True by done. cbn [map concat fst snd]. by rewrite <- app_assoc.
Qed.

(** *** What every reachable manager satisfies *)

Lemma get_component_ok name0 now s :
  components_ok (_components s) -> components_ok (_components (snd (get_component name0 now s))).
Proof.
  intros Hok. unfold get_component.
  destruct (dict_get (_components s) name0) as [c|] eqn:Hget; [|done].
  pose proof (load_ok name0 now c (world s)) as Hload.
  destruct (load now c (world s)) as [[res c'] w']. simpl in *.
  apply dict_set_ok; [done|]. apply Hload.
  destruct Hok as [_ Hall]. by apply Hall, dict_get_elem_of.
Qed.

Lemma unload_component_ok name0 s :
  components_ok (_components s) -> components_ok (_components (snd (unload_component name0 s))).
Proof.
  intros Hok. unfold unload_component.
  destruct (dict_get (_components s) name0) as [c|] eqn:Hget; [|done].
  pose proof (unload_ok name0 c (world s)) as Hun.
  destruct (unload c (world s)) as [c' w']. simpl in *.
  apply dict_set_ok; [done|]. apply Hun.
  destruct Hok as [_ Hall]. by apply Hall, dict_get_elem_of.
Qed.

Lemma unload_idle_components_components now s :
  _components (snd (unload_idle_components now s)) =
    snd (fst (sweep now (unload_after_idle_seconds (config s)) (_components s) (world s))).
Proof.
  unfold unload_idle_components.
  by destruct (sweep now (unload_after_idle_seconds (config s)) (_components s) (world s))
    as [[names items] w].
Qed.

Lemma unload_idle_components_ok now s :
  components_ok (_components s) -> components_ok (_components (snd (unload_idle_components now s))).
Proof.
  intros Hok. rewrite unload_idle_components_components, sweep_components.
  apply (map_ok (fun c => if is_idle now _ c then cleared c else c)); [|done].
  intros key c Hc. case_match; [by apply cleared_ok | done].
Qed.

Lemma unload_all_components s :
  _components (unload_all s) = fst (unload_each (_components s) (world s)).
Proof. unfold unload_all. by destruct (unload_each (_components s) (world s)). Qed.

Lemma unload_all_ok s :
  components_ok (_components s) -> components_ok (_components (unload_all s)).
Proof.
  intros Hok. rewrite unload_all_components, (proj1 (unload_each_spec _ _)).
  apply (map_ok (fun c => if is_loaded c then cleared c else c)); [|done].
  intros key c Hc. case_match; [by apply cleared_ok | done].
Qed.

Lemma _trigger_gc_components now done s : _components (_trigger_gc now done s) = _components s.
Proof. unfold _trigger_gc. by case_match. Qed.

Lemma _check_memory_components r now now_gc done m :
  _components (manager (_check_memory r now now_gc done m)) =
    _components (snd (unload_idle_components now (add_world_log DEBUG "Memory" (manager m)))).
Proof.
  unfold _check_memory. cbn [manager]. case_match; [|done]. by rewrite _trigger_gc_components.
Qed.

Lemma step_components_ok op now m :
  components_ok (_components (manager m)) ->
  components_ok (_components (manager (step op now m))).
Proof.
  intros Hok. destruct op; cbn [step on_manager manager].
  - unfold register_component. simpl. apply dict_set_ok; [done | apply new_component_ok].
  - by apply get_component_ok.
  - by apply unload_component_ok.
  - by apply unload_idle_components_ok.
  - by apply unload_all_ok.
  - rewrite _check_memory_components. by apply unload_idle_components_ok.
Qed.

Lemma run_components_ok ops : forall m,
  components_ok (_components (manager m)) ->
  components_ok (_components (manager (run ops m))).
Proof.
  induction ops as [|[op now] ops IH]; intros m Hok; [done|].
  simpl. by apply IH, step_components_ok.
Qed.

Lemma init_components_ok cfg : components_ok (_components (manager (init_monitored cfg))).
Proof.
  split; simpl; [apply NoDup_nil_2|]. intros key c Hin. by apply not_elem_of_nil in Hin.
Qed.

(** X17. However a manager was used, its dictionary has every name
    once, each component under its own name; a component has been accessed
    exactly when its access count is positive; and a loaded component has
    been accessed, so its idle time is a number and never infinite. *)
Theorem components_stay_consistent cfg ops :
  NoDup (keys (_components (manager (run ops (init_monitored cfg))))) /\
  forall key c,
    dict_get (_components (manager (run ops (init_monitored cfg)))) key = Some c ->
    name c = key /\
    (0 <= _access_count c)%Z /\
    (_last_accessed c = None <-> _access_count c = 0%Z) /\
    (is_loaded c = true ->
       exists t, _last_accessed c = Some t /\
                 forall now, idle_duration now c = Finite (now - t)).
Proof.
  destruct (run_components_ok ops _ (init_components_ok cfg)) as [Hnd Hall].
  split; [done|]. intros key c Hget.
  destruct (Hall key c (dict_get_elem_of _ _ _ Hget)) as (Hn & Hc & Hz & _ & Hl).
  split_and!; try done.
  intros Hloaded. destruct (Hl Hloaded) as (t & _ & Ht & _).
  exists t. split; [done|]. intros now. unfold idle_duration. by rewrite Ht.
Qed.

Lemma components_stay_consistent_witness :
  exists t, forall now,
    idle_duration now
      (mkComponentRef "voice" (fun k => Returns (PyObj k)) (Some (fun _ _ => Returns tt))
         (PyObj 5) (Some 401000000%Z) 2 (Some 401000000%Z)) = Finite (now - t).
Proof.
  destruct (components_stay_consistent default_config morning) as [_ H].
  destruct (H "voice" (mkComponentRef "voice" (fun k => Returns (PyObj k))
                         (Some (fun _ _ => Returns tt))
                         (PyObj 5) (Some 401000000%Z) 2 (Some 401000000%Z)))
    as (_ & _ & _ & Hl).
  - reflexivity.
  - destruct Hl as (t & _ & Ht); [reflexivity|]. exists t. exact Ht.
Defined.

(** *** Registering *)

(** X18. [register_component] calls neither a factory nor an unload
    callback.  Afterwards the name stands for a new component that is not
    loaded and has never been accessed, also when the name was registered
    before and its component was loaded: that instance is dropped without
    its unload callback being called.  The other components are untouched,
    and a name that was known keeps its place in the dictionary. *)
Theorem register_component_replaces_silently name0 factory cb s :
  fst (register_component name0 factory cb s) = new_component name0 factory cb /\
  dict_get (_components (snd (register_component name0 factory cb s))) name0
    = Some (new_component name0 factory cb) /\
  is_loaded (new_component name0 factory cb) = false /\
  effects (world (snd (register_component name0 factory cb s))) = effects (world s) /\
  keys (_components (snd (register_component name0 factory cb s)))
    = (if decide (name0 ∈ keys (_components s)) then keys (_components s)
       else keys (_components s) ++ [name0]) /\
  forall other, other <> name0 ->
    dict_get (_components (snd (register_component name0 factory cb s))) other
      = dict_get (_components s) other.
Proof.
  unfold register_component. cbn [fst snd _components world].
  split_and!.
  - done.
  - apply dict_get_set_eq.
  - done.
  - by destruct (dict_get (_components s) name0).
  - apply keys_dict_set.
  - intros other Hne. by apply dict_get_set_ne.
Qed.

Lemma register_component_replaces_silently_witness :
  dict_get (_components (snd (register_component "brain" (fun _ => Returns PyNone) None
                                brain_and_voice))) "voice"
    = dict_get (_components brain_and_voice) "voice".
Proof.
  destruct (register_component_replaces_silently "brain" (fun _ => Returns PyNone) None
              brain_and_voice) as (_ & _ & _ & _ & _ & H).
  apply H. done.
Defined.

Lemma dict_set_same d key c : dict_get d key = Some c -> dict_set d key c = d.
Proof.
  induction d as [|[k c0] d IH]; simpl; [done|].
  destruct (decide (k = key)) as [->|Hk].
  - by intros [= ->].
  - intros H. by rewrite IH.
Qed.

(** *** Unloading by name *)

Lemma unload_component_fields name0 s c :
  dict_get (_components s) name0 = Some c ->
  dict_get (_components (snd (unload_component name0 s))) name0
    = Some (if is_loaded c then cleared c else c) /\
  effects (world (snd (unload_component name0 s)))
    = effects (world s) ++ (if is_loaded c then unload_effects c else []).
Proof.
  intros Hget. unfold unload_component. rewrite Hget.
  destruct (unload_cases c (world s)) as [[Hl Hun]|(Hl & Hc & Heff)].
  - rewrite Hun, Hl. cbn [fst snd _components world].
    split; [apply dict_get_set_eq | by rewrite app_nil_r].
  - destruct (unload c (world s)) as [c' w']. cbn [fst snd _components world] in *.
    subst c'. rewrite Hl. split; [apply dict_get_set_eq | done].
Qed.

(** X19. [unload_component] returns [False] for a name that is not
    registered and changes nothing.  For a registered name it returns
    [True], also when the component was not loaded, in which case nothing
    is called and nothing changes; a loaded component is unloaded.  No other
    component is touched. *)
Theorem unload_component_reports_registration name0 s :
  (dict_get (_components s) name0 = None -> unload_component name0 s = (false, s)) /\
  (forall c, dict_get (_components s) name0 = Some c ->
     fst (unload_component name0 s) = true /\
     dict_get (_components (snd (unload_component name0 s))) name0
       = Some (if is_loaded c then cleared c else c) /\
     effects (world (snd (unload_component name0 s)))
       = effects (world s) ++ (if is_loaded c then unload_effects c else []) /\
     (is_loaded c = false ->
        _components (snd (unload_component name0 s)) = _components s)) /\
  (forall other, other <> name0 ->
     dict_get (_components (snd (unload_component name0 s))) other
       = dict_get (_components s) other).
Proof.
  unfold unload_component. split_and!.
  - by intros ->.
  - intros c Hget. rewrite Hget.
    destruct (unload_cases c (world s)) as [[Hl Hun]|(Hl & Hc & Heff)].
    + rewrite Hun, Hl. cbn [fst snd _components world].
      split_and!; [done | apply dict_get_set_eq | by rewrite app_nil_r |].
      intros _. by apply dict_set_same.
    + destruct (unload c (world s)) as [c' w']. cbn [fst snd _components world] in *.
      subst c'. rewrite Hl. split_and!; [done | apply dict_get_set_eq | done | done].
  - intros other Hne. destruct (dict_get (_components s) name0) as [c|]; [|done].
    destruct (unload c (world s)) as [c' w']. cbn [fst snd _components].
    by apply dict_get_set_ne.
Qed.

Lemma unload_component_reports_registration_witness :
  unload_component "ears" brain_and_voice = (false, brain_and_voice).
Proof.
  destruct (unload_component_reports_registration "ears" brain_and_voice) as (H & _).
  apply H. reflexivity.
Defined.

(** *** Unloading everything *)

(** X20. After [unload_all] no component is loaded.  The loaded
    components were unloaded in dictionary order, each with one call of its
    unload callback, if it has one, and one garbage collection; nothing was
    called for the others.  Names, order and access counts stay. *)
Theorem unload_all_leaves_nothing_loaded s :
  keys (_components (unload_all s)) = keys (_components s) /\
  (forall key c, (key, c) ∈ _components (unload_all s) -> is_loaded c = false) /\
  (forall key,
     dict_get (_components (unload_all s)) key
       = (fun c => if is_loaded c then cleared c else c) <$> dict_get (_components s) key) /\
  (forall key c c', dict_get (_components s) key = Some c ->
     dict_get (_components (unload_all s)) key = Some c' ->
     _access_count c' = _access_count c) /\
  effects (world (unload_all s)) =
    effects (world s) ++
    concat (map (fun item => unload_effects (snd item))
                (filter (fun item => is_loaded (snd item) = true) (_components s))).
Proof.
  destruct (unload_each_spec (_components s) (world s)) as [Hitems Heffs].
  assert (Hget : forall key,
            dict_get (_components (unload_all s)) key
              = (fun c => if is_loaded c then cleared c else c) <$> dict_get (_components s) key).
  { intros key. rewrite unload_all_components, Hitems.
    apply (dict_get_map (fun c => if is_loaded c then cleared c else c)). }
  split_and!.
  - rewrite unload_all_components, Hitems. unfold keys. rewrite map_map. done.
  - intros key c. rewrite unload_all_components, Hitems.
    intros Hin. apply list_elem_of_fmap in Hin as ([k0 c0] & [= -> ->] & _). simpl.
    destruct (is_loaded c0) eqn:Hl; done.
  - done.
  - intros key c c' Hc Hc'. rewrite Hget, Hc in Hc'. simpl in Hc'.
    injection Hc' as <-. by destruct (is_loaded c).
  - unfold unload_all. destruct (unload_each (_components s) (world s)) as [items w1].
    simpl in *. done.
Qed.

Lemma unload_all_leaves_nothing_loaded_witness :
  effects (world (unload_all brain_and_voice))
    = effects (world brain_and_voice) ++ [GcCollect; GcCollect].
Proof.
  destruct (unload_all_leaves_nothing_loaded brain_and_voice) as (_ & _ & _ & _ & H).
  exact H.
Defined.

(** *** Loading *)

Lemma get_component_registered name0 now s c :
  dict_get (_components s) name0 = Some c ->
  get_component name0 now s =
    (fst (fst (load now c (world s))),
     mkState (config s) (dict_set (_components s) name0 (snd (fst (load now c (world s)))))
       (_last_gc_at s) (snd (load now c (world s)))).
Proof.
  intros Hget. unfold get_component. rewrite Hget.
  by destruct (load now c (world s)) as [[res c'] w'].
Qed.

Lemma load_effects now c w :
  effects (snd (load now c w)) =
    effects w ++ (if is_loaded c then [] else [FactoryCall (name c)]).
Proof.
  unfold load, is_loaded. destruct (_instance c); simpl.
  - by destruct (_factory c _).
  - by rewrite app_nil_r.
Qed.

(** A load that calls the factory. *)
Lemma load_unloaded now c w :
  _instance c = PyNone ->
  fst (fst (load now c w)) =
    match _factory c (length (effects w)) with
    | Returns v => Returns v
    | Raises msg => Raises msg
    end /\
  snd (fst (load now c w)) =
    match _factory c (length (effects w)) with
    | Returns v =>
        mkComponentRef (name c) (_factory c) (_unload_callback c) v
          (Some now) (_access_count c + 1) (Some now)
    | Raises _ => c
    end.
Proof.
  intros Hinst. unfold load. rewrite Hinst. cbn [add_log effects].
  by destruct (_factory c (length (effects w))).
Qed.

(** X21. When the factory raises, [get_component] raises with it; the
    factory has been called once and the component is as before, still not
    loaded.  Nothing of the failure is remembered: the next call calls the
    factory again. *)
Theorem failed_load_is_tried_again s name0 c msg now :
  dict_get (_components s) name0 = Some c ->
  _instance c = PyNone ->
  _factory c (length (effects (world s))) = Raises msg ->
  fst (get_component name0 now s) = Raises msg /\
  _components (snd (get_component name0 now s)) = _components s /\
  effects (world (snd (get_component name0 now s)))
    = effects (world s) ++ [FactoryCall (name c)] /\
  forall now',
    effects (world (snd (get_component name0 now' (snd (get_component name0 now s)))))
      = effects (world s) ++ [FactoryCall (name c); FactoryCall (name c)].
Proof.
  intros Hget Hinst Hraise.
  assert (Hl : is_loaded c = false) by (by unfold is_loaded; rewrite Hinst).
  destruct (load_unloaded now c (world s) Hinst) as [Hres Hc]. rewrite Hraise in Hres, Hc.
  assert (Hcomps : _components (snd (get_component name0 now s)) = _components s).
  { rewrite (get_component_registered _ _ _ _ Hget). cbn [snd _components].
    rewrite Hc. by apply dict_set_same. }
  assert (Heff : effects (world (snd (get_component name0 now s)))
                   = effects (world s) ++ [FactoryCall (name c)]).
  { rewrite (get_component_registered _ _ _ _ Hget). cbn [snd world].
    by rewrite load_effects, Hl. }
  split_and!.
  - by rewrite (get_component_registered _ _ _ _ Hget).
  - done.
  - done.
  - intros now'. rewrite (get_component_registered name0 now' _ c) by (by rewrite Hcomps).
    cbn [snd world]. rewrite load_effects, Hl, Heff. by rewrite <- app_assoc.
Qed.

Lemma failed_load_is_tried_again_witness :
  fst (get_component "voice" 5 with_flaky) = Raises "out of memory" /\
  fst (get_component "voice" 6 (snd (get_component "voice" 5 with_flaky)))
    = Returns (PyObj 1).
Proof.
  destruct (failed_load_is_tried_again with_flaky "voice" (new_component "voice" flaky None)
              "out of memory" 5%Z) as (H & _).
  - reflexivity.
  - reflexivity.
  - reflexivity.
  - split; [exact H | reflexivity].
Defined.

(** X22. A loaded component that is unloaded by name and asked for
    again is loaded again: the unload callback and the collector are
    called, then the factory once more, and the call returns the new
    object.  The access count goes on from where it was. *)
Theorem unload_then_get_loads_again s name0 c tok now :
  dict_get (_components s) name0 = Some c ->
  is_loaded c = true ->
  _factory c (length (effects (world (snd (unload_component name0 s))))) = Returns (PyObj tok) ->
  fst (get_component name0 now (snd (unload_component name0 s))) = Returns (PyObj tok) /\
  effects (world (snd (get_component name0 now (snd (unload_component name0 s)))))
    = effects (world s) ++ unload_effects c ++ [FactoryCall (name c)] /\
  exists c',
    dict_get (_components (snd (get_component name0 now (snd (unload_component name0 s)))))
      name0 = Some c' /\
    _instance c' = PyObj tok /\
    _access_count c' = (_access_count c + 1)%Z /\
    _last_accessed c' = Some now /\
    _loaded_at c' = Some now.
Proof.
  intros Hget Hl Hfac.
  destruct (unload_component_fields name0 s c Hget) as (Hc & Heff).
  rewrite Hl in Hc, Heff.
  set (s1 := snd (unload_component name0 s)) in *.
  rewrite (get_component_registered _ _ _ _ Hc). cbn [fst snd world _components].
  destruct (load_unloaded now (cleared c) (world s1) eq_refl) as [Hres Hc'].
  cbn [cleared _factory name _unload_callback _access_count] in Hres, Hc'.
  rewrite Hfac in Hres, Hc'.
  split_and!.
  - done.
  - rewrite load_effects, Heff. simpl. by rewrite <- app_assoc.
  - eexists. split; [apply dict_get_set_eq|]. by rewrite Hc'.
Qed.

Lemma unload_then_get_loads_again_witness :
  fst (get_component "voice" 500000000 (snd (unload_component "voice" brain_and_voice)))
    = Returns (PyObj 3).
Proof.
  destruct (unload_then_get_loads_again brain_and_voice "voice"
              (mkComponentRef "voice" (fun k => Returns (PyObj k)) None (PyObj 1)
                 (Some 200000000%Z) 1 (Some 200000000%Z)) 3 500000000%Z) as (H & _).
  - reflexivity.
  - reflexivity.
  - reflexivity.
  - exact H.
Defined.

(** X23. A factory that returns [None] is never done: the component
    does not count as loaded, so every [get_component] calls the factory
    again and returns [None], while the access count grows with each call. *)
Theorem factory_returning_None_is_called_every_time name0 times : forall s c,
  dict_get (_components s) name0 = Some c ->
  _instance c = PyNone ->
  (forall k, _factory c k = Returns PyNone) ->
  fst (get_many name0 times s) = map (fun _ => Returns PyNone) times /\
  effects (world (snd (get_many name0 times s)))
    = effects (world s) ++ map (fun _ => FactoryCall (name c)) times /\
  exists c',
    dict_get (_components (snd (get_many name0 times s))) name0 = Some c' /\
    is_loaded c' = false /\
    _access_count c' = (_access_count c + Z.of_nat (length times))%Z.
Proof.
  induction times as [|now times IH]; intros s c Hget Hinst Hfac.
  - simpl. rewrite app_nil_r. split_and!; [done | done |].
    exists c. split_and!; [done | by unfold is_loaded; rewrite Hinst | lia].
  - cbn [get_many].
    destruct (load_unloaded now c (world s) Hinst) as [Hres Hc]. rewrite Hfac in Hres, Hc.
    pose proof (get_component_registered name0 now s c Hget) as Hfirst.
    rewrite Hres, Hc in Hfirst.
    destruct (get_component name0 now s) as [res s1]. injection Hfirst as -> ->.
    match goal with |- context [get_many name0 times ?s1] =>
      destruct (IH s1 (mkComponentRef (name c) (_factory c) (_unload_callback c) PyNone
                         (Some now) (_access_count c + 1) (Some now)))
        as (Hress & Heffs & c' & Hget' & Hl' & Hcount');
        [apply dict_get_set_eq | done | done |];
      destruct (get_many name0 times s1) as [ress s2]
    end.
    cbn [fst snd world name _access_count] in *.
    split_and!.
    + by rewrite Hress.
    + rewrite Heffs, load_effects. unfold is_loaded. rewrite Hinst. simpl.
      by rewrite <- app_assoc.
    + exists c'. split_and!; [done | done |]. rewrite Hcount'. simpl length. lia.
Qed.

Lemma factory_returning_None_is_called_every_time_witness :
  effects (world (snd (get_many "brain" [1; 2; 3]%Z with_nothing)))
    = [FactoryCall "brain"; FactoryCall "brain"; FactoryCall "brain"].
Proof.
  destruct (factory_returning_None_is_called_every_time "brain" [1; 2; 3]%Z with_nothing
              (new_component "brain" (fun _ => Returns PyNone) None)) as (_ & H & _).
  - reflexivity.
  - reflexivity.
  - done.
  - exact H.
Defined.

(** *** The idle sweep, again *)

Lemma sweep_none now threshold items : forall w,
  Forall (fun item => is_idle now threshold (snd item) = false) items ->
  sweep now threshold items w = ([], items, w).
Proof.
  induction items as [|[k c] items IH]; intros w Hall; [done|].
  apply Forall_cons in Hall as [Hc Hall]. simpl in Hc.
  cbn [sweep].
  change (is_loaded c && Duration_gt (idle_duration now c) threshold)
    with (is_idle now threshold c).
  by rewrite Hc, (IH w Hall).
Qed.

Lemma cleared_not_idle now threshold c : is_idle now threshold (cleared c) = false.
Proof. done. Qed.

Lemma unload_idle_components_config now s :
  config (snd (unload_idle_components now s)) = config s.
Proof.
  unfold unload_idle_components.
  by destruct (sweep now (unload_after_idle_seconds (config s)) (_components s) (world s))
    as [[names items] w].
Qed.

(** X24. A sweep leaves nothing for a second sweep at the same clock
    reading: the second one returns the empty list, calls nothing, logs
    nothing and leaves the manager as the first one left it. *)
Theorem second_sweep_finds_nothing now s :
  unload_idle_components now (snd (unload_idle_components now s))
    = ([], snd (unload_idle_components now s)).
Proof.
  pose proof (unload_idle_components_components now s) as Hcomps.
  pose proof (unload_idle_components_config now s) as Hcfg.
  rewrite sweep_components in Hcomps.
  set (s1 := snd (unload_idle_components now s)) in *.
  unfold unload_idle_components at 1.
  rewrite sweep_none.
  - by destruct s1.
  - rewrite Hcfg, Hcomps. apply Forall_forall. intros [k c] Hin.
    apply list_elem_of_fmap in Hin as ([k0 c0] & [= -> ->] & _). simpl.
    destruct (is_idle now _ c0) eqn:Hidle; [apply cleared_not_idle | done].
Qed.

Lemma unload_idle_components_names now s :
  fst (unload_idle_components now s) =
    fst (fst (sweep now (unload_after_idle_seconds (config s)) (_components s) (world s))).
Proof.
  unfold unload_idle_components.
  by destruct (sweep now (unload_after_idle_seconds (config s)) (_components s) (world s))
    as [[names items] w].
Qed.

Lemma unload_idle_components_get now s key :
  dict_get (_components (snd (unload_idle_components now s))) key =
    (fun c => if is_idle now (unload_after_idle_seconds (config s)) c then cleared c else c)
      <$> dict_get (_components s) key.
Proof.
  rewrite unload_idle_components_components, sweep_components.
  apply (dict_get_map
           (fun c => if is_idle now (unload_after_idle_seconds (config s)) c
                     then cleared c else c)).
Qed.

(** X25. What a sweep means for the next [get_component].  A loaded
    component that was accessed within the threshold is still loaded: the
    call returns the same object and calls nothing.  One that was idle for
    longer is among the names the sweep returns, and the call calls the
    factory again and returns what the factory returns. *)
Theorem sweep_then_get s name0 c tok t now now' :
  dict_get (_components s) name0 = Some c ->
  _instance c = PyObj tok ->
  _last_accessed c = Some t ->
  ((now - t <= unload_after_idle_seconds (config s))%Z ->
     fst (get_component name0 now' (snd (unload_idle_components now s)))
       = Returns (PyObj tok) /\
     effects (world (snd (get_component name0 now' (snd (unload_idle_components now s)))))
       = effects (world (snd (unload_idle_components now s)))) /\
  ((unload_after_idle_seconds (config s) < now - t)%Z ->
     name0 ∈ fst (unload_idle_components now s) /\
     effects (world (snd (get_component name0 now' (snd (unload_idle_components now s)))))
       = effects (world (snd (unload_idle_components now s))) ++ [FactoryCall (name c)] /\
     forall v,
       _factory c (length (effects (world (snd (unload_idle_components now s))))) = Returns v ->
       fst (get_component name0 now' (snd (unload_idle_components now s))) = Returns v).
Proof.
  intros Hget Hinst Hlast.
  pose proof (unload_idle_components_get now s name0) as Hget1. rewrite Hget in Hget1.
  simpl in Hget1.
  pose proof (is_idle_spec now (unload_after_idle_seconds (config s)) c) as Hidle.
  rewrite Hlast, Hinst in Hidle.
  split.
  - intros Hfresh.
    assert (Hno : is_idle now (unload_after_idle_seconds (config s)) c = false).
    { apply not_true_is_false. rewrite Hidle. lia. }
    rewrite Hno in Hget1.
    rewrite (get_component_loaded _ _ _ _ _ Hget1 Hinst). done.
  - intros Hstale.
    assert (Hyes : is_idle now (unload_after_idle_seconds (config s)) c = true).
    { apply Hidle. split; [done | lia]. }
    rewrite Hyes in Hget1.
    split_and!.
    + rewrite unload_idle_components_names, (proj1 (sweep_spec _ _ _ _)).
      apply list_elem_of_fmap. exists (name0, c). split; [done|].
      apply list_elem_of_filter. split; [done | by apply dict_get_elem_of].
    + rewrite (get_component_registered _ _ _ _ Hget1). cbn [snd world].
      by rewrite load_effects.
    + intros v Hfac. rewrite (get_component_registered _ _ _ _ Hget1). cbn [fst].
      destruct (load_unloaded now' (cleared c) (world (snd (unload_idle_components now s)))
                  eq_refl) as [-> _].
      cbn [cleared _factory]. by rewrite Hfac.
Qed.

Lemma sweep_then_get_witness :
  fst (get_component "voice" 410000000 (snd (unload_idle_components 400000000 brain_and_voice)))
    = Returns (PyObj 1) /\
  "brain" ∈ fst (unload_idle_components 400000000 brain_and_voice).
Proof.
  destruct (sweep_then_get brain_and_voice "voice"
              (mkComponentRef "voice" (fun k => Returns (PyObj k)) None (PyObj 1)
                 (Some 200000000%Z) 1 (Some 200000000%Z)) 1 200000000%Z 400000000%Z
              410000000%Z) as [Hfresh _]; [reflexivity | reflexivity | reflexivity |].
  destruct (sweep_then_get brain_and_voice "brain"
              (mkComponentRef "brain" (fun k => Returns (PyObj k)) None (PyObj 0)
                 (Some 0%Z) 1 (Some 0%Z)) 0 0%Z 400000000%Z
              410000000%Z) as [_ Hstale]; [reflexivity | reflexivity | reflexivity |].
  split.
  - apply Hfresh. vm_compute. discriminate.
  - apply Hstale. reflexivity.
Defined.

(** *** Monitoring *)

Lemma step_last_gc op now m :
  is_check (op, now) = false ->
  _last_gc_at (manager (step op now m)) = _last_gc_at (manager m).
Proof.
  destruct op; cbn [step on_manager manager is_check fst]; intros Hop; try done.
  - unfold get_component. destruct (dict_get _ _); [|done].
    by destruct (load now c (world (manager m))) as [[res c'] w'].
  - unfold unload_component. destruct (dict_get _ _); [|done].
    by destruct (unload c (world (manager m))) as [c' w'].
  - unfold unload_idle_components. by destruct (sweep _ _ _ _) as [[names items] w].
  - unfold unload_all. by destruct (unload_each _ _).
Qed.

Lemma run_last_gc ops : forall m,
  Forall (fun op => is_check op = false) ops ->
  _last_gc_at (manager (run ops m)) = _last_gc_at (manager m).
Proof.
  induction ops as [|[op now] ops IH]; intros m Hops; [done|].
  apply Forall_cons in Hops as [Hop Hops]. simpl.
  rewrite IH by done. by apply step_last_gc.
Qed.

(** X26. [_trigger_gc] collects at most once in 30 seconds, whatever
    the manager is used for in between.  After a collection recorded at
    [done], a call that reads the clock less than 30 s later does nothing
    at all; one that reads it later collects again, once, and records its
    own time. *)
Theorem gc_is_not_repeated_within_30_seconds m now done ops now2 done2 :
  too_soon now (manager m) = false ->
  Forall (fun op => is_check op = false) ops ->
  collections (world (_trigger_gc now done (manager m)))
    = S (collections (world (manager m))) /\
  ((now2 - done < 30 * 1000000)%Z ->
     _trigger_gc now2 done2 (manager (run ops (on_manager (_trigger_gc now done) m)))
       = manager (run ops (on_manager (_trigger_gc now done) m))) /\
  ((30 * 1000000 <= now2 - done)%Z ->
     _last_gc_at
       (_trigger_gc now2 done2 (manager (run ops (on_manager (_trigger_gc now done) m))))
       = Some done2 /\
     collections
       (world (_trigger_gc now2 done2 (manager (run ops (on_manager (_trigger_gc now done) m)))))
       = S (collections (world (manager (run ops (on_manager (_trigger_gc now done) m)))))).
Proof.
  intros Hfirst Hops.
  assert (Hcollect : forall n d s, too_soon n s = false ->
            _last_gc_at (_trigger_gc n d s) = Some d /\
            collections (world (_trigger_gc n d s)) = S (collections (world s))).
  { intros n d s Hs. unfold _trigger_gc. rewrite Hs. split; [done|].
    unfold collections. simpl. rewrite filter_app, length_app. simpl. lia. }
  destruct (Hcollect now done (manager m) Hfirst) as [Hgc Hcount].
  pose proof (run_last_gc ops (on_manager (_trigger_gc now done) m) Hops) as Hkeep.
  cbn [on_manager manager] in Hkeep. rewrite Hgc in Hkeep.
  split_and!.
  - done.
  - intros Hsoon. unfold _trigger_gc at 1. unfold too_soon. rewrite Hkeep.
    by rewrite (proj2 (Z.ltb_lt _ _) Hsoon).
  - intros Hlate. apply Hcollect. unfold too_soon. rewrite Hkeep.
    apply Z.ltb_ge. lia.
Qed.

Lemma gc_is_not_repeated_within_30_seconds_witness :
  _trigger_gc 20000000 20000001 (_trigger_gc 0 1 (init default_config))
    = _trigger_gc 0 1 (init default_config).
Proof.
  destruct (gc_is_not_repeated_within_30_seconds (init_monitored default_config) 0 1 []
              20000000 20000001) as (_ & H & _).
  - reflexivity.
  - apply Forall_nil_2.
  - apply H. reflexivity.
Defined.

Lemma _check_memory_peak r now now_gc done m :
  (_peak_memory_mb m <= _peak_memory_mb (_check_memory r now now_gc done m))%Q /\
  (rss_mb r <= _peak_memory_mb (_check_memory r now now_gc done m))%Q /\
  (_peak_memory_mb (_check_memory r now now_gc done m) = _peak_memory_mb m \/
   _peak_memory_mb (_check_memory r now now_gc done m) = rss_mb r).
Proof.
  unfold _check_memory. cbn [_peak_memory_mb get_memory_usage fst].
  destruct (Qlt_le_dec (_peak_memory_mb m) (rss_mb r)) as [Hlt|Hle].
  - split_and!; [by apply Qlt_le_weak | apply Qle_refl | by right].
  - split_and!; [apply Qle_refl | done | by left].
Qed.

(** X27. The peak the monitor records never goes down and is at least
    the resident size read by every check so far; it is the value the
    manager started with or one of these readings. *)
Theorem peak_memory_is_the_largest_reading ops : forall m,
  (_peak_memory_mb m <= _peak_memory_mb (run ops m))%Q /\
  (forall r now_gc done now,
     (OpCheckMemory r now_gc done, now) ∈ ops ->
     (rss_mb r <= _peak_memory_mb (run ops m))%Q) /\
  (_peak_memory_mb (run ops m) = _peak_memory_mb m \/
   exists r now_gc done now,
     (OpCheckMemory r now_gc done, now) ∈ ops /\ _peak_memory_mb (run ops m) = rss_mb r).
Proof.
  induction ops as [|[op now] ops IH]; intros m.
  - simpl. split_and!; [apply Qle_refl | | by left].
    intros r now_gc done now Hin. by apply not_elem_of_nil in Hin.
  - cbn [run]. destruct (IH (step op now m)) as (Hmono & Hall & Hone).
    assert (Hstep : (_peak_memory_mb m <= _peak_memory_mb (step op now m))%Q /\
              (_peak_memory_mb (step op now m) = _peak_memory_mb m \/
               exists r now_gc done, op = OpCheckMemory r now_gc done /\
                 (rss_mb r <= _peak_memory_mb (step op now m))%Q /\
                 (_peak_memory_mb (step op now m) = _peak_memory_mb m \/
                  _peak_memory_mb (step op now m) = rss_mb r))).
    { destruct op; cbn [step on_manager _peak_memory_mb];
        try (split; [apply Qle_refl | by left]).
      destruct (_check_memory_peak r now now_gc done m) as (H1 & H2 & H3).
      split; [done|]. right. by exists r, now_gc, done. }
    destruct Hstep as [Hup Hcase].
    split_and!.
    + by eapply Qle_trans.
    + intros r now_gc done now1 Hin. apply elem_of_cons in Hin as [[= <- <-]|Hin].
      * destruct (_check_memory_peak r now1 now_gc done m) as (_ & Hr & _).
        eapply Qle_trans; [exact Hr | exact Hmono].
      * by eapply Hall.
    + destruct Hone as [Heq|(r & g & d & n & Hin & Heq)].
      * rewrite Heq. destruct Hcase as [Hsame|(r & g & d & -> & _ & [Hsame|Hnew])].
        -- by left.
        -- by left.
        -- right. exists r, g, d, now. split; [left | done].
      * right. exists r, g, d, n. split; [by right | done].
Qed.

Lemma peak_memory_is_the_largest_reading_witness :
  (180 <= _peak_memory_mb (run morning (init_monitored default_config)))%Q.
Proof.
  destruct (peak_memory_is_the_largest_reading morning (init_monitored default_config))
    as (_ & H & _).
  apply (H tight 60000000%Z 60000001%Z 60000000%Z).
  apply list_elem_of_In. simpl. tauto.
Defined.

End MemoryManagerMore.

(** * The daemon *)
Module DaemonSpec.
Import Daemon.

Implicit Types (d : State) (mm : MemoryManager.Monitored) (sm : StateManager.State).

(** *** The callbacks at work *)

Lemma on_sleep_nothing_loaded mm : nothing_loaded (on_sleep mm).
Proof.
  intros key c. unfold on_sleep. cbn [MemoryManager.on_manager MemoryManager.manager].
  rewrite MemoryManagerMore.unload_all_components,
    (proj1 (MemoryManagerMore.unload_each_spec _ _)).
  rewrite (MemoryManagerMore.dict_get_map
             (fun c => if MemoryManager.is_loaded c then MemoryManager.cleared c else c)).
  destruct (MemoryManager.dict_get _ key) as [c0|]; [|done].
  simpl. intros [= <-]. by destruct (MemoryManager.is_loaded c0) eqn:Hl.
Qed.

Lemma replay_nothing_loaded calls : forall mm,
  nothing_loaded mm \/
    (exists call, call ∈ calls /\ StateManager.cc_id call = StateManager.cb_id _on_sleep) ->
  nothing_loaded (replay calls mm).
Proof.
  induction calls as [|call calls IH]; intros mm Hcase.
  - destruct Hcase as [H|(call & Hin & _)]; [done | by apply not_elem_of_nil in Hin].
  - change (replay (call :: calls) mm)
      with (replay calls
              (if Nat.eqb (StateManager.cc_id call) (StateManager.cb_id _on_sleep)
               then on_sleep mm else mm)).
    apply IH.
    destruct (Nat.eqb (StateManager.cc_id call) (StateManager.cb_id _on_sleep)) eqn:Hid.
    + left. apply on_sleep_nothing_loaded.
    + destruct Hcase as [H|(call' & Hin & Hid')]; [by left|].
      apply elem_of_cons in Hin as [->|Hin].
      * apply Nat.eqb_neq in Hid. done.
      * right. by exists call'.
Qed.

(** The calls a state manager operation made, read off its trace. *)
Lemma with_callbacks_transition st now d :
  state_manager (with_callbacks (StateManager.transition_to st now) d)
    = StateManager.transition_to st now (state_manager d) /\
  memory_manager (with_callbacks (StateManager.transition_to st now) d)
    = replay (if decide (StateManager._state (state_manager d) = st) then []
              else map (fun cb => StateManager.mkCall (StateManager.cb_id cb) st st)
                       (StateManager._callbacks (state_manager d) st))
        (memory_manager d).
Proof.
  unfold with_callbacks. cbn [state_manager memory_manager set_memory_manager set_state_manager].
  split; [done|]. rewrite StateManagerMore.transition_to_trace. by rewrite drop_app_length.
Qed.

Lemma set_idle_trace now sm :
  StateManager.cb_trace (StateManager.set_idle now sm)
    = StateManager.cb_trace (StateManager.transition_to StateManager.IDLE now sm).
Proof. unfold StateManager.set_idle. by case_match. Qed.

Lemma timer_fires_trace t now sm :
  StateManager.cb_trace (StateManager.timer_fires t now sm)
    = match StateManager.tasks sm !! t with
      | Some StateManager.Pending =>
          StateManager.cb_trace (StateManager.transition_to StateManager.SLEEPING now sm)
      | _ => StateManager.cb_trace sm
      end.
Proof. unfold StateManager.timer_fires. by repeat case_match. Qed.

Lemma transition_to_callbacks st now sm :
  StateManager._callbacks (StateManager.transition_to st now sm) = StateManager._callbacks sm.
Proof.
  destruct (decide (StateManager._state sm = st)) as [Heq|Hne].
  - by rewrite StateManagerSpec.transition_to_same.
  - by destruct (StateManagerSpec.transition_to_fields st now sm Hne) as (_ & _ & _ & _ & -> & _).
Qed.

Lemma set_idle_callbacks now sm :
  StateManager._callbacks (StateManager.set_idle now sm) = StateManager._callbacks sm.
Proof.
  unfold StateManager.set_idle. case_match; simpl; apply transition_to_callbacks.
Qed.

Lemma timer_fires_callbacks t now sm :
  StateManager._callbacks (StateManager.timer_fires t now sm) = StateManager._callbacks sm.
Proof.
  unfold StateManager.timer_fires. repeat case_match; try done.
  simpl. apply transition_to_callbacks.
Qed.

Lemma set_idle_state now sm : StateManager._state (StateManager.set_idle now sm) = StateManager.IDLE.
Proof.
  unfold StateManager.set_idle. case_match; simpl; apply StateManagerSpec.transition_to_state.
Qed.

(** *** Components under the daemon's operations *)

Lemma register_component_nothing_loaded name0 factory cb s pk :
  nothing_loaded (MemoryManager.mkMonitored s pk) ->
  nothing_loaded
    (MemoryManager.mkMonitored (snd (MemoryManager.register_component name0 factory cb s)) pk).
Proof.
  intros Hnone key c. unfold MemoryManager.register_component.
  cbn [MemoryManager.manager snd MemoryManager._components].
  destruct (decide (name0 = key)) as [->|Hne].
  - rewrite MemoryManagerSpec.dict_get_set_eq. by intros [= <-].
  - rewrite MemoryManagerMore.dict_get_set_ne by done. apply Hnone.
Qed.

Lemma _check_memory_nothing_loaded r now now_gc done mm :
  nothing_loaded mm -> nothing_loaded (MemoryManager._check_memory r now now_gc done mm).
Proof.
  intros Hnone key c. rewrite MemoryManagerMore._check_memory_components.
  rewrite MemoryManagerMore.unload_idle_components_get. simpl.
  destruct (MemoryManager.dict_get _ key) as [c0|] eqn:Hget; [|done].
  simpl. intros [= <-]. case_match; [done|]. by apply (Hnone key).
Qed.

(** *** What every reachable daemon satisfies *)

Lemma handle_begin_fields name0 now d :
  state_manager (handle_begin name0 now d) = StateManager.set_busy now (state_manager d) /\
  _startup_time (handle_begin name0 now d) = _startup_time d /\
  event_loop (handle_begin name0 now d) = event_loop d /\
  _monitoring_task (handle_begin name0 now d) = _monitoring_task d /\
  _running (handle_begin name0 now d) = _running d.
Proof.
  unfold handle_begin.
  destruct (MemoryManager.get_component name0 now _) as [[v|msg] s]; done.
Qed.

Lemma timer_fires_sleeping t now d :
  daemon_inv d ->
  StateManager.tasks (state_manager d) !! t = Some StateManager.Pending ->
  nothing_loaded (memory_manager (with_callbacks (StateManager.timer_fires t now) d)).
Proof.
  intros (Hbefore & Hafter & Hsleep) Ht.
  unfold with_callbacks. cbn [memory_manager set_memory_manager].
  rewrite timer_fires_trace, Ht, StateManagerMore.transition_to_trace, drop_app_length.
  apply replay_nothing_loaded. case_decide as Hst; [left; by apply Hsleep|].
  right. exists (StateManager.mkCall (StateManager.cb_id _on_sleep)
                   StateManager.SLEEPING StateManager.SLEEPING).
  split; [|done].
  apply (list_elem_of_fmap_2 (fun cb => StateManager.mkCall (StateManager.cb_id cb)
                                      StateManager.SLEEPING StateManager.SLEEPING) _ _on_sleep).
  apply Hafter. intros Hnone. destruct (Hbefore Hnone) as (_ & _ & Hts & _).
  by rewrite Hts in Ht.
Qed.

Lemma step_daemon_inv op now d : daemon_inv d -> daemon_inv (step op now d).
Proof.
  intros Hinv. pose proof Hinv as (Hbefore & Hafter & Hsleep).
  destruct op; cbn [step].
  - unfold start. destruct (_running d) eqn:Hrun; [done|].
    split_and!; cbn [_startup_time state_manager memory_manager].
    + done.
    + intros _. unfold StateManager.register_callback. cbn [StateManager._callbacks].
      rewrite decide_False by done. rewrite decide_True by done.
      apply elem_of_app. right. left.
    + intros Hst. destruct (memory_manager d) as [s pk] eqn:Hmm.
      unfold MemoryManager.on_manager, _register_components.
      cbn [MemoryManager.manager MemoryManager._peak_memory_mb].
      do 2 apply register_component_nothing_loaded. apply Hsleep. exact Hst.
  - unfold stop. destruct (_running d) eqn:Hrun; [|done].
    split_and!; cbn [_startup_time state_manager memory_manager].
    + intros Hnone. destruct (Hbefore Hnone) as (_ & _ & _ & _ & Hr & _). congruence.
    + done.
    + intros _. apply on_sleep_nothing_loaded.
  - done.
  - destruct (EventLoop._handlers (event_loop d) ty) eqn:Hh; [done|].
    unfold handle. destruct (component_of ty) as [name0|]; [|done].
    destruct (handle_begin_fields name0 now d) as (Hsm & Hst & Hel & Hmon & Hrun).
    split_and!.
    + rewrite Hst. intros Hnone. destruct (Hbefore Hnone) as (_ & Hno & _).
      by rewrite Hno in Hh.
    + rewrite Hst, Hsm. unfold StateManager.set_busy. rewrite transition_to_callbacks. done.
    + rewrite Hsm. unfold StateManager.set_busy.
      by rewrite StateManagerSpec.transition_to_state.
  - unfold handle_end. destruct (handling d) as [|n] eqn:Hn; [done|].
    split_and!; cbn [_startup_time state_manager memory_manager set_handling with_callbacks
                     set_memory_manager set_state_manager].
    + intros Hnone. destruct (Hbefore Hnone) as (_ & _ & _ & _ & _ & Hz). congruence.
    + by rewrite set_idle_callbacks.
    + by rewrite set_idle_state.
  - destruct (StateManager.tasks (state_manager d) !! t) as [status|] eqn:Ht.
    2: { assert (Hsame : StateManager.timer_fires t now (state_manager d) = state_manager d).
         { unfold StateManager.timer_fires. by rewrite Ht. }
         unfold with_callbacks. rewrite Hsame, drop_all. by destruct d. }
    destruct (decide (status = StateManager.Pending)) as [->|Hne].
    2: { assert (Hsame : StateManager.timer_fires t now (state_manager d) = state_manager d).
         { unfold StateManager.timer_fires. rewrite Ht. by destruct status. }
         unfold with_callbacks. rewrite Hsame, drop_all. by destruct d. }
    split_and!.
    + cbn [with_callbacks _startup_time set_memory_manager set_state_manager].
      intros Hnone. destruct (Hbefore Hnone) as (_ & _ & Hts & _). by rewrite Hts in Ht.
    + cbn [with_callbacks _startup_time state_manager set_memory_manager set_state_manager].
      by rewrite timer_fires_callbacks.
    + intros _. by apply timer_fires_sleeping.
  - destruct (_monitoring_task d) eqn:Hmon; [|done].
    split_and!; cbn [_startup_time state_manager memory_manager set_memory_manager].
    + intros Hnone. destruct (Hbefore Hnone) as (_ & _ & _ & Hm & _). congruence.
    + done.
    + intros Hst. by apply _check_memory_nothing_loaded, Hsleep.
Qed.

Lemma init_daemon_inv cfg state_config memory_config event_config now :
  daemon_inv (init cfg state_config memory_config event_config now).
Proof.
  split_and!; simpl; [done | done | intros [=]].
Qed.

Lemma run_daemon_inv ops : forall d, daemon_inv d -> daemon_inv (run ops d).
Proof.
  induction ops as [|[op now] ops IH]; intros d Hinv; [done|].
  simpl. by apply IH, step_daemon_inv.
Qed.

(** X28. While the agent is SLEEPING no component is loaded, whatever
    the daemon went through before: starts and stops, handlers beginning
    and ending in any order, timers, checks of the monitor. *)
Theorem sleeping_daemon_holds_no_component cfg state_config memory_config event_config
    now0 ops key c :
  StateManager._state
    (state_manager (run ops (init cfg state_config memory_config event_config now0)))
    = StateManager.SLEEPING ->
  MemoryManager.dict_get
    (MemoryManager._components
       (MemoryManager.manager
          (memory_manager (run ops (init cfg state_config memory_config event_config now0)))))
    key = Some c ->
  MemoryManager.is_loaded c = false.
Proof.
  intros Hst Hget.
  destruct (run_daemon_inv ops _ (init_daemon_inv cfg state_config memory_config
                                    event_config now0)) as (_ & _ & Hsleep).
  by apply (Hsleep Hst key).
Qed.

Lemma sleeping_daemon_holds_no_component_witness :
  StateManager._state (state_manager (run evening fresh)) = StateManager.SLEEPING /\
  MemoryManager.is_loaded
    (MemoryManager.mkComponentRef "voice" _create (Some _unload) PyNone
       (Some 10%Z) 1 (Some 10%Z)) = false.
Proof.
  split; [reflexivity|].
  apply (sleeping_daemon_holds_no_component default_config StateManager.default_config
           MemoryManager.default_config EventLoop.default_config 0 evening "voice").
  - reflexivity.
  - reflexivity.
Defined.

(** *** Restarting *)

(** X29. Starting a daemon that is not running registers its five
    handlers and its two state callbacks once more, after those that are
    there, and stopping removes none of them.  So a daemon that is started,
    stopped and started again has every handler and callback twice; the
    kind USER never gets a handler. *)
Theorem restart_registers_handlers_again now d :
  _running d = false ->
  (forall ty, ty <> EventLoop.USER ->
     EventLoop._handlers (event_loop (start now d)) ty
       = EventLoop._handlers (event_loop d) ty ++ [handler_of ty]) /\
  EventLoop._handlers (event_loop (start now d)) EventLoop.USER
    = EventLoop._handlers (event_loop d) EventLoop.USER /\
  StateManager._callbacks (state_manager (start now d)) StateManager.SLEEPING
    = StateManager._callbacks (state_manager d) StateManager.SLEEPING ++ [_on_sleep] /\
  StateManager._callbacks (state_manager (start now d)) StateManager.IDLE
    = StateManager._callbacks (state_manager d) StateManager.IDLE ++ [_on_wake] /\
  StateManager._callbacks (state_manager (start now d)) StateManager.BUSY
    = StateManager._callbacks (state_manager d) StateManager.BUSY /\
  (forall ty, EventLoop._handlers (event_loop (stop (start now d))) ty
                = EventLoop._handlers (event_loop (start now d)) ty) /\
  (forall st, StateManager._callbacks (state_manager (stop (start now d))) st
                = StateManager._callbacks (state_manager (start now d)) st).
Proof.
  intros Hrun.
  assert (Hstart : forall el, EventLoop._handlers (EventLoop.start el) = EventLoop._handlers el).
  { intros el. unfold EventLoop.start. by destruct (EventLoop._running el). }
  assert (Hstop : forall el, EventLoop._handlers (EventLoop.stop el) = EventLoop._handlers el).
  { intros el. unfold EventLoop.stop. by destruct (EventLoop._running el). }
  unfold stop, start. rewrite Hrun. cbn [_running event_loop state_manager].
  rewrite Hstop, Hstart.
  split_and!; try done.
  - intros ty Hty. by destruct ty.
Qed.

Lemma restart_registers_handlers_again_witness :
  EventLoop._handlers (event_loop (run restarted fresh)) EventLoop.CALL
    = [handler_of EventLoop.CALL; handler_of EventLoop.CALL].
Proof.
  destruct (restart_registers_handlers_again 3 (stop (start 1 fresh))) as (H & _).
  - reflexivity.
  - apply (H EventLoop.CALL). done.
Defined.

(** *** Handlers *)

Lemma keeps_factories_refl s : keeps_factories s s.
Proof. intros key c Hget. by exists c. Qed.

Lemma keeps_factories_trans s1 s2 s3 :
  keeps_factories s1 s2 -> keeps_factories s2 s3 -> keeps_factories s1 s3.
Proof.
  intros H12 H23 key c Hget. destruct (H12 key c Hget) as (c2 & Hget2 & Hf2).
  destruct (H23 key c2 Hget2) as (c3 & Hget3 & Hf3). exists c3. split; [done | congruence].
Qed.

Lemma unload_all_keeps_factories s : keeps_factories s (MemoryManager.unload_all s).
Proof.
  intros key c Hget.
  rewrite MemoryManagerMore.unload_all_components,
    (proj1 (MemoryManagerMore.unload_each_spec _ _)).
  rewrite (MemoryManagerMore.dict_get_map
             (fun c => if MemoryManager.is_loaded c then MemoryManager.cleared c else c)).
  rewrite Hget. simpl. eexists. split; [done|]. by case_match.
Qed.

Lemma unload_idle_components_keeps_factories now s :
  keeps_factories s (snd (MemoryManager.unload_idle_components now s)).
Proof.
  intros key c Hget. rewrite MemoryManagerMore.unload_idle_components_get, Hget.
  simpl. eexists. split; [done|]. by case_match.
Qed.

Lemma load_factory now c w :
  MemoryManager._factory (snd (fst (MemoryManager.load now c w))) = MemoryManager._factory c.
Proof.
  unfold MemoryManager.load. destruct (MemoryManager._instance c); [|done].
  by destruct (MemoryManager._factory c _).
Qed.

Lemma get_component_keeps_factories name0 now s :
  keeps_factories s (snd (MemoryManager.get_component name0 now s)).
Proof.
  intros key c Hget.
  destruct (MemoryManager.dict_get (MemoryManager._components s) name0) as [c0|] eqn:Hget0.
  - rewrite (MemoryManagerMore.get_component_registered _ _ _ _ Hget0).
    cbn [snd MemoryManager._components].
    destruct (decide (name0 = key)) as [->|Hne].
    + rewrite MemoryManagerSpec.dict_get_set_eq. eexists. split; [done|].
      rewrite load_factory. congruence.
    + rewrite MemoryManagerMore.dict_get_set_ne by done. by exists c.
  - unfold MemoryManager.get_component. rewrite Hget0. by exists c.
Qed.

Lemma replay_keeps_factories calls : forall mm,
  keeps_factories (MemoryManager.manager mm) (MemoryManager.manager (replay calls mm)).
Proof.
  induction calls as [|call calls IH]; intros mm; [apply keeps_factories_refl|].
  change (replay (call :: calls) mm)
    with (replay calls
            (if Nat.eqb (StateManager.cc_id call) (StateManager.cb_id _on_sleep)
             then on_sleep mm else mm)).
  eapply keeps_factories_trans; [|apply IH].
  case_match; [apply unload_all_keeps_factories | apply keeps_factories_refl].
Qed.

Lemma _check_memory_keeps_factories r now now_gc done mm :
  keeps_factories (MemoryManager.manager mm)
    (MemoryManager.manager (MemoryManager._check_memory r now now_gc done mm)).
Proof.
  intros key c Hget. rewrite MemoryManagerMore._check_memory_components.
  by apply (unload_idle_components_keeps_factories now
              (MemoryManager.add_world_log DEBUG "Memory" (MemoryManager.manager mm))).
Qed.

Lemma handle_begin_keeps_factories name0 now d :
  keeps_factories (MemoryManager.manager (memory_manager d))
    (MemoryManager.manager (memory_manager (handle_begin name0 now d))).
Proof.
  unfold handle_begin.
  set (d1 := with_callbacks (StateManager.set_busy now) d).
  assert (H1 : keeps_factories (MemoryManager.manager (memory_manager d))
                 (MemoryManager.manager (memory_manager d1))).
  { apply (replay_keeps_factories _ (memory_manager d)). }
  pose proof (get_component_keeps_factories name0 now
                (MemoryManager.manager (memory_manager d1))) as H2.
  destruct (MemoryManager.get_component name0 now _) as [res s].
  apply (keeps_factories_trans _ _ _ H1). destruct res; exact H2.
Qed.

Lemma started_inv_keeps d d' :
  started_inv d ->
  _startup_time d' = _startup_time d ->
  EventLoop._handlers (event_loop d') = EventLoop._handlers (event_loop d) ->
  keeps_factories (MemoryManager.manager (memory_manager d))
    (MemoryManager.manager (memory_manager d')) ->
  started_inv d'.
Proof.
  intros Hinv Hst Hel Hkeep Hstarted ty name0 Hty. rewrite Hst in Hstarted.
  destruct (Hinv Hstarted ty name0 Hty) as (Hh & c & Hget & Hfac).
  split; [by rewrite Hel|].
  destruct (Hkeep name0 c Hget) as (c' & Hget' & Hfac'). exists c'. split; [done | congruence].
Qed.

Lemma step_started_inv op now d : started_inv d -> started_inv (step op now d).
Proof.
  intros Hinv. destruct op; cbn [step].
  - unfold start. destruct (_running d) eqn:Hrun.
    + apply (started_inv_keeps d); [done | done | done | apply keeps_factories_refl].
    + intros _ ty name0 Hty. cbn [event_loop memory_manager].
      split.
      * assert (Hstart : forall el, EventLoop._handlers (EventLoop.start el)
                                    = EventLoop._handlers el).
        { intros el. unfold EventLoop.start. by destruct (EventLoop._running el). }
        rewrite Hstart. destruct ty; try done; simpl; by destruct (EventLoop._handlers _ _).
      * exists (MemoryManager.new_component name0 _create (Some _unload)).
        split; [|done].
        unfold _register_components, MemoryManager.register_component.
        cbn [MemoryManager.on_manager MemoryManager.manager snd MemoryManager._components].
        destruct ty; try done; injection Hty as <-.
        -- apply MemoryManagerSpec.dict_get_set_eq.
        -- rewrite MemoryManagerMore.dict_get_set_ne by done.
           apply MemoryManagerSpec.dict_get_set_eq.
        -- rewrite MemoryManagerMore.dict_get_set_ne by done.
           apply MemoryManagerSpec.dict_get_set_eq.
  - unfold stop. destruct (_running d) eqn:Hrun; [|done].
    apply (started_inv_keeps d); [done | done | | apply unload_all_keeps_factories].
    cbn [event_loop]. unfold EventLoop.stop. by destruct (EventLoop._running _).
  - apply (started_inv_keeps d); [done | done | done | apply keeps_factories_refl].
  - destruct (EventLoop._handlers (event_loop d) ty) eqn:Hh; [done|].
    unfold handle. destruct (component_of ty) as [name0|]; [|done].
    destruct (handle_begin_fields name0 now d) as (_ & Hst & Hel & _).
    apply (started_inv_keeps d); [done | done | by rewrite Hel |].
    apply handle_begin_keeps_factories.
  - unfold handle_end. destruct (handling d); [done|].
    apply (started_inv_keeps d); [done | done | done |].
    apply (replay_keeps_factories _ (memory_manager d)).
  - apply (started_inv_keeps d); [done | done | done |].
    apply (replay_keeps_factories _ (memory_manager d)).
  - destruct (_monitoring_task d); [|done].
    apply (started_inv_keeps d); [done | done | done |].
    apply _check_memory_keeps_factories.
Qed.

Lemma step_sleep_task_inv op now d :
  StateManager.sleep_task_inv (state_manager d) ->
  StateManager.sleep_task_inv (state_manager (step op now d)).
Proof.
  intros Hinv. destruct op; cbn [step].
  - unfold start. destruct (_running d); [done|]. cbn [state_manager].
    apply (StateManagerSpec.step_inv (StateManager.OpRegisterCallback _ _) now).
    by apply (StateManagerSpec.step_inv (StateManager.OpRegisterCallback _ _) now).
  - unfold stop. by destruct (_running d).
  - done.
  - destruct (EventLoop._handlers (event_loop d) ty); [done|].
    unfold handle. destruct (component_of ty) as [name0|]; [|done].
    rewrite (proj1 (handle_begin_fields name0 now d)).
    by apply (StateManagerSpec.step_inv StateManager.OpSetBusy now).
  - unfold handle_end. destruct (handling d); [done|].
    by apply (StateManagerSpec.step_inv StateManager.OpSetIdle now).
  - by apply (StateManagerSpec.step_inv (StateManager.OpTimerFires t) now).
  - by destruct (_monitoring_task d).
Qed.

Lemma run_started_inv ops : forall d,
  started_inv d -> StateManager.sleep_task_inv (state_manager d) ->
  started_inv (run ops d) /\ StateManager.sleep_task_inv (state_manager (run ops d)).
Proof.
  induction ops as [|[op now] ops IH]; intros d Hs Ht; [done|].
  simpl. apply IH; [by apply step_started_inv | by apply step_sleep_task_inv].
Qed.

Lemma load_create now c w :
  MemoryManager._factory c = _create ->
  exists tok,
    fst (fst (MemoryManager.load now c w)) = Returns (PyObj tok) /\
    MemoryManager.is_loaded (snd (fst (MemoryManager.load now c w))) = true /\
    MemoryManager._last_accessed (snd (fst (MemoryManager.load now c w))) = Some now.
Proof.
  intros Hfac. unfold MemoryManager.load, MemoryManager.is_loaded.
  destruct (MemoryManager._instance c) as [|tok] eqn:Hinst.
  - rewrite Hfac. unfold _create. simpl. eauto.
  - simpl. rewrite Hinst. eauto.
Qed.

Lemma handle_begin_loads name0 now d c :
  MemoryManager.dict_get
    (MemoryManager._components
       (MemoryManager.manager (memory_manager (with_callbacks (StateManager.set_busy now) d))))
    name0 = Some c ->
  MemoryManager._factory c = _create ->
  handling (handle_begin name0 now d) = S (handling d) /\
  exists c',
    MemoryManager.dict_get
      (MemoryManager._components (MemoryManager.manager (memory_manager (handle_begin name0 now d))))
      name0 = Some c' /\
    MemoryManager.is_loaded c' = true /\
    MemoryManager._last_accessed c' = Some now.
Proof.
  intros Hget Hfac. unfold handle_begin.
  rewrite (MemoryManagerMore.get_component_registered _ _ _ _ Hget).
  destruct (load_create now c
              (MemoryManager.world
                 (MemoryManager.manager
                    (memory_manager (with_callbacks (StateManager.set_busy now) d)))) Hfac)
    as (tok & -> & Hl & Ha).
  cbn [handling set_handling set_memory_manager memory_manager MemoryManager.manager
       MemoryManager._components with_callbacks set_state_manager].
  split; [done|]. eexists. split; [apply MemoryManagerSpec.dict_get_set_eq|]. done.
Qed.

(** X30. Once the daemon was started, a handler that begins on a call
    or a message finds its component: afterwards the agent is BUSY, no
    sleep timer is pending, and the voice engine (for a call) or the brain
    (for a message) is loaded and was accessed just now; the handler goes on
    to its sleep. *)
Theorem handler_finds_its_component cfg state_config memory_config event_config
    now0 ops ty name0 now :
  _startup_time (run ops (init cfg state_config memory_config event_config now0)) <> None ->
  component_of ty = Some name0 ->
  StateManager._state
    (state_manager
       (step (OpHandle ty) now (run ops (init cfg state_config memory_config event_config now0))))
    = StateManager.BUSY /\
  StateManager.no_pending
    (state_manager
       (step (OpHandle ty) now (run ops (init cfg state_config memory_config event_config now0)))) /\
  handling
    (step (OpHandle ty) now (run ops (init cfg state_config memory_config event_config now0)))
    = S (handling (run ops (init cfg state_config memory_config event_config now0))) /\
  exists c,
    MemoryManager.dict_get
      (MemoryManager._components
         (MemoryManager.manager
            (memory_manager
               (step (OpHandle ty) now
                  (run ops (init cfg state_config memory_config event_config now0))))))
      name0 = Some c /\
    MemoryManager.is_loaded c = true /\
    MemoryManager._last_accessed c = Some now.
Proof.
  intros Hstarted Hty.
  destruct (run_started_inv ops (init cfg state_config memory_config event_config now0))
    as [Hinv Htasks].
  { intros H. done. }
  { apply StateManagerSpec.init_inv. }
  set (d := run ops (init cfg state_config memory_config event_config now0)) in *.
  destruct (Hinv Hstarted ty name0 Hty) as (Hh & c & Hget & Hfac).
  pose proof (step_sleep_task_inv (OpHandle ty) now d Htasks) as Htasks'.
  cbn [step] in *. destruct (EventLoop._handlers (event_loop d) ty) eqn:Hl; [done|].
  unfold handle in *. rewrite Hty in *.
  destruct (handle_begin_fields name0 now d) as (Hsm & _).
  assert (Hbusy : StateManager._state (state_manager (handle_begin name0 now d))
                  = StateManager.BUSY).
  { rewrite Hsm. apply StateManagerSpec.transition_to_state. }
  destruct (replay_keeps_factories
              (drop (length (StateManager.cb_trace (state_manager d)))
                 (StateManager.cb_trace (StateManager.set_busy now (state_manager d))))
              (memory_manager d) name0 c Hget) as (c1 & Hget1 & Hfac1).
  destruct (handle_begin_loads name0 now d c1 Hget1 ltac:(congruence)) as [Hn Hc].
  split_and!.
  - done.
  - by apply StateManagerSpec.sleep_task_inv_no_pending.
  - done.
  - done.
Qed.

Lemma handler_finds_its_component_witness :
  handling (step (OpHandle EventLoop.WHATSAPP) 400000000 (run evening fresh)) = 1.
Proof.
  destruct (handler_finds_its_component default_config StateManager.default_config
              MemoryManager.default_config EventLoop.default_config 0 evening
              EventLoop.WHATSAPP "brain" 400000000%Z) as (_ & _ & H & _).
  - discriminate.
  - reflexivity.
  - exact H.
Defined.

End DaemonSpec.
